(** * gpx.studio: the document state engine (db.ts)

    A shallow embedding of the file-state database of gpx.studio: the
    patch log with its undo/redo cursor, the generation of file ids, the
    statistics tree and the selection-driven edit operations of [dbUtils],
    with the subscriber that keeps the observers and the file order, and,
    of the modules that use db.ts, the statistics of the selection
    (stores.ts) and the colours of the layers (GPXLayer.ts).

    Conventions.
    - JavaScript numbers used as indices or counters are [Z] (or [nat] where
      the source only ever holds a list position); distances are exact
      rationals [Q], which every finite double is.
    - A callback passed to [produceWithPatches] is a function on the draft
      that may raise: [DocumentState -> option DocumentState], [None] being
      the exception.
    - The Dexie tables are finite maps.  The live queries copy the [files]
      table into the observers and into the [fileState] cache; as long as
      the cache is not frozen, these hold between two operations what the
      table holds, and [Database] keeps one map for the three.  The
      operations whose names end in [On], [duplicateSelection], [split] and
      [Program] keep the cache apart from the table.
    - db.ts calls into the immer library, the gpx library and the selection
      module of the file list.  What it needs of them is either a parameter
      ([distance], the statistics, the retiming of merged traces) or a
      definition written after the specification, whose comment says so. *)

From Stdlib Require Import QArith Qabs Lia Lqa Sorted.
From stdpp Require Import base option list gmap sets strings pretty numbers.

Local Open Scope Z_scope.

(** ** Document model *)

Record Coordinates := mkCoordinates { lat : Q; lon : Q }.

Record TrackPoint := mkTrackPoint {
  pt_coordinates : Coordinates;
  pt_time : option Z
}.

Record TrackSegment := mkTrackSegment { trkpt : list TrackPoint }.

Record Track := mkTrack {
  trk_name : option string;
  trkseg : list TrackSegment
}.

Record Waypoint := mkWaypoint {
  wpt_coordinates : Coordinates;
  wpt_name : string
}.

(** [file_id] is [_data.id], [metadata_name] is [metadata.name]. *)
Record GPXFile := mkGPXFile {
  file_id : string;
  metadata_name : string;
  trk : list Track;
  wpt : list Waypoint
}.

Global Instance Q_eq_dec : EqDecision Q.
Proof. solve_decision. Defined.
Global Instance Coordinates_eq_dec : EqDecision Coordinates.
Proof. solve_decision. Defined.
Global Instance TrackPoint_eq_dec : EqDecision TrackPoint.
Proof. solve_decision. Defined.
Global Instance TrackSegment_eq_dec : EqDecision TrackSegment.
Proof. solve_decision. Defined.
Global Instance Track_eq_dec : EqDecision Track.
Proof. solve_decision. Defined.
Global Instance Waypoint_eq_dec : EqDecision Waypoint.
Proof. solve_decision. Defined.
Global Instance GPXFile_eq_dec : EqDecision GPXFile.
Proof. solve_decision. Defined.

(** The map of file ids to files that [produceWithPatches] drafts. *)
Abbreviation DocumentState := (gmap string GPXFile).

(** ** Patch engine *)

Inductive PatchOp := OpAdd | OpReplace | OpRemove.

(** A patch of the library: [{op, path, value}].  [path[0]] is the key of
    the file in the map, which is all [getChangedFileIds] reads. *)
Record Patch := mkPatch {
  op : PatchOp;
  path : list string;
  value : option GPXFile
}.

Global Instance PatchOp_eq_dec : EqDecision PatchOp.
Proof. solve_decision. Defined.
Global Instance Patch_eq_dec : EqDecision Patch.
Proof. solve_decision. Defined.

(** Modelled from the spec: the structural differ behind
    [produceWithPatches] (the immer library, not under src/).  The spec
    asks for an ordered list of operations, each with a path through the
    DocumentState, a kind and a value; the model diffs at the granularity of
    a whole document, the only level of the path the source inspects. *)
Definition patchesFor (id : string) (old new : option GPXFile)
    : list Patch * list Patch :=
  match old, new with
  | None, None => ([], [])
  | None, Some v =>
      ([mkPatch OpAdd [id] (Some v)], [mkPatch OpRemove [id] None])
  | Some v, None =>
      ([mkPatch OpRemove [id] None], [mkPatch OpAdd [id] (Some v)])
  | Some v, Some v' =>
      if decide (v = v') then ([], [])
      else ([mkPatch OpReplace [id] (Some v')],
            [mkPatch OpReplace [id] (Some v)])
  end.

Definition diffKeys (before after : DocumentState) (ks : list string)
    : list Patch * list Patch :=
  foldr (λ id acc,
           let p := patchesFor id (before !! id) (after !! id) in
           (p.1 ++ acc.1, p.2 ++ acc.2))
        ([], []) ks.

Definition diff (before after : DocumentState) : list Patch * list Patch :=
  diffKeys before after (elements (dom before ∪ dom after)).

(** Modelled from the spec: [applyPatches] of the same library.  An id that
    a replace or remove refers to and that is not in the state is the fatal
    consistency error of the spec, here [None]. *)
Definition applyOne (st : DocumentState) (p : Patch) : option DocumentState :=
  match path p, op p, value p with
  | [id], OpAdd, Some v => Some (<[id := v]> st)
  | [id], OpReplace, Some v =>
      match st !! id with
      | Some _ => Some (<[id := v]> st)
      | None => None
      end
  | [id], OpRemove, _ =>
      match st !! id with
      | Some _ => Some (delete id st)
      | None => None
      end
  | _, _, _ => None
  end.

Fixpoint applyPatches (st : DocumentState) (ps : list Patch)
    : option DocumentState :=
  match ps with
  | [] => Some st
  | p :: ps' =>
      match applyOne st p with
      | Some st' => applyPatches st' ps'
      | None => None
      end
  end.

(** [produceWithPatches(fileState, callback)]: runs the callback on a draft
    of the state and returns the new state with the patch pair. *)
Definition produceWithPatches (base : DocumentState)
    (recipe : DocumentState → option DocumentState)
    : option (DocumentState * list Patch * list Patch) :=
  match recipe base with
  | Some new => let d := diff base new in Some (new, d.1, d.2)
  | None => None
  end.

(** ** Database *)

Record PatchEntry := mkPatchEntry {
  patch : list Patch;
  inversePatch : list Patch;
  index : Z
}.

(** [files] is the [files] table (and with it [fileids], written with the
    same keys in the same transaction), [patches] the [patches] table and
    [patchIndexSetting] the ['patchIndex'] key of [settings]. *)
Record Database := mkDatabase {
  files : DocumentState;
  patches : gmap Z PatchEntry;
  patchIndexSetting : option Z
}.

Definition set_files (f : DocumentState) (db : Database) : Database :=
  mkDatabase f (patches db) (patchIndexSetting db).
Definition set_patches (p : gmap Z PatchEntry) (db : Database) : Database :=
  mkDatabase (files db) p (patchIndexSetting db).
Definition set_patchIndex (i : Z) (db : Database) : Database :=
  mkDatabase (files db) (patches db) (Some i).

(** [patchIndex]: the store starts at [-1] and ignores an undefined value. *)
Definition patchIndex (db : Database) : Z := default (-1) (patchIndexSetting db).

Record MinMax := mkMinMax { min : Z; max : Z }.

Definition minKey (ks : list Z) : Z := foldr Z.min (default 0 (head ks)) ks.
Definition maxKey (ks : list Z) : Z := foldr Z.max (default 0 (head ks)) ks.

(** [patchMinMaxIndex]: [{min: 0, max: 0}] for an empty table, else the
    first key and the last key plus one. *)
Definition patchMinMaxIndex (db : Database) : MinMax :=
  let keys := elements (dom (patches db)) in
  match keys with
  | [] => mkMinMax 0 0
  | _ => mkMinMax (minKey keys) (maxKey keys + 1)
  end.

Definition canUndo (db : Database) : bool :=
  bool_decide (min (patchMinMaxIndex db) ≤ patchIndex db).
Definition canRedo (db : Database) : bool :=
  bool_decide (patchIndex db < max (patchMinMaxIndex db) - 1).

(** [getChangedFileIds]: the first path component of every patch, once. *)
Definition getChangedFileIds (ps : list Patch) : list string :=
  remove_dups (omap (λ p, head (path p)) ps).

(** [commitFileStateChange]: the changed ids that the new state has are put,
    each under the [_data.id] of its file, the others are deleted. *)
Definition commitFileStateChange (newFileState : DocumentState)
    (ps : list Patch) (db : Database) : Database :=
  let changedFileIds := getChangedFileIds ps in
  let updatedFiles := omap (λ id, newFileState !! id) changedFileIds in
  let deletedFileIds :=
    filter (λ id, newFileState !! id = None) changedFileIds in
  let put := foldl (λ m f, <[file_id f := f]> m) (files db) updatedFiles in
  let del := foldl (λ m id, delete id m) put deletedFileIds in
  set_files del db.

Definition MAX_PATCHES : Z := 100.

(** [storePatches].  The two deletes are issued first; [patchMinMaxIndex] is
    a store fed by a live query, so the value read between them is still the
    key range of the table as it was when the function was entered. *)
Definition storePatches (p inv : list Patch) (db : Database) : Database :=
  let cursor := patchIndex db in
  let minmax := patchMinMaxIndex db in
  let truncated := filter (λ kv, kv.1 ≤ cursor) (patches db) in
  let pruned :=
    if decide (max minmax - min minmax + 1 > MAX_PATCHES)
    then filter (λ kv, max minmax - MAX_PATCHES < kv.1) truncated
    else truncated in
  let index := cursor + 1 in
  set_patchIndex index
    (set_patches (<[index := mkPatchEntry p inv index]> pruned) db).

(** [applyGlobal]: an exception of the callback leaves everything as it
    was.  The state the callback is run on is the cache [fileState], taken
    here to hold the [files] table; [applyGlobalOn] below takes it as a
    parameter. *)
Definition applyGlobal (callback : DocumentState → option DocumentState)
    (db : Database) : option Database :=
  match produceWithPatches (files db) callback with
  | Some (newFileState, p, inv) =>
      Some (commitFileStateChange newFileState p (storePatches p inv db))
  | None => None
  end.

(** [applyToFiles]: the callback on every listed file that exists. *)
Definition applyToFiles (fileIds : list string)
    (callback : GPXFile → option GPXFile) (db : Database) : option Database :=
  applyGlobal
    (λ draft,
       foldl (λ acc fileId,
                d ← acc;
                match d !! fileId with
                | Some file => f' ← callback file; Some (<[fileId := f']> d)
                | None => Some d
                end)
             (Some draft) fileIds)
    db.

(** [applyEachToFilesAndGlobal]: [callbacks[index]] on the file of
    [fileIds[index]], then the global callback; a missing callback is the
    call of [undefined], an exception. *)
Definition applyEachToFilesAndGlobal (fileIds : list string)
    (callbacks : list (GPXFile → option GPXFile))
    (globalCallback : DocumentState → option DocumentState)
    (db : Database) : option Database :=
  applyGlobal
    (λ draft,
       d ← foldl (λ acc '(index, fileId),
                d ← acc;
                match d !! fileId with
                | Some file =>
                    cb ← callbacks !! index;
                    f' ← cb file; Some (<[fileId := f']> d)
                | None => Some d
                end)
             (Some draft) (imap (λ i x, (i, x)) fileIds);
       globalCallback d)
    db.

(** [applyPatch]: used by undo and redo, touches no log entry.  The
    patch is applied to the cache [fileState], taken here to hold the
    [files] table; [applyPatchOn] below takes it as a parameter. *)
Definition applyPatch (ps : list Patch) (db : Database) : option Database :=
  match applyPatches (files db) ps with
  | Some newFileState => Some (commitFileStateChange newFileState ps db)
  | None => None
  end.

(** ** Undo and redo *)

(** [dbUtils.undo].  The entry is read from the table; an exception of
    [applyPatch] rejects the promise before the cursor is written. *)
Definition undo (db : Database) : Database :=
  if canUndo db then
    let index := patchIndex db in
    match patches db !! index with
    | Some entry =>
        match applyPatch (inversePatch entry) db with
        | Some db' => set_patchIndex (index - 1) db'
        | None => db
        end
    | None => db
    end
  else db.

(** [dbUtils.redo]. *)
Definition redo (db : Database) : Database :=
  if canRedo db then
    let index := patchIndex db + 1 in
    match patches db !! index with
    | Some entry =>
        match applyPatch (patch entry) db with
        | Some db' => set_patchIndex index db'
        | None => db
        end
    | None => db
    end
  else db.

(** ** The cache

    [fileState] (l.290) is the map the patches are generated from.  The
    subscriber of a file writes the value of the table into it and, right
    after, into the store of the observer, which is what [getFile] reads
    (l.189-193); a transaction never writes it.  The definitions above take
    the [files] table for it, which it equals once the subscribers have
    run.  It stops following the table when the library returns it,
    frozen, from a transaction that has changed nothing: from then on the
    subscribers raise at l.189, and neither the cache nor the stores
    change any more.  The definitions below take the cache as a parameter,
    [fileState], so that what is proved of them holds of every state of
    the program; [observers] are the keys of [fileObservers], which
    [getFileIds] reads. *)

(** [applyGlobal] on the cache. *)
Definition applyGlobalOn (fileState : DocumentState)
    (callback : DocumentState → option DocumentState)
    (db : Database) : option Database :=
  match produceWithPatches fileState callback with
  | Some (newFileState, p, inv) =>
      Some (commitFileStateChange newFileState p (storePatches p inv db))
  | None => None
  end.

(** [applyToFiles] on the cache. *)
Definition applyToFilesOn (fileState : DocumentState) (fileIds : list string)
    (callback : GPXFile → option GPXFile) (db : Database) : option Database :=
  applyGlobalOn fileState
    (λ draft,
       foldl (λ acc fileId,
                d ← acc;
                match d !! fileId with
                | Some file => f' ← callback file; Some (<[fileId := f']> d)
                | None => Some d
                end)
             (Some draft) fileIds)
    db.

(** [applyEachToFilesAndGlobal] on the cache. *)
Definition applyEachToFilesAndGlobalOn (fileState : DocumentState)
    (fileIds : list string) (callbacks : list (GPXFile → option GPXFile))
    (globalCallback : DocumentState → option DocumentState)
    (db : Database) : option Database :=
  applyGlobalOn fileState
    (λ draft,
       d ← foldl (λ acc '(index, fileId),
                d ← acc;
                match d !! fileId with
                | Some file =>
                    cb ← callbacks !! index;
                    f' ← cb file; Some (<[fileId := f']> d)
                | None => Some d
                end)
             (Some draft) (imap (λ i x, (i, x)) fileIds);
       globalCallback d)
    db.

(** [applyPatch] on the cache. *)
Definition applyPatchOn (fileState : DocumentState) (ps : list Patch)
    (db : Database) : option Database :=
  match applyPatches fileState ps with
  | Some newFileState => Some (commitFileStateChange newFileState ps db)
  | None => None
  end.

(** [dbUtils.undo] on the cache. *)
Definition undoOn (fileState : DocumentState) (db : Database) : Database :=
  if canUndo db then
    let index := patchIndex db in
    match patches db !! index with
    | Some entry =>
        match applyPatchOn fileState (inversePatch entry) db with
        | Some db' => set_patchIndex (index - 1) db'
        | None => db
        end
    | None => db
    end
  else db.

(** ** File ids *)

Definition gpxId (index : nat) : string := "gpx-" +:+ pretty index.

(** The loop of [getFileIds]: [for (index = 0; ids.length < n; index++)].
    [fuel] bounds the number of iterations; [getFileIds] gives it enough
    (see [getFileIds_length]). *)
Fixpoint getFileIds_loop (observers : gset string) (n : nat)
    (fuel index : nat) (ids : list string) : list string :=
  if decide (length ids < n)%nat then
    match fuel with
    | O => ids
    | S fuel' =>
        let id := gpxId index in
        getFileIds_loop observers n fuel' (S index)
          (if decide (id ∈ observers) then ids else ids ++ [id])
    end
  else ids.

(** [getFileIds(n)]: the observers are those of the files of the table. *)
Definition getFileIds (observers : gset string) (n : nat) : list string :=
  getFileIds_loop observers n (n + size observers) 0 [].

Definition with_id (id : string) (file : GPXFile) : GPXFile :=
  mkGPXFile id (metadata_name file) (trk file) (wpt file).

(** [dbUtils.add].  [id] is the [_data.id] the file comes with, [None] for
    [undefined]: then an id is generated.  [getFileIds(1)] has one element
    (see [getFileIds_length]); the default stands for [undefined]. *)
Definition add (id : option string) (file : GPXFile) (db : Database)
    : option Database :=
  let id' :=
    match id with
    | Some i => i
    | None => default "undefined" (head (getFileIds (dom (files db)) 1))
    end in
  applyGlobal (λ draft, Some (<[id' := with_id id' file]> draft)) db.


(** [dbUtils.deleteAllFiles]. *)
Definition deleteAllFiles (db : Database) : option Database :=
  applyGlobal (λ _, Some ∅) db.

(** [dbUtils.addMultiple] on the cache. *)
Definition addMultipleOn (fileState : DocumentState) (observers : gset string)
    (fs : list GPXFile) (db : Database) : option Database :=
  applyGlobalOn fileState
    (λ draft,
       let ids := getFileIds observers (length fs) in
       Some (foldl (λ d '(id, file),
                      <[id := with_id id file]> d)
                   draft (zip ids fs)))
    db.

(** [dbUtils.deleteAllFiles] on the cache. *)
Definition deleteAllFilesOn (fileState : DocumentState) (db : Database)
    : option Database :=
  applyGlobalOn fileState (λ _, Some ∅) db.

(** ** Items of the file list *)

Inductive ListLevel := ROOT | FILE | TRACK | SEGMENT | WAYPOINTS | WAYPOINT.

Inductive ListItem :=
| ListRootItem
| ListFileItem (fileId : string)
| ListTrackItem (fileId : string) (trackIndex : nat)
| ListTrackSegmentItem (fileId : string) (trackIndex segmentIndex : nat)
| ListWaypointsItem (fileId : string)
| ListWaypointItem (fileId : string) (waypointIndex : nat).

Global Instance ListLevel_eq_dec : EqDecision ListLevel.
Proof. solve_decision. Defined.
Global Instance ListItem_eq_dec : EqDecision ListItem.
Proof. solve_decision. Defined.

Definition item_level (item : ListItem) : ListLevel :=
  match item with
  | ListRootItem => ROOT
  | ListFileItem _ => FILE
  | ListTrackItem _ _ => TRACK
  | ListTrackSegmentItem _ _ _ => SEGMENT
  | ListWaypointsItem _ => WAYPOINTS
  | ListWaypointItem _ _ => WAYPOINT
  end.

Definition getFileId (item : ListItem) : option string :=
  match item with
  | ListRootItem => None
  | ListFileItem f | ListTrackItem f _ | ListTrackSegmentItem f _ _
  | ListWaypointsItem f | ListWaypointItem f _ => Some f
  end.

(** The accessors exist on the classes that have the index; on another
    item the call of the cast value raises ([None]). *)
Definition getTrackIndex (item : ListItem) : option nat :=
  match item with
  | ListTrackItem _ t | ListTrackSegmentItem _ t _ => Some t
  | _ => None
  end.

Definition getSegmentIndex (item : ListItem) : option nat :=
  match item with
  | ListTrackSegmentItem _ _ s => Some s
  | _ => None
  end.

Definition getWaypointIndex (item : ListItem) : option nat :=
  match item with
  | ListWaypointItem _ w => Some w
  | _ => None
  end.

(** What [getIdAtLevel] returns: [undefined], a string or a number. *)
Inductive ItemId := IdUndefined | IdString (s : string) | IdNumber (n : nat).

(** Modelled from the spec: [ListItem.getIdAtLevel] (FileList.ts, not under
    src/): the component of the item's path at the given level; an item
    that stops above the level has none, and the waypoints of a file sit
    under the ['waypoints'] key of the file. *)
Definition getIdAtLevel (item : ListItem) (level : ListLevel) : ItemId :=
  match item, level with
  | ListRootItem, _ => IdUndefined
  | ListFileItem f, ROOT => IdString f
  | ListFileItem _, _ => IdUndefined
  | ListTrackItem f _, ROOT => IdString f
  | ListTrackItem _ t, FILE => IdNumber t
  | ListTrackItem _ _, _ => IdUndefined
  | ListTrackSegmentItem f _ _, ROOT => IdString f
  | ListTrackSegmentItem _ t _, FILE => IdNumber t
  | ListTrackSegmentItem _ _ s, TRACK => IdNumber s
  | ListTrackSegmentItem _ _ _, _ => IdUndefined
  | ListWaypointsItem f, ROOT => IdString f
  | ListWaypointsItem _, FILE => IdString "waypoints"
  | ListWaypointsItem _, _ => IdUndefined
  | ListWaypointItem f _, ROOT => IdString f
  | ListWaypointItem _ _, FILE => IdString "waypoints"
  | ListWaypointItem _ w, WAYPOINTS => IdNumber w
  | ListWaypointItem _ _, _ => IdUndefined
  end.

(** ** Ordered traversal of the selection *)

(** One call of the traversal's callback: [(fileId, level, items)]. *)
Record Visit := mkVisit {
  visit_fileId : string;
  visit_level : ListLevel;
  visit_items : list ListItem
}.

Definition itemKey (item : ListItem) : nat * nat :=
  match item with
  | ListTrackItem _ t => (t, O)
  | ListTrackSegmentItem _ t s => (t, s)
  | ListWaypointItem _ w => (w, O)
  | _ => (O, O)
  end.

Definition item_leb (a b : ListItem) : bool :=
  let ka := itemKey a in
  let kb := itemKey b in
  (ka.1 <? kb.1)%nat || ((ka.1 =? kb.1)%nat && (ka.2 <=? kb.2)%nat).

Fixpoint insertItem (x : ListItem) (l : list ListItem) : list ListItem :=
  match l with
  | [] => [x]
  | y :: l' => if item_leb x y then x :: l else y :: insertItem x l'
  end.

Definition sortItems (items : list ListItem) (rev : bool) : list ListItem :=
  let sorted := foldr insertItem [] items in
  if rev then reverse sorted else sorted.

(** Modelled from the spec: [applyToOrderedItemsFromFile] (Selection.ts, not
    under src/): the callback is called once per file of the file order that
    has selected items, with the level of these items and the items in index
    order, reversed on request. *)
Definition applyToOrderedItemsFromFile (fileOrder : list string)
    (selected : list ListItem) (rev : bool) : list Visit :=
  omap (λ fileId,
          let items :=
            filter (λ item, getFileId item = Some fileId) selected in
          match list.last items with
          | Some item => Some (mkVisit fileId (item_level item)
                                       (sortItems items rev))
          | None => None
          end)
       fileOrder.

(** ** Statistics tree *)

Section statistics.
Context {Stats : Type}.

(** [GPXStatisticsTree]: [statistics] holds a child at every index from 0
    on, a tree under a file and the statistics of a segment under a
    track. *)
#[warnings="-register-all"] Inductive GPXStatisticsTree :=
| mkGPXStatisticsTree (level : ListLevel)
    (statistics : list (Stats + GPXStatisticsTree)).

Definition tree_level (t : GPXStatisticsTree) : ListLevel :=
  match t with mkGPXStatisticsTree l _ => l end.
Definition tree_statistics (t : GPXStatisticsTree)
    : list (Stats + GPXStatisticsTree) :=
  match t with mkGPXStatisticsTree _ s => s end.

(** [emptyStatistics] is [new GPXStatistics()], [mergeWith a b] the
    statistics [a] after [a.mergeWith(b)], [getStatistics] the statistics
    of a segment: the three come from the gpx library. *)
Context (emptyStatistics : Stats) (mergeWith : Stats → Stats → Stats)
        (getStatistics : TrackSegment → Stats).

(** The constructor, for a track and for a file. *)
Definition trackStatisticsTree (element : Track) : GPXStatisticsTree :=
  mkGPXStatisticsTree TRACK ((λ child, inl (getStatistics child)) <$> trkseg element).
Definition fileStatisticsTree (element : GPXFile) : GPXStatisticsTree :=
  mkGPXStatisticsTree FILE ((λ child, inr (trackStatisticsTree child)) <$> trk element).

(** [this.statistics[id]] for a string: the keys are the decimal indices. *)
Definition keyOfId (id : ItemId) (n : nat) : option nat :=
  match id with
  | IdNumber i => Some i
  | IdString s => list_find (λ i, pretty i = s) (seq 0 n) ≫= (λ p, Some p.2)
  | IdUndefined => None
  end.

Definition mergesAll (id : ItemId) : bool :=
  match id with
  | IdUndefined => true
  | IdString s => bool_decide (s = "waypoints")
  | IdNumber _ => false
  end.

(** [getStatisticsFor]. *)
Fixpoint getStatisticsFor (t : GPXStatisticsTree) (item : ListItem)
    {struct t} : Stats :=
  match t with
  | mkGPXStatisticsTree level statistics =>
      let id := getIdAtLevel item level in
      let fix mergeKeys (l : list (Stats + GPXStatisticsTree)) (acc : Stats)
          : Stats :=
        match l with
        | [] => acc
        | inl s :: l' => mergeKeys l' (mergeWith acc s)
        | inr c :: l' => mergeKeys l' (mergeWith acc (getStatisticsFor c item))
        end in
      let fix mergeChild (l : list (Stats + GPXStatisticsTree)) (i : nat)
          : Stats :=
        match l, i with
        | [], _ => emptyStatistics
        | inl s :: _, O => mergeWith emptyStatistics s
        | inr c :: _, O => mergeWith emptyStatistics (getStatisticsFor c item)
        | _ :: l', S i' => mergeChild l' i'
        end in
      if mergesAll id then mergeKeys statistics emptyStatistics
      else match keyOfId id (length statistics) with
           | Some i => mergeChild statistics i
           | None => emptyStatistics
           end
  end.
End statistics.

Global Arguments GPXStatisticsTree : clear implicits.

(** ** Primitives of the gpx library used by the operations *)

Definition with_trk (tracks : list Track) (file : GPXFile) : GPXFile :=
  mkGPXFile (file_id file) (metadata_name file) tracks (wpt file).
Definition with_wpt (waypoints : list Waypoint) (file : GPXFile) : GPXFile :=
  mkGPXFile (file_id file) (metadata_name file) (trk file) waypoints.
Definition with_metadata_name (name : string) (file : GPXFile) : GPXFile :=
  mkGPXFile (file_id file) name (trk file) (wpt file).
Definition with_trkseg (segments : list TrackSegment) (track : Track) : Track :=
  mkTrack (trk_name track) segments.
Definition with_trk_name (name : option string) (track : Track) : Track :=
  mkTrack name (trkseg track).

(** A left fold whose step may raise. *)
Fixpoint foldlM {A B} (f : B → A → option B) (b : B) (l : list A) : option B :=
  match l with
  | [] => Some b
  | x :: l' => match f b x with Some b' => foldlM f b' l' | None => None end
  end.

(** [Array.prototype.splice(start, deleteCount, ...items)] for a start that
    is not negative. *)
Definition splice {A} (l : list A) (start deleteCount : nat) (items : list A)
    : list A :=
  take start l ++ items ++ drop (start + deleteCount) l.

Definition clampZ (lo hi x : Z) : Z := Z.max lo (Z.min hi x).

(** Modelled from the spec: the range replacement behind [replaceTracks],
    [replaceTrackSegments], [replaceWaypoints] and [replaceTrackPoints]
    (gpx.ts, not under src/): the inclusive range [start..end] is replaced
    by the new items, [end < start] inserts at [start], indices out of range
    are clamped. *)
Definition replaceRange {A} (l : list A) (start end_ : Z) (items : list A)
    : list A :=
  let n := Z.of_nat (length l) in
  let s := clampZ 0 n start in
  let e := clampZ (s - 1) (n - 1) end_ in
  take (Z.to_nat s) l ++ items ++ drop (Z.to_nat (e + 1)) l.

Definition replaceTracks (start end_ : Z) (tracks : list Track)
    (file : GPXFile) : GPXFile :=
  with_trk (replaceRange (trk file) start end_ tracks) file.

Definition replaceWaypoints (start end_ : Z) (waypoints : list Waypoint)
    (file : GPXFile) : GPXFile :=
  with_wpt (replaceRange (wpt file) start end_ waypoints) file.

Definition trackReplaceTrackSegments (start end_ : Z)
    (segments : list TrackSegment) (track : Track) : Track :=
  with_trkseg (replaceRange (trkseg track) start end_ segments) track.

(** On a file the track is looked up first: a missing track raises. *)
Definition replaceTrackSegments (trackIndex : nat) (start end_ : Z)
    (segments : list TrackSegment) (file : GPXFile) : option GPXFile :=
  track ← trk file !! trackIndex;
  Some (with_trk (<[trackIndex :=
                     trackReplaceTrackSegments start end_ segments track]>
                    (trk file)) file).

Definition segmentPoints (segment : TrackSegment) : nat := length (trkpt segment).
Definition trackPoints (track : Track) : nat :=
  foldr (λ s acc, segmentPoints s + acc)%nat O (trkseg track).
Definition getNumberOfTrackPoints (file : GPXFile) : nat :=
  foldr (λ t acc, trackPoints t + acc)%nat O (trk file).

Definition isSelected (indices : option (list nat)) (i : nat) : bool :=
  match indices with
  | None => true
  | Some l => bool_decide (i ∈ l)
  end.

(** Modelled from the spec: [crop] of a segment, a track and a file (gpx.ts,
    not under src/): the points whose index, counted over the selected
    children, lies in [start..end] are kept; a selected child that lies
    outside the range, or that is left without points, is removed. *)
Definition cropSegment (start end_ : Z) (segment : TrackSegment)
    : TrackSegment :=
  mkTrackSegment
    (take (Z.to_nat (end_ + 1) - Z.to_nat start) (drop (Z.to_nat start) (trkpt segment))).

Fixpoint cropChildren {A} (points : A → nat) (cropChild : Z → Z → A → A)
    (indices : option (list nat)) (i : nat) (start end_ : Z) (l : list A)
    : list A :=
  match l with
  | [] => []
  | x :: l' =>
      if isSelected indices i then
        let length := Z.of_nat (points x) in
        let kept :=
          if decide (start > 0 ∨ end_ < length - 1)
          then cropChild (Z.max 0 start) (Z.min (length - 1) end_) x
          else x in
        (if decide (start >= length ∨ end_ < 0) then []
         else if decide (points kept = O) then [] else [kept])
        ++ cropChildren points cropChild indices (S i)
             (start - length) (end_ - length) l'
      else x :: cropChildren points cropChild indices (S i) start end_ l'
  end.

Definition cropTrack (segmentIndices : option (list nat)) (start end_ : Z)
    (track : Track) : Track :=
  with_trkseg
    (cropChildren segmentPoints cropSegment segmentIndices O start end_
       (trkseg track)) track.

Definition crop (start end_ : Z) (trackIndices segmentIndices : option (list nat))
    (file : GPXFile) : GPXFile :=
  with_trk
    (cropChildren trackPoints (cropTrack segmentIndices) trackIndices O
       start end_ (trk file)) file.

(** ** Edit operations *)

(** The state the callback of [cropSelection] threads through the visits:
    [start] and [end] are shifted by the length of every file visited. *)
Definition cropVisit (st : Z * Z * DocumentState) (v : Visit)
    : option (Z * Z * DocumentState) :=
  let '(start, end_, draft) := st in
  let fileId := visit_fileId v in
  match draft !! fileId with
  | Some file =>
      match visit_level v with
      | FILE =>
          let length := Z.of_nat (getNumberOfTrackPoints file) in
          let draft' :=
            if decide (start >= length ∨ end_ < 0) then delete fileId draft
            else if decide (start > 0 ∨ end_ < length - 1)
                 then <[fileId := crop (Z.max 0 start) (Z.min (length - 1) end_)
                                       None None file]> draft
                 else draft in
          Some (start - length, end_ - length, draft')
      | TRACK =>
          trackIndices ← mapM getTrackIndex (visit_items v);
          Some (start, end_,
                <[fileId := crop start end_ (Some trackIndices) None file]> draft)
      | SEGMENT =>
          t ← head (visit_items v) ≫= getTrackIndex;
          segmentIndices ← mapM getSegmentIndex (visit_items v);
          Some (start, end_,
                <[fileId := crop start end_ (Some [t]) (Some segmentIndices)
                                 file]> draft)
      | _ => Some st
      end
  | None => Some st
  end.

Definition cropCallback (visits : list Visit) (start end_ : Z)
    (draft : DocumentState) : option DocumentState :=
  st ← foldlM cropVisit (start, end_, draft) visits; Some st.2.

(** [dbUtils.cropSelection]. *)
Definition cropSelection (fileOrder : list string) (selected : list ListItem)
    (start end_ : Z) (db : Database) : option Database :=
  if decide (length selected = O) then Some db
  else applyGlobal
         (cropCallback (applyToOrderedItemsFromFile fileOrder selected false)
                       start end_) db.

Definition deleteVisit (draft : DocumentState) (v : Visit)
    : option DocumentState :=
  let fileId := visit_fileId v in
  match visit_level v with
  | FILE => Some (delete fileId draft)
  | level =>
      match draft !! fileId with
      | Some file =>
          file' ←
            match level with
            | TRACK =>
                foldlM (λ f item,
                          t ← getTrackIndex item;
                          Some (replaceTracks (Z.of_nat t) (Z.of_nat t) [] f))
                       file (visit_items v)
            | SEGMENT =>
                foldlM (λ f item,
                          t ← getTrackIndex item;
                          s ← getSegmentIndex item;
                          replaceTrackSegments t (Z.of_nat s) (Z.of_nat s) [] f)
                       file (visit_items v)
            | WAYPOINTS =>
                Some (replaceWaypoints 0 (Z.of_nat (length (wpt file)) - 1) [] file)
            | WAYPOINT =>
                foldlM (λ f item,
                          w ← getWaypointIndex item;
                          Some (replaceWaypoints (Z.of_nat w) (Z.of_nat w) [] f))
                       file (visit_items v)
            | _ => Some file
            end;
          Some (<[fileId := file']> draft)
      | None => Some draft
      end
  end.

(** [dbUtils.deleteSelection]. *)
Definition deleteSelection (fileOrder : list string) (selected : list ListItem)
    (db : Database) : option Database :=
  if decide (length selected = O) then Some db
  else applyGlobal
         (λ draft, foldlM deleteVisit draft
                     (applyToOrderedItemsFromFile fileOrder selected true)) db.

(** [dbUtils.deleteSelectedFiles]. *)
Definition deleteSelectedFiles (fileOrder : list string)
    (selected : list ListItem) (db : Database) : option Database :=
  if decide (length selected = O) then Some db
  else applyGlobal
         (λ draft, Some (foldl (λ d v, delete (visit_fileId v) d) draft
                     (applyToOrderedItemsFromFile fileOrder selected true))) db.

(** [dbUtils.deleteSelectedFiles] on the cache. *)
Definition deleteSelectedFilesOn (fileState : DocumentState)
    (fileOrder : list string) (selected : list ListItem) (db : Database)
    : option Database :=
  if decide (length selected = O) then Some db
  else applyGlobalOn fileState
         (λ draft, Some (foldl (λ d v, delete (visit_fileId v) d) draft
                     (applyToOrderedItemsFromFile fileOrder selected true))) db.

(** *** Merge *)

Record ToMerge := mkToMerge {
  toMerge_trk : list Track;
  toMerge_trkseg : list TrackSegment;
  toMerge_wpt : list Waypoint
}.

(** The variables of the callback of [mergeSelection].  [targetFile] is a
    draft of a file of the map: it is kept as the key of that file. *)
Record MergeState := mkMergeState {
  merge_draft : DocumentState;
  merge_first : bool;
  merge_target : ListItem;
  merge_targetFile : option string;
  merge_toMerge : ToMerge
}.

Definition setTrackSegments (trackIndex : nat) (segments : list TrackSegment)
    (file : GPXFile) : option GPXFile :=
  track ← trk file !! trackIndex;
  Some (with_trk (<[trackIndex := with_trkseg segments track]> (trk file)) file).

(** One item of a visit at the track level. *)
Definition mergeTrackItem (originalFile : GPXFile) (count : nat)
    (st : GPXFile * ListItem * list TrackSegment) (x : nat * ListItem)
    : option (GPXFile * ListItem * list TrackSegment) :=
  let '(file, target, segments) := st in
  let '(index, item) := x in
  trackIndex ← getTrackIndex item;
  original ← trk originalFile !! trackIndex;
  let segments' := trkseg original ++ segments in
  if decide (index = count - 1)%nat then
    file' ← setTrackSegments trackIndex [] file;
    Some (file', item, segments')
  else
    Some (with_trk (splice (trk file) trackIndex 1 []) file, target, segments').

(** One item of a visit at the segment level. *)
Definition mergeSegmentItem (originalFile : GPXFile) (count : nat)
    (st : GPXFile * ListItem * list TrackSegment) (x : nat * ListItem)
    : option (GPXFile * ListItem * list TrackSegment) :=
  let '(file, target, segments) := st in
  let '(index, item) := x in
  trackIndex ← getTrackIndex item;
  segmentIndex ← getSegmentIndex item;
  let target' := if decide (index = count - 1)%nat then item else target in
  original ← trk originalFile !! trackIndex;
  segment ← trkseg original !! segmentIndex;
  track ← trk file !! trackIndex;
  file' ← setTrackSegments trackIndex
            (splice (trkseg track) segmentIndex 1 []) file;
  Some (file', target', segment :: segments).

Definition mergeVisit (original : DocumentState) (st : MergeState) (v : Visit)
    : option MergeState :=
  let fileId := visit_fileId v in
  let items := visit_items v in
  let toMerge := merge_toMerge st in
  match merge_draft st !! fileId, original !! fileId with
  | Some file, Some originalFile =>
      match visit_level v with
      | FILE =>
          let toMerge' :=
            mkToMerge (toMerge_trk toMerge ++ trk originalFile)
                      (toMerge_trkseg toMerge)
                      (toMerge_wpt toMerge ++ wpt originalFile) in
          if merge_first st then
            Some (mkMergeState (merge_draft st) false
                    (default ListRootItem (head items)) (Some fileId) toMerge')
          else
            Some (mkMergeState (delete fileId (merge_draft st)) false
                    (merge_target st) (merge_targetFile st) toMerge')
      | level =>
          r ← match level with
              | TRACK =>
                  foldlM (mergeTrackItem originalFile (length items))
                    (file, merge_target st, toMerge_trkseg toMerge)
                    (imap pair items)
              | SEGMENT =>
                  foldlM (mergeSegmentItem originalFile (length items))
                    (file, merge_target st, toMerge_trkseg toMerge)
                    (imap pair items)
              | _ => Some (file, merge_target st, toMerge_trkseg toMerge)
              end;
          let '(file', target', segments') := r in
          Some (mkMergeState (<[fileId := file']> (merge_draft st)) false
                  target' (Some fileId)
                  (mkToMerge (toMerge_trk toMerge) segments'
                             (toMerge_wpt toMerge)))
      end
  | _, _ => Some st
  end.

(** The [mergeTraces] step.  [blend segments] is the segment built by
    [replaceTrackPoints] from the points of the segments with the moving
    speed and the start time of the current statistics (gpx library). *)
Definition mergeTracesStep (blend : list TrackSegment → TrackSegment)
    (toMerge : ToMerge) : ToMerge :=
  let tracks :=
    match toMerge_trk toMerge with
    | track :: _ =>
        match trkseg track with
        | _ :: _ =>
            [with_trkseg [blend (mjoin (trkseg <$> toMerge_trk toMerge))] track]
        | [] => toMerge_trk toMerge
        end
    | [] => []
    end in
  let segments :=
    match toMerge_trkseg toMerge with
    | _ :: _ => [blend (toMerge_trkseg toMerge)]
    | [] => []
    end in
  mkToMerge tracks segments (toMerge_wpt toMerge).

(** The last step: the collected data replaces the content of the target. *)
Definition mergeIntoTarget (st : MergeState) (toMerge : ToMerge)
    : option DocumentState :=
  let draft := merge_draft st in
  match merge_targetFile st with
  | Some key =>
      match draft !! key with
      | Some targetFile =>
          match merge_target st with
          | ListFileItem _ =>
              let f1 := replaceTracks 0 (Z.of_nat (length (trk targetFile)) - 1)
                          (toMerge_trk toMerge) targetFile in
              let f2 := replaceWaypoints 0 (Z.of_nat (length (wpt f1)) - 1)
                          (toMerge_wpt toMerge) f1 in
              Some (<[key := f2]> draft)
          | ListTrackItem _ trackIndex =>
              f ← replaceTrackSegments trackIndex 0 (-1)
                     (toMerge_trkseg toMerge) targetFile;
              Some (<[key := f]> draft)
          | ListTrackSegmentItem _ trackIndex segmentIndex =>
              f ← replaceTrackSegments trackIndex (Z.of_nat segmentIndex)
                     (Z.of_nat segmentIndex - 1)
                     (toMerge_trkseg toMerge) targetFile;
              Some (<[key := f]> draft)
          | _ => Some draft
          end
      | None => Some draft
      end
  | None => Some draft
  end.

Definition mergeCallback (blend : list TrackSegment → TrackSegment)
    (mergeTraces : bool) (original : DocumentState) (visits : list Visit)
    (draft : DocumentState) : option DocumentState :=
  st ← foldlM (mergeVisit original)
         (mkMergeState draft true ListRootItem None (mkToMerge [] [] []))
         visits;
  let toMerge :=
    if mergeTraces then mergeTracesStep blend (merge_toMerge st)
    else merge_toMerge st in
  mergeIntoTarget st toMerge.

(** [dbUtils.mergeSelection]. *)
Definition mergeSelection (blend : list TrackSegment → TrackSegment)
    (fileOrder : list string) (selected : list ListItem) (mergeTraces : bool)
    (db : Database) : option Database :=
  applyGlobal
    (mergeCallback blend mergeTraces (files db)
       (applyToOrderedItemsFromFile fileOrder selected true)) db.

(** *** Distances *)

(** [Number.MAX_VALUE], the largest finite double. *)
Definition MAX_VALUE : Q := inject_Z (2 ^ 1024 - 2 ^ 971).

(** [a < b] on numbers. *)
Definition Qltb (a b : Q) : bool := negb (Qle_bool b a).

(** *** Extract *)

(** An element of [closest]: the indices of the tracks (or segments) found
    at the smallest distance so far. *)
Record Closest := mkClosest {
  wptIndex : nat;
  closest_index : list nat;
  closest_distance : Q
}.

Definition initialClosest (waypoints : list Waypoint) : list Closest :=
  imap (λ wptIndex _, mkClosest wptIndex [O] MAX_VALUE) waypoints.

(** The body of the innermost loop, for one point and one waypoint. *)
Definition updateClosest (dist : Q) (index : nat) (c : Closest) : Closest :=
  if Qltb dist (closest_distance c) then
    mkClosest (wptIndex c) [index] dist
  else if Qeq_bool dist (closest_distance c) then
    mkClosest (wptIndex c) (closest_index c ++ [index]) (closest_distance c)
  else c.

Section extract.
(** [distance] of the gpx library. *)
Context (distance : Coordinates → Coordinates → Q).

(** [file.wpt.forEach((wpt, wptIndex) => ...)] for one point: the entry
    [closest[wptIndex]] is updated in place ([closest] has an entry for
    every waypoint). *)
Definition closestForPoint (waypoints : list Waypoint) (index : nat)
    (point : TrackPoint) (closest : list Closest) : list Closest :=
  foldl (λ cl '(wptIndex, waypoint),
           let dist := distance (pt_coordinates point)
                                (wpt_coordinates waypoint) in
           alter (updateClosest dist index) wptIndex cl)
        closest (imap pair waypoints).

Definition closestForSegment (waypoints : list Waypoint) (index : nat)
    (closest : list Closest) (segment : TrackSegment) : list Closest :=
  foldl (λ cl point, closestForPoint waypoints index point cl)
        closest (trkpt segment).

(** More than one track: [index] is the index of the track. *)
Definition closestTracks (file : GPXFile) : list Closest :=
  foldl (λ cl '(index, track),
           foldl (closestForSegment (wpt file) index) cl (trkseg track))
        (initialClosest (wpt file)) (imap pair (trk file)).

(** One track: [index] is the index of the segment. *)
Definition closestSegments (file : GPXFile) (track : Track) : list Closest :=
  foldl (λ cl '(index, segment),
           closestForSegment (wpt file) index cl segment)
        (initialClosest (wpt file)) (imap pair (trkseg track)).

(** [closest.filter((c) => c.index.includes(index)).map((c) =>
    file.wpt[c.wptIndex])]. *)
Definition waypointsOf (file : GPXFile) (closest : list Closest)
    (index : nat) : list Waypoint :=
  omap (λ c, wpt file !! wptIndex c)
       (filter (λ c, index ∈ closest_index c) closest).

Definition numbered (name : string) (n : nat) : string :=
  name +:+ " (" +:+ pretty (S n) +:+ ")".

Definition truthy (name : option string) : bool :=
  match name with
  | Some s => bool_decide (s ≠ "")
  | None => false
  end.

(** [track.trkseg.map((segment, segmentIndex) => ...)]: one track per
    segment of the track. *)
Definition tracksOfSegments (track : Track) : list Track :=
  imap (λ segmentIndex segment,
          let t := trackReplaceTrackSegments 0
                     (Z.of_nat (length (trkseg track)) - 1) [segment] track in
          if truthy (trk_name track)
          then with_trk_name
                 (Some (numbered (default "" (trk_name track)) segmentIndex)) t
          else t)
       (trkseg track).

(** The new file of the track [index] of a file with several tracks. *)
Definition extractedTrackFile (file : GPXFile) (closest : list Closest)
    (fileIds : list string) (index : nat) (track : Track) : GPXFile :=
  let f1 := replaceTracks 0 (Z.of_nat (length (trk file)) - 1)
              (tracksOfSegments track) file in
  let f2 := replaceWaypoints 0 (Z.of_nat (length (wpt file)) - 1)
              (waypointsOf file closest index) f1 in
  with_metadata_name
    (default (numbered (metadata_name file) index) (trk_name track))
    (with_id (default "undefined" (fileIds !! index)) f2).

(** The new file of the segment [index] of a file with one track;
    [replaceTrackSegments] is that of the file, on its track 0. *)
Definition extractedSegmentFile (file : GPXFile) (track : Track)
    (closest : list Closest) (fileIds : list string) (index : nat)
    (segment : TrackSegment) : option GPXFile :=
  f1 ← replaceTrackSegments 0 0 (Z.of_nat (length (trkseg track)) - 1)
         [segment] file;
  let f2 := replaceWaypoints 0 (Z.of_nat (length (wpt file)) - 1)
              (waypointsOf file closest index) f1 in
  Some (with_metadata_name
          (numbered (default (metadata_name file) (trk_name track)) index)
          (with_id (default "undefined" (fileIds !! index)) f2)).

Definition extractFile (observers : gset string) (file : GPXFile)
    (draft : DocumentState) : option DocumentState :=
  match trk file with
  | [] => Some draft
  | [track] =>
      let fileIds := getFileIds observers (length (trkseg track)) in
      let closest := closestSegments file track in
      foldlM (λ d '(index, segment),
                newFile ← extractedSegmentFile file track closest fileIds
                            index segment;
                Some (<[file_id newFile := newFile]> d))
             draft (imap pair (trkseg track))
  | tracks =>
      let fileIds := getFileIds observers (length tracks) in
      let closest := closestTracks file in
      Some (foldl (λ d '(index, track),
                     let newFile := extractedTrackFile file closest fileIds
                                      index track in
                     <[file_id newFile := newFile]> d)
                  draft (imap pair tracks))
  end.

Definition extractVisit (original : DocumentState) (draft : DocumentState)
    (v : Visit) : option DocumentState :=
  let fileId := visit_fileId v in
  match visit_level v with
  | FILE =>
      match original !! fileId with
      | Some file =>
          d ← extractFile (dom original) file draft;
          Some (delete fileId d)
      | None => Some draft
      end
  | TRACK =>
      match draft !! fileId with
      | Some file =>
          file' ← foldlM (λ f item,
                     trackIndex ← getTrackIndex item;
                     track ← trk f !! trackIndex;
                     Some (replaceTracks (Z.of_nat trackIndex)
                             (Z.of_nat trackIndex) (tracksOfSegments track) f))
                   file (visit_items v);
          Some (<[fileId := file']> draft)
      | None => Some draft
      end
  | _ => Some draft
  end.

(** [dbUtils.extractSelection]. *)
Definition extractSelection (fileOrder : list string)
    (selected : list ListItem) (db : Database) : option Database :=
  applyGlobal
    (λ draft, foldlM (extractVisit (files db)) draft
                (applyToOrderedItemsFromFile fileOrder selected true)) db.

(** *** Split *)

Inductive SplitType := FILES | TRACKS | SEGMENTS.

Global Instance SplitType_eq_dec : EqDecision SplitType.
Proof. solve_decision. Defined.

(** The search loop of [split]: [(minDistance, minIndex)] after the
    points. *)
Definition closestPointStep (coordinates : Coordinates)
    (st : Q * nat) (x : nat * TrackPoint) : Q * nat :=
  let dist := distance (pt_coordinates x.2) coordinates in
  if Qltb dist st.1 then (dist, x.1) else st.

Definition closestPoint (points : list TrackPoint)
    (coordinates : Coordinates) : Q * nat :=
  foldl (closestPointStep coordinates) (MAX_VALUE, O) (imap pair points).

(** [file.forEachSegment] adding up the lengths before the split. *)
Definition absoluteIndex (splitType : SplitType) (file : GPXFile)
    (trackIndex segmentIndex minIndex : nat) : nat :=
  foldl (λ acc '(trkIndex, track),
           foldl (λ acc' '(segIndex, seg),
                    if bool_decide
                         ((trkIndex < trackIndex)%nat ∧ splitType = FILES
                          ∨ trkIndex = trackIndex
                            ∧ (segIndex < segmentIndex)%nat)
                    then (acc' + segmentPoints seg)%nat else acc')
                 acc (imap pair (trkseg track)))
        minIndex (imap pair (trk file)).

Definition splitCallback (splitType : SplitType) (original : DocumentState)
    (observers : gset string)
    (fileId : string) (trackIndex segmentIndex : nat)
    (coordinates : Coordinates) (draft : DocumentState)
    : option DocumentState :=
  match original !! fileId with
  | Some file =>
      track ← trk file !! trackIndex;
      segment ← trkseg track !! segmentIndex;
      let minIndex := (closestPoint (trkpt segment) coordinates).2 in
      let abs := Z.of_nat (absoluteIndex splitType file trackIndex
                             segmentIndex minIndex) in
      match draft !! fileId with
      | Some newFile =>
          match splitType with
          | FILES =>
              let id := default "undefined"
                          (head (getFileIds observers 1)) in
              let newFile2 :=
                crop abs (Z.of_nat (getNumberOfTrackPoints file) - 1)
                     None None (with_id id file) in
              Some (<[id := newFile2]>
                      (<[fileId := crop 0 abs None None newFile]> draft))
          | TRACKS =>
              let start := cropTrack None 0 abs track in
              let end_ := cropTrack None abs
                            (Z.of_nat (trackPoints track) - 1) track in
              Some (<[fileId := replaceTracks (Z.of_nat trackIndex)
                                  (Z.of_nat trackIndex) [start; end_]
                                  newFile]> draft)
          | SEGMENTS =>
              let start := cropSegment 0 (Z.of_nat minIndex) segment in
              let end_ := cropSegment (Z.of_nat minIndex)
                            (Z.of_nat (segmentPoints segment) - 1) segment in
              f ← replaceTrackSegments trackIndex (Z.of_nat segmentIndex)
                     (Z.of_nat segmentIndex) [start; end_] newFile;
              Some (<[fileId := f]> draft)
          end
      | None => Some draft
      end
  | None => Some draft
  end.

(** [dbUtils.split]; [splitType] is the value of the [splitAs] store,
    [fileState] the cache, whose files are those [getFile] returns, and
    [observers] the keys of [fileObservers]. *)
Definition split (splitType : SplitType) (fileState : DocumentState)
    (observers : gset string) (fileId : string)
    (trackIndex segmentIndex : nat) (coordinates : Coordinates)
    (db : Database) : option Database :=
  applyGlobalOn fileState
    (splitCallback splitType fileState observers fileId trackIndex
       segmentIndex coordinates) db.
End extract.

(** ** Notions used in the statements *)

(** The keys of the log are the integers of [[min, max)] and the cursor
    stays within [[min - 1, max - 1]]. *)
Definition log_wf (db : Database) : Prop :=
  let minmax := patchMinMaxIndex db in
  (∀ k, k ∈ dom (patches db) ↔ min minmax ≤ k < max minmax)
  ∧ min minmax - 1 ≤ patchIndex db ≤ max minmax - 1.

(** Every file is stored under its own [_data.id]. *)
Definition keyed (st : DocumentState) : Prop :=
  ∀ k f, st !! k = Some f → file_id f = k.

(** The visit of a selected file. *)
Definition fileVisit (fileId : string) : Visit :=
  mkVisit fileId FILE [ListFileItem fileId].

(** The elements of a list whose index, counted from [o], satisfies [P]. *)
Fixpoint keepFrom {A} (o : nat) (P : nat → bool) (l : list A) : list A :=
  match l with
  | [] => []
  | x :: l' => (if P o then [x] else []) ++ keepFrom (S o) P l'
  end.

(** The files of a list of ids, in the order of the list. *)
Definition filesOf (st : DocumentState) (ids : list string) : list GPXFile :=
  omap (λ id, st !! id) ids.

(** A list of indices in strictly descending order, as the reversed
    traversal hands them over. *)
Definition descending (ts : list nat) : Prop :=
  StronglySorted (λ a b, (b < a)%nat) ts.

(** The pairs [(index, item)] of a [forEach], counted from [o]. *)
Definition indexed {A} (o : nat) (l : list A) : list (nat * A) :=
  imap (λ i x, ((o + i)%nat, x)) l.

(** What [mergeSelection] does to the collected data before it goes into
    the target. *)
Definition blended (blend : list TrackSegment → TrackSegment)
    (mergeTraces : bool) (toMerge : ToMerge) : ToMerge :=
  if mergeTraces then mergeTracesStep blend toMerge else toMerge.




(** The statistics a child of a tree contributes for an item. *)
Definition childStatistics {Stats} (emptyStatistics : Stats)
    (mergeWith : Stats → Stats → Stats)
    (child : Stats + GPXStatisticsTree Stats) (item : ListItem) : Stats :=
  match child with
  | inl s => s
  | inr t => getStatisticsFor emptyStatistics mergeWith t item
  end.

(** ** Sample data *)

Definition emptyDatabase : Database := mkDatabase ∅ ∅ None.
Definition file0 : GPXFile := mkGPXFile "" "track" [] [].

(** The database after one file was added to the empty one, and the entry
    that this stores. *)
Definition db1 : Database :=
  default emptyDatabase (add None file0 emptyDatabase).
Definition entry1 : PatchEntry :=
  mkPatchEntry [mkPatch OpAdd ["gpx-0"] (Some (with_id "gpx-0" file0))]
               [mkPatch OpRemove ["gpx-0"] None] 0.

(** The database after [n] files were added one after the other. *)
Definition addedFiles (n : nat) : Database :=
  Nat.iter n (λ db, default db (add None file0 db)) emptyDatabase.

Definition point (x y : Z) : TrackPoint :=
  mkTrackPoint (mkCoordinates (inject_Z x) (inject_Z y)) None.

(** A file with one track of one segment of two points, and the state that
    holds only this file. *)
Definition file2 : GPXFile :=
  mkGPXFile "gpx-0" "two points"
    [mkTrack None [mkTrackSegment [point 0 0; point 0 1]]] [].
Definition state2 : DocumentState := {["gpx-0" := file2]}.

(** A file without any point, as [newGPXFile] creates it. *)
Definition fileEmpty : GPXFile := mkGPXFile "gpx-0" "new" [] [].
Definition stateEmpty : DocumentState := {["gpx-0" := fileEmpty]}.

(** Two files with one track each, one of them with a waypoint. *)
Definition fileA : GPXFile :=
  mkGPXFile "gpx-0" "A"
    [mkTrack (Some "a") [mkTrackSegment [point 0 0; point 0 1]]]
    [mkWaypoint (mkCoordinates 0 0) "hut"].
Definition fileB : GPXFile :=
  mkGPXFile "gpx-1" "B" [mkTrack (Some "b") [mkTrackSegment [point 5 5]]] [].
Definition stateAB : DocumentState := {["gpx-0" := fileA; "gpx-1" := fileB]}.

(** A file with three tracks, and its statistics tree when the statistics
    of a segment are the number of its points. *)
Definition file3 : GPXFile :=
  mkGPXFile "gpx-0" "three tracks"
    [mkTrack (Some "t0") [mkTrackSegment [point 0 0]; mkTrackSegment [point 0 1]];
     mkTrack (Some "t1") [mkTrackSegment [point 1 0]];
     mkTrack (Some "t2") [mkTrackSegment [point 2 0]; mkTrackSegment [point 2 1]]]
    [].
Definition state3 : DocumentState := {["gpx-0" := file3]}.
Definition countTree : GPXStatisticsTree nat :=
  fileStatisticsTree segmentPoints file3.

(** A stand-in for the retiming of the gpx library: the points of the
    segments one after the other, as they are. *)
Definition blendPoints (segments : list TrackSegment) : TrackSegment :=
  mkTrackSegment (mjoin (trkpt <$> segments)).

(** Distances for the examples: the sum of the absolute differences of the
    coordinates. *)
Definition gridDistance (a b : Coordinates) : Q :=
  Qabs (lat a - lat b) + Qabs (lon a - lon b).

(** Three points on a line and a target half way between the first two. *)
Definition linePoints : list TrackPoint := [point 0 0; point 0 2; point 0 4].
Definition halfWay : Coordinates := mkCoordinates 0 1.

(** A file with two tracks and a waypoint half way between their only
    points, and one more waypoint next to the second track. *)
Definition middle : Waypoint := mkWaypoint (mkCoordinates 0 1) "middle".
Definition west : Track := mkTrack (Some "west") [mkTrackSegment [point 0 0]].
Definition east : Track := mkTrack (Some "east") [mkTrackSegment [point 0 2]].
Definition fileTwoTracks : GPXFile :=
  mkGPXFile "gpx-0" "two tracks" [west; east]
    [middle; mkWaypoint (mkCoordinates 0 3) "far east"].
Definition stateTwoTracks : DocumentState := {["gpx-0" := fileTwoTracks]}.

(** ** Sequences of operations *)

(** One [applyGlobal] per callback, one after the other. *)
Definition applyGlobals
    (callbacks : list (DocumentState → option DocumentState))
    (db : Database) : option Database :=
  foldlM (λ d callback, applyGlobal callback d) db callbacks.

(** The databases that transactions, undo and redo lead to from the empty
    one. *)
Inductive reachable : Database → Prop :=
| reachable_empty : reachable emptyDatabase
| reachable_applyGlobal callback db db' :
    reachable db → applyGlobal callback db = Some db' → reachable db'
| reachable_undo db : reachable db → reachable (undo db)
| reachable_redo db : reachable db → reachable (redo db).

(** Two callbacks: a file is put under its id; every file is removed. *)
Definition putFile0 (draft : DocumentState) : option DocumentState :=
  Some (<["gpx-0" := with_id "gpx-0" file0]> draft).
Definition clearFiles (draft : DocumentState) : option DocumentState :=
  Some (∅ : DocumentState).

(** ** The program between two operations

    [tables] are the tables and [cache] is [fileState]; [isFrozen] tells
    whether the library has frozen the cache. *)
Record Program := mkProgram {
  tables : Database;
  cache : DocumentState;
  isFrozen : bool
}.

(** What the subscribers do once the tables have changed (l.177-207 and
    l.293-329): the subscriber of a file writes the row of the file into
    the cache, and [destroy] takes a file that is gone out of it, so that
    the cache holds the [files] table again.  On a frozen cache they raise
    and the cache stays as it is.  The ids are taken to be different from
    the empty string: the handler of the ids takes the empty string for an
    id that is gone, and deletes its observer. *)
Definition subscribers (prog : Program) : Program :=
  if isFrozen prog then prog
  else mkProgram (tables prog) (files (tables prog)) false.

(** A transaction of [applyGlobal] and the subscribers after it.  When the
    callback has changed nothing the library returns the cache itself as
    the new state, and freezes it (the immer library, not under src/); the
    model takes a new state equal to the cache for the cache itself. *)
Definition transaction (callback : DocumentState → option DocumentState)
    (prog : Program) : option Program :=
  match produceWithPatches (cache prog) callback with
  | Some (newFileState, p, inv) =>
      Some (subscribers
              (mkProgram
                 (commitFileStateChange newFileState p
                    (storePatches p inv (tables prog)))
                 (cache prog)
                 (isFrozen prog || bool_decide (newFileState = cache prog))))
  | None => None
  end.

(** One transaction per callback, one after the other. *)
Definition transactions
    (callbacks : list (DocumentState → option DocumentState))
    (prog : Program) : option Program :=
  foldlM (λ prog callback, transaction callback prog) prog callbacks.

(** [applyPatch], the cursor and the subscribers; [applyPatches] returns
    the cache itself, frozen, when the patch changes nothing. *)
Definition patched (index : Z) (ps : list Patch) (prog : Program) : Program :=
  match applyPatches (cache prog) ps with
  | Some newFileState =>
      subscribers
        (mkProgram
           (set_patchIndex index
              (commitFileStateChange newFileState ps (tables prog)))
           (cache prog)
           (isFrozen prog || bool_decide (newFileState = cache prog)))
  | None => prog
  end.

(** [dbUtils.undo] and the subscribers after it. *)
Definition undoProgram (prog : Program) : Program :=
  if canUndo (tables prog) then
    let index := patchIndex (tables prog) in
    match patches (tables prog) !! index with
    | Some entry => patched (index - 1) (inversePatch entry) prog
    | None => prog
    end
  else prog.

(** [dbUtils.redo] and the subscribers after it. *)
Definition redoProgram (prog : Program) : Program :=
  if canRedo (tables prog) then
    let index := patchIndex (tables prog) + 1 in
    match patches (tables prog) !! index with
    | Some entry => patched index (patch entry) prog
    | None => prog
    end
  else prog.

(** The cache is not frozen and holds the [files] table. *)
Definition inStep (prog : Program) : Prop :=
  isFrozen prog = false ∧ cache prog = files (tables prog).

(** Every file is stored under its own [_data.id], and none under the empty
    string. *)
Definition named (st : DocumentState) : Prop :=
  keyed st ∧ st !! "" = None.

(** The program on the empty database. *)
Definition emptyProgram : Program := mkProgram emptyDatabase ∅ false.

(** The program after the two callbacks above, one transaction each. *)
Definition program2 : Program :=
  default emptyProgram (transactions [putFile0; clearFiles] emptyProgram).

(** ** Duplicating the selection *)

(** One call of the callback that [duplicateSelection] hands to the
    traversal.  [index] counts the ids used so far; [getFile] reads the
    files as they were before the transaction, [draft.get] the draft;
    [clone] is a copy of the value, and the element that is cloned is read
    from the draft as the items before have left it. *)
Definition duplicateVisit (original : DocumentState) (ids : list string)
    (st : nat * DocumentState) (v : Visit) : option (nat * DocumentState) :=
  let '(index, draft) := st in
  let fileId := visit_fileId v in
  match visit_level v with
  | FILE =>
      match original !! fileId with
      | Some file =>
          let id := default "undefined" (ids !! index) in
          Some (S index, <[id := with_id id file]> draft)
      | None => Some st
      end
  | level =>
      match draft !! fileId with
      | Some file =>
          file' ←
            match level with
            | TRACK =>
                foldlM (λ f item,
                          t ← getTrackIndex item;
                          track ← trk f !! t;
                          Some (replaceTracks (Z.of_nat t + 1) (Z.of_nat t)
                                  [track] f))
                       file (visit_items v)
            | SEGMENT =>
                foldlM (λ f item,
                          t ← getTrackIndex item;
                          s ← getSegmentIndex item;
                          track ← trk f !! t;
                          segment ← trkseg track !! s;
                          replaceTrackSegments t (Z.of_nat s + 1) (Z.of_nat s)
                            [segment] f)
                       file (visit_items v)
            | WAYPOINTS =>
                Some (replaceWaypoints (Z.of_nat (length (wpt file)))
                        (Z.of_nat (length (wpt file)) - 1) (wpt file) file)
            | WAYPOINT =>
                foldlM (λ f item,
                          w ← getWaypointIndex item;
                          waypoint ← wpt f !! w;
                          Some (replaceWaypoints (Z.of_nat w + 1) (Z.of_nat w)
                                  [waypoint] f))
                       file (visit_items v)
            | _ => Some file
            end;
          Some (index, <[fileId := file']> draft)
      | None => Some st
      end
  end.

Definition duplicateCallback (original : DocumentState) (ids : list string)
    (visits : list Visit) (draft : DocumentState) : option DocumentState :=
  st ← foldlM (duplicateVisit original ids) (O, draft) visits; Some st.2.

(** [dbUtils.duplicateSelection]: the ids are asked for once, as many as
    the file order has entries.  [fileState] is the cache, whose files are
    those [getFile] returns, and [observers] the keys of [fileObservers]. *)
Definition duplicateSelection (fileState : DocumentState)
    (observers : gset string) (fileOrder : list string)
    (selected : list ListItem) (db : Database) : option Database :=
  if decide (length selected = O) then Some db
  else applyGlobalOn fileState
         (duplicateCallback fileState
            (getFileIds observers (length fileOrder))
            (applyToOrderedItemsFromFile fileOrder selected true)) db.

(** The elements of a list, those whose index, counted from [o], satisfies
    [P] twice in a row. *)
Fixpoint duplicateFrom {A} (o : nat) (P : nat → bool) (l : list A) : list A :=
  match l with
  | [] => []
  | x :: l' => (if P o then [x; x] else [x]) ++ duplicateFrom (S o) P l'
  end.

(** The files of the file order that have a selected item: those the
    traversal calls the callback for. *)
Definition visitedFiles (fileOrder : list string) (selected : list ListItem)
    : list string :=
  filter (λ fileId, Some fileId ∈ getFileId <$> selected) fileOrder.

(** A file with three waypoints and the tracks of [file3]. *)
Definition file3w : GPXFile :=
  mkGPXFile "gpx-0" "three tracks" (trk file3)
    [mkWaypoint (mkCoordinates 0 0) "w0"; mkWaypoint (mkCoordinates 1 0) "w1";
     mkWaypoint (mkCoordinates 2 0) "w2"].
Definition state3w : DocumentState := {["gpx-0" := file3w]}.

(** ** Notions used for extract and split *)

(** The number of files that [extractSelection] makes of a selected file:
    one per track, or one per segment when there is one track. *)
Definition extractCount (file : GPXFile) : nat :=
  match trk file with
  | [] => O
  | [track] => length (trkseg track)
  | tracks => length tracks
  end.

(** One more file with two tracks. *)
Definition fileTwoMore : GPXFile :=
  mkGPXFile "gpx-1" "two more" [east; west] [].

(** ** Statistics of the selection (stores.ts) *)

Definition isWaypointItem (item : ListItem) : bool :=
  match item with
  | ListWaypointItem _ _ | ListWaypointsItem _ => true
  | _ => false
  end.

Section selection_statistics.
Context {Stats : Type}.
Context (emptyStatistics : Stats) (mergeWith : Stats → Stats → Stats)
        (segmentStatistics : TrackSegment → Stats).

(** [getStatistics(fileId)] of db.ts: the tree that the observer of the
    file has built from the file it holds, [undefined] without observer. *)
Definition getStatistics (observed : DocumentState) (fileId : string)
    : option (GPXStatisticsTree Stats) :=
  fileStatisticsTree segmentStatistics <$> observed !! fileId.

(** The [items.forEach] of [updateGPXData]: every item is merged, but of
    the items of waypoints only one that comes first. *)
Definition mergeItems (stats : GPXStatisticsTree Stats) (statistics : Stats)
    (items : list ListItem) : Stats :=
  (foldl (λ '(statistics, first) item,
            if negb (isWaypointItem item) || first
            then (mergeWith statistics
                    (getStatisticsFor emptyStatistics mergeWith stats item),
                  false)
            else (statistics, first))
         (statistics, true) items).1.

(** [updateGPXData]: the value it sets [gpxStatistics] to. *)
Definition updateGPXData (observed : DocumentState) (fileOrder : list string)
    (selected : list ListItem) : Stats :=
  foldl (λ statistics v,
           match getStatistics observed (visit_fileId v) with
           | Some stats => mergeItems stats statistics (visit_items v)
           | None => statistics
           end)
        emptyStatistics (applyToOrderedItemsFromFile fileOrder selected false).

(** The statistics of the segments of a track, and of the tracks of a file,
    merged in their order into empty statistics. *)
Definition trackStatistics (track : Track) : Stats :=
  foldl (λ acc segment, mergeWith acc (segmentStatistics segment))
        emptyStatistics (trkseg track).
Definition fileStatistics (file : GPXFile) : Stats :=
  foldl (λ acc track, mergeWith acc (trackStatistics track))
        emptyStatistics (trk file).
End selection_statistics.

(** The number of points of a segment as its statistics, merged by
    addition. *)
Definition countStatistics (observed : DocumentState)
    (fileOrder : list string) (selected : list ListItem) : nat :=
  updateGPXData O Nat.add segmentPoints observed fileOrder selected.

(** ** The observers and the file order *)

(** The subscriber of the live query on the [fileids] table.  [observers]
    are the keys of the [fileObservers] map in the order of the map,
    [order] is the [fileOrder] setting. *)
Section file_observers.
(** [Array.prototype.sort] with the comparator of the source, which
    compares the numbers that [parseInt] reads behind the first ['-'] of
    the ids. *)
Context (sortByNumber : list string → list string).

Definition newFilesOf (dbFileIds observers : list string) : list string :=
  sortByNumber (filter (λ id, id ∉ observers) dbFileIds).

(** [!dbFileIds.find(fileId => fileId === id)]: [find] returns the id it
    has found, and the empty string is falsy. *)
Definition deletedFilesOf (dbFileIds observers : list string) : list string :=
  filter (λ id, id ∉ dbFileIds ∨ id = "") observers.

(** [$files.set(id, ...)] and [$files.delete(id)] on the keys of the map. *)
Definition updateObservers (newFiles deletedFiles observers : list string)
    : list string :=
  foldl (λ keys id, filter (λ key, key ≠ id) keys)
        (foldl (λ keys id, if decide (id ∈ keys) then keys else keys ++ [id])
               observers newFiles)
        deletedFiles.

(** The callback of [settings.fileOrder.update]. *)
Definition updateFileOrder (newFiles deletedFiles order : list string)
    : list string :=
  foldl (λ order fileId,
           match list_find (λ x, x = fileId) order with
           | Some (index, _) => splice order index 1 []
           | None => order
           end)
        (foldl (λ order fileId,
                  if decide (fileId ∈ order) then order else order ++ [fileId])
               order newFiles)
        deletedFiles.

(** The subscriber: the observers and the file order it leaves.  [frozen]
    tells whether [fileState] is frozen, as the library leaves it when it
    returns it from a transaction that has changed nothing: [destroy] of
    the first observer to delete then raises in [fileState.delete] (l.203),
    inside the callback of [fileObservers.update] (l.309).  By then the
    observers of the new files are in the map, which is changed in place;
    no observer is deleted and [settings.fileOrder.update] (l.314) is not
    reached. *)
Definition onFileIds (frozen : bool) (dbFileIds observers order : list string)
    : list string * list string :=
  let newFiles := newFilesOf dbFileIds observers in
  let deletedFiles := deletedFilesOf dbFileIds observers in
  if decide (newFiles ≠ [] ∨ deletedFiles ≠ [])
  then
    if frozen && bool_decide (deletedFiles ≠ [])
    then (updateObservers newFiles [] observers, order)
    else (updateObservers newFiles deletedFiles observers,
          updateFileOrder newFiles deletedFiles order)
  else (observers, order).
End file_observers.

(** ** Layer colours (GPXLayer.ts) *)

Definition colors : list string :=
  ["#ff0000"; "#0000ff"; "#46e646"; "#00ccff"; "#ff9900"; "#ff00ff";
   "#ffff32"; "#288228"; "#9933ff"; "#50f0be"; "#8c645a"].

(** [colorCount], as the loop at the top of the module leaves it. *)
Definition initialColorCount : gmap string Z :=
  list_to_map ((λ color, (color, 0)) <$> colors).

(** [colorCount[a] <= colorCount[b]]: a comparison with [undefined] is
    false. *)
Definition countLe (colorCount : gmap string Z) (a b : string) : bool :=
  match colorCount !! a, colorCount !! b with
  | Some x, Some y => bool_decide (x ≤ y)
  | _, _ => false
  end.

(** [array.reduce((a, b) => (colorCount[a] <= colorCount[b] ? a : b))],
    which raises on an empty array. *)
Definition leastUsed (colorCount : gmap string Z) (array : list string)
    : option string :=
  match array with
  | [] => None
  | first :: rest =>
      Some (foldl (λ a b, if countLe colorCount a b then a else b) first rest)
  end.

(** [getColor]: the colour and the counts after the call.  The colour that
    is counted is one of the table, which always has a count. *)
Definition getColor (colorCount : gmap string Z)
    : option (string * gmap string Z) :=
  color ← leastUsed colorCount colors;
  Some (color, alter Z.succ color colorCount).

Definition decrementColor (color : string) (colorCount : gmap string Z)
    : gmap string Z :=
  if decide (color ∈ dom colorCount) then alter Z.pred color colorCount
  else colorCount.

(** [n] calls of [getColor] in a row: the colours in the order of the
    calls, and the counts after the last. *)
Fixpoint getColors (n : nat) (colorCount : gmap string Z)
    : option (list string * gmap string Z) :=
  match n with
  | O => Some ([], colorCount)
  | S n' =>
      '(color, colorCount') ← getColor colorCount;
      '(rest, colorCount'') ← getColors n' colorCount';
      Some (color :: rest, colorCount'')
  end.

(** The counts when every colour of the table has been handed out [q]
    times and the first [r] colours once more. *)
Definition countsAt (q : Z) (r : nat) (colorCount : gmap string Z) : Prop :=
  ∀ i color, colors !! i = Some color →
    colorCount !! color = Some (if decide (i < r)%nat then q + 1 else q).

(** The elements of a list, those whose index, counted from [o], satisfies
    [P] replaced by the list that [g] makes of them. *)
Fixpoint expandFrom {A} (o : nat) (P : nat → bool) (g : A → list A)
    (l : list A) : list A :=
  match l with
  | [] => []
  | x :: l' => (if P o then g x else [x]) ++ expandFrom (S o) P g l'
  end.





(** A file whose first track has no segment, before [fileB]. *)
Definition fileBare : GPXFile :=
  mkGPXFile "gpx-0" "bare" [mkTrack (Some "bare") []] [].
Definition stateBare : DocumentState := {["gpx-0" := fileBare; "gpx-1" := fileB]}.

(** [file3], with three tracks, before [fileTwoMore], with two. *)
Definition stateThreeTwo : DocumentState :=
  {["gpx-0" := file3; "gpx-1" := fileTwoMore]}.

(** * Properties *)

(** ** The patch pair of a transaction *)

Lemma applyPatches_app st ps qs :
  applyPatches st (ps ++ qs) = applyPatches st ps ≫= λ st', applyPatches st' qs.
Proof.
  revert st. induction ps as [|p ps IH]; intros st; simpl; [done|].
  destruct (applyOne st p); simpl; auto.
Qed.

(** The forward patches of one id set the id to its new content. *)
Lemma applyPatches_patchesFor_fst id new (m : DocumentState) :
  applyPatches m (patchesFor id (m !! id) new).1
  = Some (partial_alter (λ _, new) id m).
Proof.
  unfold patchesFor.
  destruct (m !! id) as [v|] eqn:Hm, new as [v'|]; simpl.
  - destruct (decide (v = v')) as [->|Hne]; simpl.
    + f_equal. apply map_eq. intros k.
      destruct (decide (id = k)) as [<-|Hk].
      * by rewrite lookup_partial_alter_eq.
      * by rewrite lookup_partial_alter_ne.
    + unfold applyOne; simpl. by rewrite Hm.
  - unfold applyOne; simpl. by rewrite Hm.
  - done.
  - f_equal. apply map_eq. intros k.
    destruct (decide (id = k)) as [<-|Hk].
    + by rewrite lookup_partial_alter_eq.
    + by rewrite lookup_partial_alter_ne.
Qed.

(** The inverse patches of one id set the id back to its old content. *)
Lemma applyPatches_patchesFor_snd id old (m : DocumentState) :
  applyPatches m (patchesFor id old (m !! id)).2
  = Some (partial_alter (λ _, old) id m).
Proof.
  unfold patchesFor.
  destruct (m !! id) as [v|] eqn:Hm, old as [v'|]; simpl.
  - destruct (decide (v' = v)) as [->|Hne]; simpl.
    + f_equal. apply map_eq. intros k.
      destruct (decide (id = k)) as [<-|Hk].
      * by rewrite lookup_partial_alter_eq.
      * by rewrite lookup_partial_alter_ne.
    + unfold applyOne; simpl. by rewrite Hm.
  - unfold applyOne; simpl. by rewrite Hm.
  - done.
  - f_equal. apply map_eq. intros k.
    destruct (decide (id = k)) as [<-|Hk].
    + by rewrite lookup_partial_alter_eq.
    + by rewrite lookup_partial_alter_ne.
Qed.

Lemma applyPatches_diffKeys_fst (before after : DocumentState) ks :
  NoDup ks → ∀ m : DocumentState,
  (∀ k, k ∈ ks → m !! k = before !! k) →
  ∃ m' : DocumentState,
    applyPatches m (diffKeys before after ks).1 = Some m'
    ∧ (∀ k, k ∈ ks → m' !! k = after !! k)
    ∧ (∀ k, k ∉ ks → m' !! k = m !! k).
Proof.
  induction 1 as [|k ks Hk Hnd IH]; intros m Hm; simpl.
  - exists m. split_and!; [done| |done]. intros k Hk. by apply elem_of_nil in Hk.
  - rewrite applyPatches_app.
    rewrite <- (Hm k) by left.
    rewrite applyPatches_patchesFor_fst. simpl.
    destruct (IH (partial_alter (λ _, after !! k) k m)) as (m' & Happ & Hin & Hout).
    { intros j Hj. rewrite lookup_partial_alter_ne by (intros ->; done).
      apply Hm. by right. }
    exists m'. split_and!; [done| |].
    + intros j Hj. destruct (decide (j ∈ ks)) as [Hjk|Hjk]; [by apply Hin|].
      apply elem_of_cons in Hj as [->|Hj]; [|done].
      rewrite Hout by done. by rewrite lookup_partial_alter_eq.
    + intros j Hj. apply not_elem_of_cons in Hj as [Hne Hj].
      rewrite Hout by done. by rewrite lookup_partial_alter_ne.
Qed.

Lemma applyPatches_diffKeys_snd (before after : DocumentState) ks :
  NoDup ks → ∀ m : DocumentState,
  (∀ k, k ∈ ks → m !! k = after !! k) →
  ∃ m' : DocumentState,
    applyPatches m (diffKeys before after ks).2 = Some m'
    ∧ (∀ k, k ∈ ks → m' !! k = before !! k)
    ∧ (∀ k, k ∉ ks → m' !! k = m !! k).
Proof.
  induction 1 as [|k ks Hk Hnd IH]; intros m Hm; simpl.
  - exists m. split_and!; [done| |done]. intros k Hk. by apply elem_of_nil in Hk.
  - rewrite applyPatches_app.
    rewrite <- (Hm k) by left.
    rewrite applyPatches_patchesFor_snd. simpl.
    destruct (IH (partial_alter (λ _, before !! k) k m)) as (m' & Happ & Hin & Hout).
    { intros j Hj. rewrite lookup_partial_alter_ne by (intros ->; done).
      apply Hm. by right. }
    exists m'. split_and!; [done| |].
    + intros j Hj. destruct (decide (j ∈ ks)) as [Hjk|Hjk]; [by apply Hin|].
      apply elem_of_cons in Hj as [->|Hj]; [|done].
      rewrite Hout by done. by rewrite lookup_partial_alter_eq.
    + intros j Hj. apply not_elem_of_cons in Hj as [Hne Hj].
      rewrite Hout by done. by rewrite lookup_partial_alter_ne.
Qed.

Lemma not_in_diff_keys (before after : DocumentState) k :
  k ∉ elements (dom before ∪ dom after) →
  before !! k = None ∧ after !! k = None.
Proof.
  rewrite elem_of_elements, not_elem_of_union, !not_elem_of_dom. done.
Qed.

(** The forward patch leads from the old state to the new one. *)
Lemma applyPatches_diff_forward (before after : DocumentState) :
  applyPatches before (diff before after).1 = Some after.
Proof.
  destruct (applyPatches_diffKeys_fst before after
              (elements (dom before ∪ dom after)) (NoDup_elements _) before)
    as (m' & Happ & Hin & Hout); [done|].
  unfold diff. rewrite Happ. f_equal. apply map_eq. intros k.
  destruct (decide (k ∈ elements (dom before ∪ dom after))) as [Hk|Hk].
  - by apply Hin.
  - rewrite Hout by done. apply not_in_diff_keys in Hk as [-> ->]. done.
Qed.

(** The inverse patch leads from the new state back to the old one. *)
Lemma applyPatches_diff_inverse (before after : DocumentState) :
  applyPatches after (diff before after).2 = Some before.
Proof.
  destruct (applyPatches_diffKeys_snd before after
              (elements (dom before ∪ dom after)) (NoDup_elements _) after)
    as (m' & Happ & Hin & Hout); [done|].
  unfold diff. rewrite Happ. f_equal. apply map_eq. intros k.
  destruct (decide (k ∈ elements (dom before ∪ dom after))) as [Hk|Hk].
  - by apply Hin.
  - rewrite Hout by done. apply not_in_diff_keys in Hk as [-> ->]. done.
Qed.

Lemma patchIndex_storePatches p inv db :
  patchIndex (storePatches p inv db) = patchIndex db + 1.
Proof. done. Qed.

Lemma storePatches_entry p inv db :
  patches (storePatches p inv db) !! (patchIndex db + 1)
  = Some (mkPatchEntry p inv (patchIndex db + 1)).
Proof. unfold storePatches; simpl. by rewrite lookup_insert_eq. Qed.

Lemma files_storePatches p inv db : files (storePatches p inv db) = files db.
Proof. done. Qed.

Lemma patches_commitFileStateChange new ps db :
  patches (commitFileStateChange new ps db) = patches db.
Proof. done. Qed.

Lemma patchIndex_commitFileStateChange new ps db :
  patchIndex (commitFileStateChange new ps db) = patchIndex db.
Proof. done. Qed.

(** What a successful [applyGlobal] does, step by step. *)
Lemma applyGlobal_Some callback db db' :
  applyGlobal callback db = Some db' →
  ∃ new, callback (files db) = Some new
    ∧ db' = commitFileStateChange new (diff (files db) new).1
              (storePatches (diff (files db) new).1 (diff (files db) new).2 db).
Proof.
  unfold applyGlobal, produceWithPatches. intros H.
  destruct (callback (files db)) as [new|]; [|done].
  exists new. split; [done|]. by injection H as <-.
Qed.

Lemma applyGlobal_stored_pair callback db db' :
  applyGlobal callback db = Some db' →
  ∃ S' entry,
    callback (files db) = Some S'
    ∧ patches db' !! patchIndex db' = Some entry
    ∧ applyPatches (files db) (patch entry) = Some S'
    ∧ applyPatches S' (inversePatch entry) = Some (files db).
Proof.
  intros (new & Hcb & ->)%applyGlobal_Some.
  eexists new, _. split; [done|].
  rewrite patches_commitFileStateChange, patchIndex_commitFileStateChange,
    patchIndex_storePatches.
  split; [apply storePatches_entry|]. simpl.
  by rewrite applyPatches_diff_forward, applyPatches_diff_inverse.
Qed.

(** ** The key range of the patch log *)

Lemma foldr_min_le d (l : list Z) x : x ∈ l → foldr Z.min d l ≤ x.
Proof.
  induction l as [|y l IH]; simpl; [by intros ?%elem_of_nil|].
  intros [->|Hx]%elem_of_cons; [lia|]. specialize (IH Hx). lia.
Qed.

Lemma foldr_min_elem d (l : list Z) : foldr Z.min d l = d ∨ foldr Z.min d l ∈ l.
Proof.
  induction l as [|y l IH]; simpl; [by left|].
  destruct (Z.min_spec y (foldr Z.min d l)) as [[_ ->]|[_ ->]].
  - right. left.
  - destruct IH as [->|IH]; [by left|right; by right].
Qed.

Lemma foldr_max_ge d (l : list Z) x : x ∈ l → x ≤ foldr Z.max d l.
Proof.
  induction l as [|y l IH]; simpl; [by intros ?%elem_of_nil|].
  intros [->|Hx]%elem_of_cons; [lia|]. specialize (IH Hx). lia.
Qed.

Lemma foldr_max_elem d (l : list Z) : foldr Z.max d l = d ∨ foldr Z.max d l ∈ l.
Proof.
  induction l as [|y l IH]; simpl; [by left|].
  destruct (Z.max_spec y (foldr Z.max d l)) as [[_ ->]|[_ ->]].
  - destruct IH as [->|IH]; [by left|right; by right].
  - right. left.
Qed.

Lemma minKey_elem (l : list Z) : l ≠ [] → minKey l ∈ l.
Proof.
  destruct l as [|x l]; [done|]. intros _.
  change (foldr Z.min x (x :: l) ∈ x :: l).
  destruct (foldr_min_elem x (x :: l)) as [->|H]; [left|done].
Qed.

Lemma maxKey_elem (l : list Z) : l ≠ [] → maxKey l ∈ l.
Proof.
  destruct l as [|x l]; [done|]. intros _.
  change (foldr Z.max x (x :: l) ∈ x :: l).
  destruct (foldr_max_elem x (x :: l)) as [->|H]; [left|done].
Qed.

(** Every key of the log lies in the range [[min, max)]. *)
Lemma patchMinMaxIndex_bounds db k :
  k ∈ dom (patches db) →
  min (patchMinMaxIndex db) ≤ k < max (patchMinMaxIndex db).
Proof.
  intros Hk. apply elem_of_elements in Hk. unfold patchMinMaxIndex.
  destruct (elements (dom (patches db))) as [|x l] eqn:He;
    [by apply elem_of_nil in Hk|]. simpl.
  pose proof (foldr_min_le x (x :: l) k Hk).
  pose proof (foldr_max_ge x (x :: l) k Hk).
  unfold minKey, maxKey. simpl in *. lia.
Qed.

(** The bounds of a log that is not empty are keys: [min] is the first key
    and [max - 1] the last one. *)
Lemma patchMinMaxIndex_keys db :
  patches db ≠ ∅ →
  min (patchMinMaxIndex db) ∈ dom (patches db)
  ∧ max (patchMinMaxIndex db) - 1 ∈ dom (patches db).
Proof.
  intros Hne. unfold patchMinMaxIndex.
  destruct (elements (dom (patches db))) as [|x l] eqn:He.
  - apply elements_empty_inv in He. apply leibniz_equiv in He.
    apply dom_empty_inv_L in He. done.
  - simpl. rewrite <- !elem_of_elements, He.
    replace (maxKey (x :: l) + 1 - 1) with (maxKey (x :: l)) by lia.
    split; [by apply minKey_elem|by apply maxKey_elem].
Qed.

Lemma patchMinMaxIndex_empty db :
  patches db = ∅ → patchMinMaxIndex db = mkMinMax 0 0.
Proof.
  intros He. unfold patchMinMaxIndex. rewrite He, dom_empty_L, elements_empty.
  done.
Qed.

(** A set of integers inside an interval of [n] values has at most [n]
    elements. *)
Lemma size_interval (X : gset Z) (a n : Z) :
  (∀ k, k ∈ X → a ≤ k < a + n) → (size X ≤ Z.to_nat n)%nat.
Proof.
  intros HX.
  assert (X ⊆ list_to_set (seqZ a n)) as Hsub.
  { intros k Hk. apply elem_of_list_to_set, elem_of_seqZ. by apply HX. }
  apply subseteq_size in Hsub.
  rewrite size_list_to_set in Hsub by apply NoDup_seqZ.
  by rewrite length_seqZ in Hsub.
Qed.

(** ** Commit of a patch pair: [storePatches] *)

Lemma lookup_storePatches p inv db k e :
  patches (storePatches p inv db) !! k = Some e ↔
    (k = patchIndex db + 1 ∧ e = mkPatchEntry p inv (patchIndex db + 1))
    ∨ (k ≤ patchIndex db ∧ patches db !! k = Some e
       ∧ (max (patchMinMaxIndex db) - min (patchMinMaxIndex db) + 1 > MAX_PATCHES
          → max (patchMinMaxIndex db) - MAX_PATCHES < k)).
Proof.
  unfold storePatches. cbn [patches set_patchIndex set_patches].
  destruct (decide (k = patchIndex db + 1)) as [->|Hk].
  - rewrite lookup_insert_eq. split.
    + intros [= <-]. by left.
    + intros [[_ ->]|[? _]]; [done|lia].
  - rewrite lookup_insert_ne by done.
    case_decide as Hprune.
    + rewrite !map_lookup_filter_Some. simpl. intuition lia.
    + rewrite map_lookup_filter_Some. simpl. intuition lia.
Qed.

Lemma dom_storePatches p inv db k :
  k ∈ dom (patches (storePatches p inv db)) →
  k = patchIndex db + 1 ∨ (k ≤ patchIndex db ∧ k ∈ dom (patches db)
    ∧ (max (patchMinMaxIndex db) - min (patchMinMaxIndex db) + 1 > MAX_PATCHES
       → max (patchMinMaxIndex db) - MAX_PATCHES < k)).
Proof.
  intros [e He]%elem_of_dom. apply lookup_storePatches in He.
  destruct He as [[-> _]|(? & He & ?)]; [by left|right].
  split_and!; [done| |done]. apply elem_of_dom. eauto.
Qed.

(** The old entries that a commit keeps: never more than [MAX_PATCHES - 1]. *)
Lemma storePatches_kept_size p inv db :
  (size (dom (delete (patchIndex db + 1)%Z (patches (storePatches p inv db))))
   ≤ Z.to_nat (MAX_PATCHES - 1))%nat.
Proof.
  set (mm := patchMinMaxIndex db).
  destruct (decide (max mm - min mm + 1 > MAX_PATCHES)) as [Hprune|Hkeep].
  - apply (size_interval _ (max mm - MAX_PATCHES + 1)).
    intros k Hk. rewrite dom_delete_L in Hk.
    apply elem_of_difference in Hk as [Hk Hne].
    rewrite elem_of_singleton in Hne.
    apply dom_storePatches in Hk as [?|(? & Hd & Hp)]; [done|].
    apply patchMinMaxIndex_bounds in Hd. specialize (Hp Hprune).
    fold mm in Hd, Hp. unfold MAX_PATCHES in *. lia.
  - assert (size (dom (delete (patchIndex db + 1)%Z
                         (patches (storePatches p inv db))))
            ≤ Z.to_nat (max mm - min mm))%nat as Hle.
    { apply (size_interval _ (min mm)).
      intros k Hk. rewrite dom_delete_L in Hk.
      apply elem_of_difference in Hk as [Hk Hne].
      rewrite elem_of_singleton in Hne.
      apply dom_storePatches in Hk as [?|(? & Hd & Hp)]; [done|].
      apply patchMinMaxIndex_bounds in Hd. fold mm in Hd. lia. }
    unfold MAX_PATCHES in *. lia.
Qed.

Lemma storePatches_size p inv db :
  (size (patches (storePatches p inv db)) ≤ Z.to_nat MAX_PATCHES)%nat.
Proof.
  pose proof (storePatches_kept_size p inv db) as Hk.
  rewrite size_dom, map_size_delete in Hk.
  pose proof (storePatches_entry p inv db) as He.
  rewrite He in Hk. unfold MAX_PATCHES in *.
  destruct (size (patches (storePatches p inv db))); simpl in *; lia.
Qed.

(** The invariant of the log is kept by a commit, which leaves the cursor
    on the last entry. *)
Lemma storePatches_log_wf p inv db :
  log_wf db → log_wf (storePatches p inv db).
Proof.
  intros [Hdom Hcur].
  set (db' := storePatches p inv db).
  assert (patches db' ≠ ∅) as Hne.
  { intros He. pose proof (storePatches_entry p inv db) as Hl.
    fold db' in Hl. rewrite He in Hl. by rewrite lookup_empty in Hl. }
  destruct (patchMinMaxIndex_keys db' Hne) as [Hmin Hmax].
  assert (patchIndex db + 1 ∈ dom (patches db')) as Hnew.
  { apply elem_of_dom. unfold db'. rewrite storePatches_entry. eauto. }
  pose proof (patchMinMaxIndex_bounds db' _ Hnew) as Hb.
  assert (max (patchMinMaxIndex db') - 1 = patchIndex db + 1) as Hmax'.
  { apply dom_storePatches in Hmax as [?|(? & _)]; lia. }
  split.
  - intros k. split; [apply patchMinMaxIndex_bounds|]. intros Hk.
    destruct (decide (k = patchIndex db + 1)) as [->|Hkc]; [done|].
    apply dom_storePatches in Hmin as [Hm|(Hm1 & Hm2 & Hm3)]; [lia|].
    apply Hdom in Hm2.
    assert (k ∈ dom (patches db)) as [e He]%elem_of_dom by (apply Hdom; lia).
    apply elem_of_dom. exists e. apply lookup_storePatches. right.
    split_and!; [lia|done|]. intros Hp. specialize (Hm3 Hp). lia.
  - change (patchIndex db') with (patchIndex db + 1). lia.
Qed.

Lemma emptyDatabase_log_wf : log_wf emptyDatabase.
Proof.
  split.
  - intros k. rewrite (patchMinMaxIndex_empty emptyDatabase) by done.
    simpl. rewrite dom_empty_L. split; [by intros ?%elem_of_empty|lia].
  - rewrite (patchMinMaxIndex_empty emptyDatabase) by done. simpl.
    unfold patchIndex; simpl. lia.
Qed.

(** With the invariant, a cursor that can be undone points at an entry, and
    one that can be redone has an entry right after it. *)
Lemma canUndo_entry db :
  log_wf db → canUndo db = true → is_Some (patches db !! patchIndex db).
Proof.
  intros [Hdom Hcur] Hcan. apply bool_decide_eq_true in Hcan.
  apply elem_of_dom, Hdom. lia.
Qed.

Lemma canRedo_entry db :
  log_wf db → canRedo db = true → is_Some (patches db !! (patchIndex db + 1)).
Proof.
  intros [Hdom Hcur] Hcan. apply bool_decide_eq_true in Hcan.
  apply elem_of_dom, Hdom. lia.
Qed.

(** ** Undo and redo *)

Lemma undo_no_op db : canUndo db = false → undo db = db.
Proof. unfold undo. by intros ->. Qed.

Lemma redo_no_op db : canRedo db = false → redo db = db.
Proof. unfold redo. by intros ->. Qed.

Lemma undo_step db entry S' :
  canUndo db = true →
  patches db !! patchIndex db = Some entry →
  applyPatches (files db) (inversePatch entry) = Some S' →
  undo db = set_patchIndex (patchIndex db - 1)
              (commitFileStateChange S' (inversePatch entry) db).
Proof.
  intros Hcan He Happ. unfold undo, applyPatch. by rewrite Hcan, He, Happ.
Qed.

Lemma redo_step db entry S' :
  canRedo db = true →
  patches db !! (patchIndex db + 1) = Some entry →
  applyPatches (files db) (patch entry) = Some S' →
  redo db = set_patchIndex (patchIndex db + 1)
              (commitFileStateChange S' (patch entry) db).
Proof.
  intros Hcan He Happ. unfold redo, applyPatch. by rewrite Hcan, He, Happ.
Qed.

(** Neither of them ever writes the log. *)
Lemma patches_undo db : patches (undo db) = patches db.
Proof.
  unfold undo, applyPatch. destruct (canUndo db); [|done].
  destruct (patches db !! patchIndex db); [|done].
  by destruct (applyPatches (files db) _).
Qed.

Lemma patches_redo db : patches (redo db) = patches db.
Proof.
  unfold redo, applyPatch. destruct (canRedo db); [|done].
  destruct (patches db !! (patchIndex db + 1)); [|done].
  by destruct (applyPatches (files db) _).
Qed.

(** ** What [commitFileStateChange] writes *)

Lemma lookup_foldl_delete (ids : list string) (m : DocumentState) k :
  foldl (λ m id, delete id m) m ids !! k
  = if decide (k ∈ ids) then None else m !! k.
Proof.
  revert m. induction ids as [|id ids IH]; intros m.
  - simpl. destruct (decide (k ∈ [])) as [H|H]; [by apply elem_of_nil in H|done].
  - simpl. rewrite IH.
    destruct (decide (k ∈ ids)) as [Hin|Hout];
      destruct (decide (k ∈ id :: ids)) as [Hin'|Hout']; try done.
    + exfalso. apply Hout'. by right.
    + apply elem_of_cons in Hin' as [->|?]; [apply lookup_delete_eq|done].
    + apply lookup_delete_ne. intros ->. apply Hout'. left.
Qed.

Lemma lookup_foldl_put_other (fs : list GPXFile) (m : DocumentState) k :
  (∀ f, f ∈ fs → file_id f ≠ k) →
  foldl (λ m f, <[file_id f := f]> m) m fs !! k = m !! k.
Proof.
  revert m. induction fs as [|f fs IH]; intros m Hfs; simpl; [done|].
  rewrite IH by (intros; apply Hfs; by right).
  apply lookup_insert_ne, Hfs. left.
Qed.

Lemma lookup_foldl_put_same (fs : list GPXFile) (m : DocumentState) k f0 :
  f0 ∈ fs → (∀ f, f ∈ fs → file_id f = k → f = f0) → file_id f0 = k →
  foldl (λ m f, <[file_id f := f]> m) m fs !! k = Some f0.
Proof.
  revert m. induction fs as [|f fs IH]; intros m Hin Hfs Hk; simpl.
  - by apply elem_of_nil in Hin.
  - destruct (decide (f0 ∈ fs)) as [Hin'|Hout].
    + apply IH; [done| |done]. intros; apply Hfs; [by right|done].
    + apply elem_of_cons in Hin as [->|?]; [|done].
      rewrite lookup_foldl_put_other; [by rewrite Hk, lookup_insert_eq|].
      intros g Hg Hgk. apply Hout.
      assert (g = f) as <- by (apply Hfs; [by right|done]). done.
Qed.

(** When the files are stored under their own ids and the patches name
    every id on which the table and the new state differ, the table holds
    the new state after the commit. *)
Lemma commitFileStateChange_files new ps db :
  keyed new →
  (∀ k, k ∉ getChangedFileIds ps → files db !! k = new !! k) →
  files (commitFileStateChange new ps db) = new.
Proof.
  intros Hkeyed Hrest. unfold commitFileStateChange. simpl.
  apply map_eq. intros k. rewrite lookup_foldl_delete.
  destruct (decide (k ∈ filter _ _)) as [Hdel|Hdel].
  - apply list_elem_of_filter in Hdel as [Hnone _]. done.
  - destruct (decide (k ∈ getChangedFileIds ps)) as [Hch|Hch].
    + destruct (new !! k) as [f|] eqn:Hnew.
      * apply lookup_foldl_put_same.
        -- apply list_elem_of_omap. eauto.
        -- intros g (k' & _ & Hg)%list_elem_of_omap Hgk.
           apply Hkeyed in Hg as Hid. rewrite Hgk in Hid. subst k'.
           congruence.
        -- by apply Hkeyed in Hnew.
      * exfalso. apply Hdel. by apply list_elem_of_filter.
    + rewrite lookup_foldl_put_other; [by apply Hrest|].
      intros g (k' & Hk' & Hg)%list_elem_of_omap <-.
      apply Hkeyed in Hg. by subst k'.
Qed.

Lemma applyOne_other st p st' k :
  applyOne st p = Some st' → head (path p) ≠ Some k → st' !! k = st !! k.
Proof.
  unfold applyOne. destruct p as [o [|id [|]] v]; simpl; try done.
  intros H Hne. assert (id ≠ k) by congruence.
  destruct o, v; simplify_eq; try destruct (st !! id); simplify_eq;
    by rewrite ?lookup_insert_ne, ?lookup_delete_ne by done.
Qed.

Lemma applyPatches_other st ps st' k :
  applyPatches st ps = Some st' → k ∉ getChangedFileIds ps →
  st' !! k = st !! k.
Proof.
  unfold getChangedFileIds. rewrite elem_of_remove_dups.
  revert st. induction ps as [|p ps IH]; intros st; simpl.
  - by intros [= ->].
  - destruct (applyOne st p) as [st1|] eqn:H1; [|done]. intros Happ Hk.
    rewrite (IH st1 Happ).
    + apply (applyOne_other _ _ _ _ H1). intros Hh. apply Hk.
      rewrite Hh. left.
    + intros Hin. apply Hk. destruct (head (path p)); [by right|done].
Qed.

(** After [applyPatch] the table holds the patched state. *)
Lemma applyPatch_files ps db S' :
  keyed S' → applyPatches (files db) ps = Some S' →
  files (commitFileStateChange S' ps db) = S'.
Proof.
  intros Hk Happ. apply commitFileStateChange_files; [done|].
  intros k Hch. symmetry. by apply (applyPatches_other _ _ _ _ Happ).
Qed.

(** After a transaction the table holds the state the callback produced. *)
Lemma applyGlobal_files callback db db' S' :
  applyGlobal callback db = Some db' → callback (files db) = Some S' →
  keyed S' → files db' = S'.
Proof.
  intros (new & Hcb & ->)%applyGlobal_Some Hcb' Hkeyed.
  rewrite Hcb in Hcb'. injection Hcb' as ->.
  apply commitFileStateChange_files; [done|].
  intros k Hk. rewrite files_storePatches. symmetry.
  apply (applyPatches_other _ _ _ _ (applyPatches_diff_forward (files db) S') Hk).
Qed.

(** The cursor can be undone right after a commit. *)
Lemma canUndo_storePatches p inv db : canUndo (storePatches p inv db) = true.
Proof.
  apply bool_decide_eq_true. rewrite patchIndex_storePatches.
  assert (patchIndex db + 1 ∈ dom (patches (storePatches p inv db))) as Hin.
  { apply elem_of_dom. rewrite storePatches_entry. eauto. }
  apply patchMinMaxIndex_bounds in Hin. lia.
Qed.

(** Undo after a transaction gives back the files and the cursor of before;
    redo after that gives the files and the cursor of after. *)
Lemma undo_applyGlobal callback db db' :
  applyGlobal callback db = Some db' → keyed (files db) → keyed (files db') →
  (∀ S', callback (files db) = Some S' → keyed S') →
  files (undo db') = files db
  ∧ patchIndex (undo db') = patchIndex db
  ∧ patches (undo db') = patches db'
  ∧ redo (undo db') = db'.
Proof.
  intros Hcommit Hkeyed Hkeyed' Hcb.
  destruct (applyGlobal_stored_pair _ _ _ Hcommit)
    as (S' & entry & HS' & He & Hf & Hi).
  pose proof (applyGlobal_files _ _ _ _ Hcommit HS' (Hcb _ HS')) as Hfiles.
  apply applyGlobal_Some in Hcommit as (new & Hnew & Hdb').
  assert (patchIndex db' = patchIndex db + 1) as Hcur by (by subst db').
  assert (canUndo db' = true) as Hcan.
  { subst db'. apply (canUndo_storePatches _ _ db). }
  rewrite <- Hfiles in Hi.
  rewrite (undo_step db' entry (files db) Hcan He Hi).
  assert (files (set_patchIndex (patchIndex db' - 1)
                   (commitFileStateChange (files db) (inversePatch entry) db'))
          = files db) as Hback by (by apply applyPatch_files).
  split_and!; [done|change (patchIndex db' - 1 = patchIndex db); lia|done|].
  set (u := set_patchIndex _ _) in *.
  assert (patchIndex u + 1 = patchIndex db') as Hu
    by (change (patchIndex db' - 1 + 1 = patchIndex db'); lia).
  assert (canRedo u = true) as Hcan'.
  { apply bool_decide_eq_true.
    assert (patchIndex db' ∈ dom (patches u)) as Hin
      by (apply elem_of_dom; simpl; eauto).
    apply patchMinMaxIndex_bounds in Hin. lia. }
  assert (patches u !! (patchIndex u + 1) = Some entry) as He'
    by (by rewrite Hu).
  assert (applyPatches (files u) (patch entry) = Some (files db')) as Hf'
    by (by rewrite Hback, Hfiles).
  rewrite (redo_step u entry (files db') Hcan' He' Hf').
  assert (files (commitFileStateChange (files db') (patch entry) u) = files db')
    as Hforth by (by apply applyPatch_files).
  rewrite Hu. unfold set_patchIndex. rewrite Hforth.
  assert (patchIndexSetting db' = Some (patchIndex db')) as Hset
    by (rewrite Hdb'; reflexivity).
  change (patches (commitFileStateChange (files db') (patch entry) u))
    with (patches db').
  rewrite <- Hset. by destruct db'.
Qed.

(** ** The patch pair of a committed transaction *)

(** C1.  A transaction committed by [applyGlobal] stores, at the new
    position of the cursor, a pair [(patch, inversePatch)] such that the
    patch applied to the state [S] the transaction started from gives the
    new state [S'], the inverse patch applied to [S'] gives [S] back, and
    the inverse patch followed by the patch leads from [S'] to [S'] again;
    the states are compared as values.  When the files of [S'] are stored
    under their own ids, [S'] is what the table holds after the commit.  [applyToFiles] and
    [applyEachToFilesAndGlobal] are [applyGlobal] on a callback of their
    own (see [applyToFiles_roundtrip], [applyEachToFilesAndGlobal_roundtrip]). *)
Theorem applyGlobal_patch_roundtrip callback db db' :
  applyGlobal callback db = Some db' →
  ∃ S' entry,
    callback (files db) = Some S'
    ∧ patches db' !! patchIndex db' = Some entry
    ∧ applyPatches (files db) (patch entry) = Some S'
    ∧ applyPatches S' (inversePatch entry) = Some (files db)
    ∧ (applyPatches S' (inversePatch entry)
         ≫= λ S, applyPatches S (patch entry)) = Some S'
    ∧ (keyed S' → files db' = S').
Proof.
  intros Hcommit.
  destruct (applyGlobal_stored_pair _ _ _ Hcommit)
    as (S' & entry & Hcb & He & Hf & Hi).
  exists S', entry. split_and!; try done.
  - rewrite Hi. simpl. done.
  - by apply (applyGlobal_files callback db).
Qed.

Lemma applyGlobal_patch_roundtrip_witness :
  ∃ db' S' entry,
    add None file0 emptyDatabase = Some db'
    ∧ patches db' !! patchIndex db' = Some entry
    ∧ applyPatches (files emptyDatabase) (patch entry) = Some S'
    ∧ applyPatches S' (inversePatch entry) = Some (files emptyDatabase).
Proof.
  destruct (add None file0 emptyDatabase) as [db'|] eqn:Hadd;
    [|by vm_compute in Hadd].
  destruct (applyGlobal_patch_roundtrip _ _ _ Hadd)
    as (S' & entry & _ & He & Hf & Hi & _ & _).
  exists db', S', entry. done.
Defined.

Lemma applyToFiles_roundtrip fileIds callback db db' :
  applyToFiles fileIds callback db = Some db' →
  ∃ S' entry,
    patches db' !! patchIndex db' = Some entry
    ∧ applyPatches (files db) (patch entry) = Some S'
    ∧ applyPatches S' (inversePatch entry) = Some (files db).
Proof.
  intros (S' & e & _ & ? & ? & ?)%applyGlobal_stored_pair. eauto.
Qed.

Lemma applyEachToFilesAndGlobal_roundtrip fileIds callbacks globalCallback db db' :
  applyEachToFilesAndGlobal fileIds callbacks globalCallback db = Some db' →
  ∃ S' entry,
    patches db' !! patchIndex db' = Some entry
    ∧ applyPatches (files db) (patch entry) = Some S'
    ∧ applyPatches S' (inversePatch entry) = Some (files db).
Proof.
  intros (S' & e & _ & ? & ? & ?)%applyGlobal_stored_pair. eauto.
Qed.

(** C2.  [canUndo] is [cursor >= min] and [canRedo] is [cursor < max - 1],
    for the key range [[min, max)] of the log.  [undo] does nothing when
    [canUndo] is false; otherwise it applies the inverse patch of the entry
    at the cursor to the state, commits the result and moves the cursor down
    by one, without writing the log.  [redo] does nothing when [canRedo] is
    false; otherwise it applies the patch of the entry at [cursor + 1] and
    moves the cursor up by one.  Under the invariant of the log the entry is
    there whenever the flag is true. *)
Theorem undo_redo_cursor db :
  canUndo db = bool_decide (min (patchMinMaxIndex db) ≤ patchIndex db)
  ∧ canRedo db = bool_decide (patchIndex db < max (patchMinMaxIndex db) - 1)
  ∧ (∀ k, k ∈ dom (patches db) →
       min (patchMinMaxIndex db) ≤ k < max (patchMinMaxIndex db))
  ∧ (canUndo db = false → undo db = db)
  ∧ (canRedo db = false → redo db = db)
  ∧ (log_wf db → canUndo db = true → is_Some (patches db !! patchIndex db))
  ∧ (log_wf db → canRedo db = true →
       is_Some (patches db !! (patchIndex db + 1)))
  ∧ (canUndo db = true → ∀ entry S',
       patches db !! patchIndex db = Some entry →
       applyPatches (files db) (inversePatch entry) = Some S' →
       undo db = set_patchIndex (patchIndex db - 1)
                   (commitFileStateChange S' (inversePatch entry) db)
       ∧ patches (undo db) = patches db
       ∧ patchIndex (undo db) = patchIndex db - 1
       ∧ (keyed S' → files (undo db) = S'))
  ∧ (canRedo db = true → ∀ entry S',
       patches db !! (patchIndex db + 1) = Some entry →
       applyPatches (files db) (patch entry) = Some S' →
       redo db = set_patchIndex (patchIndex db + 1)
                   (commitFileStateChange S' (patch entry) db)
       ∧ patches (redo db) = patches db
       ∧ patchIndex (redo db) = patchIndex db + 1
       ∧ (keyed S' → files (redo db) = S')).
Proof.
  split_and!; try done.
  - apply patchMinMaxIndex_bounds.
  - apply undo_no_op.
  - apply redo_no_op.
  - apply canUndo_entry.
  - apply canRedo_entry.
  - intros Hcan entry S' He Happ.
    rewrite (undo_step db entry S' Hcan He Happ).
    split_and!; try done. intros Hk. by apply applyPatch_files.
  - intros Hcan entry S' He Happ.
    rewrite (redo_step db entry S' Hcan He Happ).
    split_and!; try done. intros Hk. by apply applyPatch_files.
Qed.

Lemma undo_redo_cursor_witness :
  canUndo db1 = true
  ∧ patches db1 !! patchIndex db1 = Some entry1
  ∧ applyPatches (files db1) (inversePatch entry1) = Some ∅
  ∧ undo db1 = set_patchIndex (patchIndex db1 - 1)
                 (commitFileStateChange ∅ (inversePatch entry1) db1)
  ∧ patches (undo db1) = patches db1
  ∧ patchIndex (undo db1) = patchIndex db1 - 1
  ∧ canRedo (undo db1) = true
  ∧ patchIndex (redo (undo db1)) = patchIndex (undo db1) + 1
  ∧ files (redo (undo db1)) = files db1.
Proof.
  assert (canUndo db1 = true) as Hcan by (vm_compute; reflexivity).
  assert (patches db1 !! patchIndex db1 = Some entry1) as He
    by (vm_compute; reflexivity).
  assert (applyPatches (files db1) (inversePatch entry1) = Some ∅) as Happ
    by (vm_compute; reflexivity).
  pose proof (undo_redo_cursor db1) as H.
  destruct H as (_ & _ & _ & _ & _ & _ & _ & Hundo & _).
  destruct (Hundo Hcan entry1 ∅ He Happ) as (Heq & Hp & Hi & _).
  assert (canRedo (undo db1) = true) as Hcan' by (vm_compute; reflexivity).
  assert (patches (undo db1) !! (patchIndex (undo db1) + 1) = Some entry1)
    as He' by (vm_compute; reflexivity).
  assert (applyPatches (files (undo db1)) (patch entry1) = Some (files db1))
    as Happ' by (vm_compute; reflexivity).
  pose proof (undo_redo_cursor (undo db1)) as H'.
  destruct H' as (_ & _ & _ & _ & _ & _ & _ & _ & Hredo).
  destruct (Hredo Hcan' entry1 (files db1) He' Happ') as (_ & _ & Hi' & Hf').
  assert (files db1 = {["gpx-0" := with_id "gpx-0" file0]}) as Hfiles
    by (vm_compute; reflexivity).
  assert (keyed (files db1)) as Hkeyed.
  { intros k f. rewrite Hfiles. by intros [<- <-]%lookup_singleton_Some. }
  exact (conj Hcan (conj He (conj Happ (conj Heq (conj Hp (conj Hi
           (conj Hcan' (conj Hi' (Hf' Hkeyed))))))))).
Defined.

(** A commit prunes as soon as the entries kept below the cursor, with the
    new one, would be more than [MAX_PATCHES]: the first key of the log is
    then deleted. *)
Lemma storePatches_prunes p inv db :
  (size (filter (λ kv : Z * PatchEntry, (kv.1 ≤ patchIndex db)%Z) (patches db)) + 1
   > Z.to_nat MAX_PATCHES)%nat →
  min (patchMinMaxIndex db) ∈ dom (patches db)
  ∧ min (patchMinMaxIndex db) ≤ patchIndex db
  ∧ min (patchMinMaxIndex db) ∉ dom (patches (storePatches p inv db)).
Proof.
  intros Hsize. set (mm := patchMinMaxIndex db).
  set (kept := filter (λ kv : Z * PatchEntry, kv.1 ≤ patchIndex db) (patches db)) in *.
  assert (∀ k, k ∈ dom kept → k ≤ patchIndex db ∧ k ∈ dom (patches db)) as Hkept.
  { intros k [e He]%elem_of_dom. apply map_lookup_filter_Some in He as [He ?].
    split; [done|]. apply elem_of_dom. eauto. }
  assert (size (dom kept) ≤ Z.to_nat (max mm - min mm))%nat as Hle.
  { apply (size_interval _ (min mm)). intros k [_ Hk]%Hkept.
    apply patchMinMaxIndex_bounds in Hk. fold mm in Hk. lia. }
  rewrite size_dom in Hle.
  assert (max mm - min mm + 1 > MAX_PATCHES) as Hprune
    by (unfold MAX_PATCHES in *; lia).
  assert (kept ≠ ∅) as Hne.
  { intros He. rewrite He, map_size_empty in Hsize.
    unfold MAX_PATCHES in Hsize. lia. }
  apply map_choose in Hne as (k0 & e0 & Hk0).
  assert (k0 ∈ dom kept) as [Hk0c Hk0d]%Hkept by (apply elem_of_dom; eauto).
  assert (patches db ≠ ∅) as Hne'.
  { intros He. rewrite He, dom_empty_L in Hk0d. by apply elem_of_empty in Hk0d. }
  destruct (patchMinMaxIndex_keys db Hne') as [Hmin _].
  pose proof (patchMinMaxIndex_bounds db k0 Hk0d) as Hb. fold mm in Hmin, Hb.
  split_and!; [done|lia|].
  intros [?|(_ & _ & Hp)]%dom_storePatches; [lia|].
  specialize (Hp Hprune). fold mm in Hp. unfold MAX_PATCHES in *. lia.
Qed.

(** What is pruned is a lower part of the log: an old entry above a kept one
    and not above the cursor is kept as well. *)
Lemma storePatches_low_end p inv db k j :
  k ≤ j ≤ patchIndex db →
  k ∈ dom (patches (storePatches p inv db)) →
  j ∈ dom (patches db) →
  j ∈ dom (patches (storePatches p inv db)).
Proof.
  intros Hkj Hk [e He]%elem_of_dom.
  apply dom_storePatches in Hk as [?|(_ & _ & Hp)]; [lia|].
  apply elem_of_dom. exists e. apply lookup_storePatches. right.
  split_and!; [lia|done|]. intros Hprune. specialize (Hp Hprune). lia.
Qed.

Lemma canUndo_boundary db :
  patchIndex db = min (patchMinMaxIndex db) - 1 → canUndo db = false.
Proof. intros H. apply bool_decide_eq_false. lia. Qed.

(** C3.  After a commit the log has at most [MAX_PATCHES] entries.  The
    commit deletes the entries above the cursor, prunes from the low end of
    the key range whenever the entries kept would, with the new one, exceed
    [MAX_PATCHES], stores the new entry at [cursor + 1] and moves the cursor
    there; every transaction of [applyGlobal] commits through it.  A cursor
    that has come down to the low boundary of the log, [min - 1], cannot be
    undone, wherever pruning has left that boundary. *)
Theorem storePatches_bounded p inv db :
  (size (patches (storePatches p inv db)) ≤ Z.to_nat MAX_PATCHES)%nat
  ∧ (∀ k, patchIndex db + 1 < k → patches (storePatches p inv db) !! k = None)
  ∧ (∀ k e, k ≤ patchIndex db →
       patches (storePatches p inv db) !! k = Some e →
       patches db !! k = Some e)
  ∧ (∀ k j, k ≤ j ≤ patchIndex db →
       k ∈ dom (patches (storePatches p inv db)) →
       j ∈ dom (patches db) →
       j ∈ dom (patches (storePatches p inv db)))
  ∧ ((size (filter (λ kv : Z * PatchEntry, (kv.1 ≤ patchIndex db)%Z) (patches db)) + 1
      > Z.to_nat MAX_PATCHES)%nat →
     min (patchMinMaxIndex db) ∈ dom (patches db)
     ∧ min (patchMinMaxIndex db) ≤ patchIndex db
     ∧ min (patchMinMaxIndex db) ∉ dom (patches (storePatches p inv db)))
  ∧ patches (storePatches p inv db) !! (patchIndex db + 1)
    = Some (mkPatchEntry p inv (patchIndex db + 1))
  ∧ patchIndex (storePatches p inv db) = patchIndex db + 1
  ∧ (log_wf db → log_wf (storePatches p inv db))
  ∧ (∀ db0, patchIndex db0 = min (patchMinMaxIndex db0) - 1 →
       canUndo db0 = false)
  ∧ (∀ callback db', applyGlobal callback db = Some db' →
       (size (patches db') ≤ Z.to_nat MAX_PATCHES)%nat
       ∧ patchIndex db' = patchIndex db + 1).
Proof.
  split_and!.
  - apply storePatches_size.
  - intros k Hk. destruct (patches (storePatches p inv db) !! k) as [e|] eqn:He;
      [|done].
    apply lookup_storePatches in He as [[? _]|[? _]]; lia.
  - intros k e Hk [[? _]|(_ & He & _)]%lookup_storePatches; [lia|done].
  - apply storePatches_low_end.
  - apply storePatches_prunes.
  - apply storePatches_entry.
  - apply patchIndex_storePatches.
  - apply storePatches_log_wf.
  - apply canUndo_boundary.
  - intros callback db' (new & _ & ->)%applyGlobal_Some.
    split; [apply storePatches_size|done].
Qed.

(** One hundred and one files are added, then one hundred edits are
    undone: the log starts at key 1, the cursor is at 0 and the first edit
    can no longer be undone. *)
Lemma storePatches_bounded_witness :
  let db := Nat.iter 100 undo (addedFiles 101) in
  (size (patches (addedFiles 101)) ≤ Z.to_nat MAX_PATCHES)%nat
  ∧ patchIndex (addedFiles 101) = 100
  ∧ patchMinMaxIndex db = mkMinMax 1 101
  ∧ patchIndex db = 0
  ∧ size (files db) = 1%nat
  ∧ canUndo db = false.
Proof.
  intros db.
  assert (patchIndex db = min (patchMinMaxIndex db) - 1) as Hb
    by (vm_compute; reflexivity).
  assert (add None file0 (addedFiles 100) = Some (addedFiles 101)) as Hadd
    by (vm_compute; reflexivity).
  pose proof (storePatches_bounded [] [] (addedFiles 100)) as H.
  destruct H as (_ & _ & _ & _ & _ & _ & _ & _ & Hcan & Hcommit).
  destruct (Hcommit _ _ Hadd) as [Hsize _].
  split_and!; [exact Hsize|vm_compute; reflexivity..|exact (Hcan db Hb)].
Defined.

(** ** Crop *)

Section crop_file.
Context (draft : DocumentState) (fileId : string) (file : GPXFile).
Context (Hfile : draft !! fileId = Some file).

Local Abbreviation N := (Z.of_nat (getNumberOfTrackPoints file)).

(** The whole range of a file that has points: nothing changes. *)
Lemma crop_full_range :
  0 < N → cropCallback [fileVisit fileId] 0 (N - 1) draft = Some draft.
Proof using Hfile.
  intros HN. unfold cropCallback; simpl. rewrite Hfile. simpl.
  rewrite decide_False by lia. rewrite decide_False by lia. done.
Qed.

(** A range that lies outside the points of the file: the file goes. *)
Lemma crop_outside start end_ :
  start >= N ∨ end_ < 0 →
  cropCallback [fileVisit fileId] start end_ draft
  = Some (delete fileId draft).
Proof using Hfile.
  intros Hout. unfold cropCallback; simpl. rewrite Hfile. simpl.
  by rewrite decide_True.
Qed.

(** An empty range that starts inside the file: the file stays, cropped. *)
Lemma crop_empty_inside k :
  0 < k < N →
  cropCallback [fileVisit fileId] k (k - 1) draft
  = Some (<[fileId := crop k (k - 1) None None file]> draft).
Proof using Hfile.
  intros Hk. unfold cropCallback; simpl. rewrite Hfile. simpl.
  rewrite decide_False by lia. rewrite decide_True by lia.
  by rewrite Z.max_r, Z.min_r by lia.
Qed.
End crop_file.

(** C4, as amended.  For a file of the state with [N] points, cropped at the
    file level: when [N > 0], the range [[0, N - 1]] leaves the state as it
    is; the empty range [[k, k - 1]] deletes the file when [k <= 0] or
    [k >= N], and when [0 < k < N] the file stays in the state, cropped by
    [crop(k, k - 1)]. *)
Theorem cropSelection_file_ranges (draft : DocumentState) fileId file :
  draft !! fileId = Some file →
  let N := Z.of_nat (getNumberOfTrackPoints file) in
  (0 < N → cropCallback [fileVisit fileId] 0 (N - 1) draft = Some draft)
  ∧ (∀ k, k ≤ 0 ∨ N ≤ k →
       cropCallback [fileVisit fileId] k (k - 1) draft
       = Some (delete fileId draft))
  ∧ (∀ k, 0 < k < N →
       cropCallback [fileVisit fileId] k (k - 1) draft
       = Some (<[fileId := crop k (k - 1) None None file]> draft)).
Proof.
  intros Hfile N. split_and!.
  - by apply crop_full_range.
  - intros k Hk. apply (crop_outside _ _ _ Hfile). lia.
  - intros k Hk. by apply crop_empty_inside.
Qed.

Lemma cropSelection_file_ranges_witness :
  cropCallback [fileVisit "gpx-0"] 0 1 state2 = Some state2
  ∧ cropCallback [fileVisit "gpx-0"] 2 1 state2 = Some (delete "gpx-0" state2)
  ∧ cropCallback [fileVisit "gpx-0"] 1 0 state2
    = Some (<["gpx-0" := crop 1 0 None None file2]> state2).
Proof.
  assert (state2 !! "gpx-0" = Some file2) as H by (vm_compute; reflexivity).
  destruct (cropSelection_file_ranges state2 "gpx-0" file2 H)
    as (Hid & Hdel & Hin).
  split_and!.
  - apply Hid. vm_compute; reflexivity.
  - apply (Hdel 2). right. vm_compute; discriminate.
  - apply (Hin 1). split; vm_compute; reflexivity.
Defined.

(** C4, as stated, fails: a file of two points cropped to the empty range
    [[1, 0]] is still in the state, and a file without points cropped to
    [[0, -1]], its whole range, is deleted. *)
Lemma cropSelection_counterexample :
  state2 !! "gpx-0" = Some file2
  ∧ getNumberOfTrackPoints file2 = 2%nat
  ∧ is_Some (cropCallback [fileVisit "gpx-0"] 1 (1 - 1) state2
               ≫= λ st, st !! "gpx-0")
  ∧ cropCallback [fileVisit "gpx-0"] 1 (1 - 1) state2
    ≠ Some (delete "gpx-0" state2)
  ∧ stateEmpty !! "gpx-0" = Some fileEmpty
  ∧ getNumberOfTrackPoints fileEmpty = O
  ∧ cropCallback [fileVisit "gpx-0"] 0 (0 - 1) stateEmpty = Some ∅
  ∧ cropCallback [fileVisit "gpx-0"] 0 (0 - 1) stateEmpty ≠ Some stateEmpty.
Proof.
  split_and!; try (vm_compute; reflexivity).
  - vm_compute. eauto.
  - intros H. vm_compute in H. discriminate H.
  - intros H. vm_compute in H. discriminate H.
Qed.

(** ** Merge *)

Lemma replaceRange_all {A} (l new : list A) :
  replaceRange l 0 (Z.of_nat (length l) - 1) new = new.
Proof.
  unfold replaceRange, clampZ.
  replace (Z.max 0 (Z.min (Z.of_nat (length l)) 0)) with 0 by lia.
  replace (Z.max (0 - 1) (Z.min (Z.of_nat (length l) - 1)
                            (Z.of_nat (length l) - 1)))
    with (Z.of_nat (length l) - 1) by lia.
  replace (Z.to_nat (Z.of_nat (length l) - 1 + 1)) with (length l) by lia.
  simpl. by rewrite drop_all, app_nil_r.
Qed.

Lemma replaceRange_insert {A} (l new : list A) (i : nat) :
  (i ≤ length l)%nat →
  replaceRange l (Z.of_nat i) (Z.of_nat i - 1) new = take i l ++ new ++ drop i l.
Proof.
  intros Hi. unfold replaceRange, clampZ.
  replace (Z.max 0 (Z.min (Z.of_nat (length l)) (Z.of_nat i)))
    with (Z.of_nat i) by lia.
  replace (Z.max (Z.of_nat i - 1)
             (Z.min (Z.of_nat (length l) - 1) (Z.of_nat i - 1)))
    with (Z.of_nat i - 1) by lia.
  replace (Z.to_nat (Z.of_nat i - 1 + 1)) with i by lia.
  by rewrite Nat2Z.id.
Qed.

Lemma foldlM_app {A B} (f : B → A → option B) b l1 l2 :
  foldlM f b (l1 ++ l2) = foldlM f b l1 ≫= λ b', foldlM f b' l2.
Proof.
  revert b. induction l1 as [|x l1 IH]; intros b; simpl; [done|].
  destruct (f b x); simpl; auto.
Qed.

(** The visits of the files after the first one: every file gives its tracks
    and waypoints and is deleted. *)
Lemma mergeVisit_later_files (original : DocumentState) ids :
  NoDup ids →
  ∀ st,
    merge_first st = false →
    (∀ id, id ∈ ids → is_Some (merge_draft st !! id) ∧ is_Some (original !! id)) →
    foldlM (mergeVisit original) st (fileVisit <$> ids)
    = Some (mkMergeState
              (foldl (λ d id, delete id d) (merge_draft st) ids) false
              (merge_target st) (merge_targetFile st)
              (mkToMerge
                 (toMerge_trk (merge_toMerge st)
                  ++ mjoin (trk <$> filesOf original ids))
                 (toMerge_trkseg (merge_toMerge st))
                 (toMerge_wpt (merge_toMerge st)
                  ++ mjoin (wpt <$> filesOf original ids)))).
Proof.
  induction 1 as [|id ids Hid Hnd IH]; intros st Hfirst Hall.
  - simpl. rewrite !app_nil_r. destruct st as [? ? ? ? []]. simpl in *.
    by subst.
  - destruct (Hall id) as [[f Hf] [g Hg]]; [left|].
    cbn [fmap list_fmap foldlM]. unfold mergeVisit at 1. simpl.
    rewrite Hf, Hg, Hfirst. rewrite IH; simpl; [|done|].
    + by rewrite <- !app_assoc.
    + intros j Hj. destruct (Hall j) as [Hd Ho]; [by right|].
      split; [|done]. rewrite lookup_delete_ne; [done|]. by intros ->.
Qed.

(** Merging whole files: the first file visited is the target.  It receives
    the tracks and the waypoints of all the files, in the order of the
    visits, and the files visited after it are deleted. *)
Lemma mergeCallback_files blend mergeTraces (S : DocumentState) id ids file :
  NoDup (id :: ids) →
  S !! id = Some file →
  (∀ j, j ∈ ids → is_Some (S !! j)) →
  let toMerge :=
    blended blend mergeTraces
      (mkToMerge (mjoin (trk <$> filesOf S (id :: ids))) []
                 (mjoin (wpt <$> filesOf S (id :: ids)))) in
  mergeCallback blend mergeTraces S (fileVisit <$> id :: ids) S
  = Some (<[id := with_wpt (toMerge_wpt toMerge)
                    (with_trk (toMerge_trk toMerge) file)]>
            (foldl (λ d j, delete j d) S ids)).
Proof.
  intros [Hid Hnd]%list.NoDup_cons Hfile Hall toMerge.
  unfold mergeCallback. cbn [fmap list_fmap foldlM].
  unfold mergeVisit at 1. simpl. rewrite Hfile. simpl.
  rewrite mergeVisit_later_files; [|done|done|]; simpl.
  2:{ intros j Hj. split; by apply Hall. }
  unfold mergeIntoTarget. simpl.
  rewrite lookup_foldl_delete. rewrite decide_False by done. rewrite Hfile.
  unfold replaceTracks, replaceWaypoints. simpl.
  rewrite !replaceRange_all. unfold toMerge, blended, filesOf. simpl.
  by rewrite Hfile.
Qed.

(** *** Removing items at descending indices *)

Lemma keepFrom_true {A} o (P : nat → bool) (l : list A) :
  (∀ i, (o ≤ i)%nat → P i = true) → keepFrom o P l = l.
Proof.
  revert o. induction l as [|x l IH]; intros o HP; simpl; [done|].
  rewrite HP by lia. simpl. f_equal. apply IH. intros i Hi. apply HP. lia.
Qed.

Lemma keepFrom_delete {A} o (P P' : nat → bool) t (l : list A) :
  (∀ i, i ≠ (o + t)%nat → P' i = P i) →
  P' (o + t)%nat = false →
  (∀ i, (o + t ≤ i)%nat → P i = true) →
  keepFrom o P (delete t l) = keepFrom o P' l.
Proof.
  revert o t. induction l as [|x l IH]; intros o t Hne Ht Hge; [done|].
  destruct t as [|t]; simpl.
  - replace (o + 0)%nat with o in * by lia. rewrite Ht. simpl.
    rewrite !keepFrom_true; [done| |].
    + intros i Hi. rewrite Hne by lia. apply Hge. lia.
    + intros i Hi. apply Hge. lia.
  - rewrite Hne by lia. f_equal. apply IH.
    + intros i Hi. apply Hne. lia.
    + by replace (S o + t)%nat with (o + S t)%nat by lia.
    + intros i Hi. apply Hge. lia.
Qed.

Lemma keepFrom_take {A} o (P : nat → bool) n (l : list A) :
  (∀ i, (o ≤ i < o + n)%nat → P i = true) →
  take n (keepFrom o P l) = take n l.
Proof.
  revert o n. induction l as [|x l IH]; intros o n HP; simpl; [done|].
  destruct n as [|n]; [done|]. rewrite HP by lia. simpl. f_equal.
  apply IH. intros i Hi. apply HP. lia.
Qed.

Lemma keepFrom_lookup {A} (P : nat → bool) t (l : list A) :
  (∀ i, (i ≤ t)%nat → P i = true) → keepFrom 0 P l !! t = l !! t.
Proof.
  intros HP.
  rewrite <- (lookup_take_lt (keepFrom 0 P l) (S t) t) by lia.
  rewrite keepFrom_take; [apply lookup_take_lt; lia|].
  intros i Hi. apply HP. lia.
Qed.

(** Deleting at descending indices one after the other removes exactly the
    elements at these indices. *)
Lemma foldl_delete_descending {A} ts (l : list A) :
  descending ts →
  foldl (λ l t, delete t l) l ts
  = keepFrom 0 (λ i, bool_decide (i ∉ ts)) l.
Proof.
  intros Hd. revert l. induction Hd as [|t ts Hd IH Hlt]; intros l; simpl.
  - symmetry. by apply keepFrom_true.
  - rewrite IH. rewrite list.Forall_forall in Hlt. apply keepFrom_delete.
    + intros i Hi. apply bool_decide_ext. rewrite not_elem_of_cons.
      simpl in Hi. intuition.
    + apply bool_decide_eq_false. intros Hn. apply Hn. left.
    + intros i Hi. apply bool_decide_eq_true. intros Hin.
      apply Hlt in Hin. simpl in Hi. lia.
Qed.

Lemma splice_delete {A} (l : list A) t : splice l t 1 [] = delete t l.
Proof.
  unfold splice. simpl. rewrite delete_take_drop.
  by replace (t + 1)%nat with (S t) by lia.
Qed.

Lemma indexed_cons {A} o (x : A) l : indexed o (x :: l) = (o, x) :: indexed (S o) l.
Proof.
  unfold indexed. simpl. f_equal; [f_equal; lia|].
  apply imap_ext. intros i y _. simpl. f_equal. lia.
Qed.

Lemma indexed_app {A} o (l1 l2 : list A) :
  indexed o (l1 ++ l2) = indexed o l1 ++ indexed (o + length l1) l2.
Proof.
  revert o. induction l1 as [|x l1 IH]; intros o.
  - unfold indexed. simpl. apply imap_ext. intros i y _. simpl. f_equal. lia.
  - change ((x :: l1) ++ l2) with (x :: (l1 ++ l2)).
    rewrite !indexed_cons, IH. simpl. do 3 f_equal. lia.
Qed.

Lemma imap_pair_indexed {A} (l : list A) : imap pair l = indexed 0 l.
Proof. done. Qed.

Lemma descending_snoc ts t :
  descending (ts ++ [t]) → descending ts ∧ ∀ u, u ∈ ts → (t < u)%nat.
Proof.
  induction ts as [|u ts IH]; simpl.
  - intros _. split; [constructor|]. by intros u ?%elem_of_nil.
  - intros H. apply StronglySorted_inv in H as [Hs Hall].
    destruct (IH Hs) as [Hd Hlt]. rewrite list.Forall_forall in Hall.
    split.
    + constructor; [done|]. apply list.Forall_forall. intros v Hv.
      apply Hall. apply elem_of_app. by left.
    + intros v [->|Hv]%elem_of_cons; [|by apply Hlt].
      apply Hall. apply elem_of_app. right. left.
Qed.

(** *** Merging tracks of one file *)

(** The items before the last one: the track gives its segments, which go
    in front of those collected so far, and is removed from the file. *)
Lemma mergeTrackItem_others originalFile count fileId ts :
  ∀ o file target segments,
  (o + length ts < count)%nat →
  (∀ t, t ∈ ts → is_Some (trk originalFile !! t)) →
  foldlM (mergeTrackItem originalFile count) (file, target, segments)
         (indexed o (ListTrackItem fileId <$> ts))
  = Some (with_trk (foldl (λ l t, delete t l) (trk file) ts) file, target,
          mjoin (trkseg <$> omap (λ t, trk originalFile !! t) (reverse ts))
          ++ segments).
Proof.
  induction ts as [|t ts IH]; intros o file target segments Hcount Hall.
  - simpl. by destruct file.
  - rewrite fmap_cons, indexed_cons. cbn [foldlM].
    destruct (Hall t) as [track Htrack]; [left|].
    unfold mergeTrackItem at 1. simpl. rewrite Htrack. simpl.
    simpl in Hcount. rewrite decide_False by lia.
    rewrite IH; [|lia|intros u Hu; apply Hall; by right].
    simpl. rewrite splice_delete.
    rewrite reverse_cons, omap_app, fmap_app, join_app. simpl.
    rewrite Htrack. simpl. by rewrite app_nil_r, <- app_assoc.
Qed.

(** Merging tracks of a file: the last item of the visit, which has the
    lowest index, is the target.  The other selected tracks are removed and
    the target holds the segments of all the selected tracks, in the order
    of their indices. *)
Lemma mergeCallback_tracks blend mergeTraces (S : DocumentState) fileId file
    ts tmin track :
  S !! fileId = Some file →
  descending (ts ++ [tmin]) →
  (∀ t, t ∈ ts → is_Some (trk file !! t)) →
  trk file !! tmin = Some track →
  mergeCallback blend mergeTraces S
    [mkVisit fileId TRACK (ListTrackItem fileId <$> ts ++ [tmin])] S
  = Some (<[fileId :=
              with_trk
                (<[tmin := with_trkseg
                             (toMerge_trkseg
                                (blended blend mergeTraces
                                   (mkToMerge []
                                      (mjoin (trkseg <$>
                                                omap (λ t, trk file !! t)
                                                  (tmin :: reverse ts)))
                                      [])))
                             track]>
                   (keepFrom 0 (λ i, bool_decide (i ∉ ts)) (trk file)))
                file]> S).
Proof.
  intros Hfile [Hdesc Hlt]%descending_snoc Hall Htrack.
  assert (keepFrom 0 (λ i, bool_decide (i ∉ ts)) (trk file) !! tmin
          = Some track) as Hkept.
  { rewrite keepFrom_lookup; [done|]. intros i Hi.
    apply bool_decide_eq_true. intros Hin%Hlt. lia. }
  unfold mergeCallback. cbn [foldlM]. unfold mergeVisit. simpl.
  rewrite Hfile. simpl.
  rewrite imap_pair_indexed, fmap_app, indexed_app, foldlM_app.
  rewrite length_app, !length_fmap. simpl.
  rewrite mergeTrackItem_others; [|lia|done]. simpl.
  unfold mergeTrackItem. simpl. rewrite Htrack. simpl.
  rewrite decide_True by lia.
  unfold setTrackSegments. simpl.
  rewrite foldl_delete_descending by done. rewrite Hkept. simpl.
  unfold mergeIntoTarget. simpl. rewrite lookup_insert_eq.
  unfold replaceTrackSegments. simpl.
  rewrite list_lookup_insert_eq by (by apply lookup_lt_Some in Hkept).
  simpl. rewrite insert_insert_eq, list_insert_insert_eq.
  unfold trackReplaceTrackSegments. simpl.
  rewrite (replaceRange_insert [] _ 0) by (simpl; lia). simpl.
  by rewrite !app_nil_r.
Qed.

(** *** Merging segments of one track *)

(** The items before the last one: the segment goes in front of those
    collected so far and is removed from its track. *)
Lemma mergeSegmentItem_others originalFile count fileId t original ss :
  trk originalFile !! t = Some original →
  ∀ o file target segments track,
  trk file !! t = Some track →
  (o + length ss < count)%nat →
  (∀ s, s ∈ ss → is_Some (trkseg original !! s)) →
  foldlM (mergeSegmentItem originalFile count) (file, target, segments)
         (indexed o (ListTrackSegmentItem fileId t <$> ss))
  = Some (with_trk
            (<[t := with_trkseg (foldl (λ l s, delete s l) (trkseg track) ss)
                      track]> (trk file)) file,
          target,
          omap (λ s, trkseg original !! s) (reverse ss) ++ segments).
Proof.
  intros Horig.
  induction ss as [|s ss IH]; intros o file target segments track Htrack Hcount Hall.
  - simpl. rewrite list_insert_id; [by destruct file|].
    rewrite Htrack. by destruct track.
  - rewrite fmap_cons, indexed_cons. cbn [foldlM].
    destruct (Hall s) as [segment Hsegment]; [left|].
    unfold mergeSegmentItem at 1. simpl. rewrite Horig. simpl.
    rewrite Hsegment. simpl. rewrite Htrack. simpl.
    unfold setTrackSegments. rewrite Htrack. simpl.
    simpl in Hcount. rewrite decide_False by lia.
    rewrite (IH _ _ _ _ (with_trkseg (splice (trkseg track) s 1 []) track));
      [| |lia|intros u Hu; apply Hall; by right].
    2:{ simpl. apply list_lookup_insert_eq. by apply lookup_lt_Some in Htrack. }
    simpl. rewrite splice_delete, list_insert_insert_eq.
    rewrite reverse_cons, omap_app. simpl. rewrite Hsegment. simpl.
    by rewrite <- app_assoc.
Qed.

(** Merging segments of a track: the last item of the visit, which has the
    lowest index, is the target.  All the selected segments are taken out
    of the track and put back, in the order of their indices, at the place
    of the target. *)
Lemma mergeCallback_segments blend mergeTraces (S : DocumentState) fileId file
    t track ss smin :
  S !! fileId = Some file →
  trk file !! t = Some track →
  descending (ss ++ [smin]) →
  (∀ s, s ∈ ss ++ [smin] → is_Some (trkseg track !! s)) →
  mergeCallback blend mergeTraces S
    [mkVisit fileId SEGMENT (ListTrackSegmentItem fileId t <$> ss ++ [smin])] S
  = Some (<[fileId :=
              with_trk
                (<[t := with_trkseg
                          (take smin (trkseg track)
                           ++ toMerge_trkseg
                                (blended blend mergeTraces
                                   (mkToMerge []
                                      (omap (λ s, trkseg track !! s)
                                         (smin :: reverse ss)) []))
                           ++ drop smin
                                (keepFrom 0
                                   (λ i, bool_decide (i ∉ ss ++ [smin]))
                                   (trkseg track)))
                          track]> (trk file))
                file]> S).
Proof.
  intros Hfile Htrack Hdesc Hall.
  pose proof (descending_snoc _ _ Hdesc) as [Hdesc' Hlt].
  destruct (Hall smin) as [segment Hsegment];
    [apply elem_of_app; right; left|].
  set (kept := keepFrom 0 (λ i, bool_decide (i ∉ ss ++ [smin])) (trkseg track)).
  assert (take smin kept = take smin (trkseg track)) as Htake.
  { apply keepFrom_take. intros i Hi. apply bool_decide_eq_true.
    intros [Hin%Hlt| ->%list_elem_of_singleton]%elem_of_app; lia. }
  assert (smin ≤ length kept)%nat as Hlen.
  { apply (f_equal length) in Htake. rewrite !length_take in Htake.
    apply lookup_lt_Some in Hsegment. lia. }
  unfold mergeCallback. cbn [foldlM]. unfold mergeVisit. simpl.
  rewrite Hfile. simpl.
  rewrite imap_pair_indexed, fmap_app, indexed_app, foldlM_app.
  rewrite length_app, !length_fmap. simpl.
  rewrite (mergeSegmentItem_others file _ fileId t track ss Htrack _ _ _ _ track);
    [|done|lia|intros s Hs; apply Hall, elem_of_app; by left].
  simpl. unfold mergeSegmentItem. simpl. rewrite Htrack. simpl.
  rewrite Hsegment. simpl.
  rewrite list_lookup_insert_eq by (by apply lookup_lt_Some in Htrack).
  simpl. unfold setTrackSegments. simpl.
  rewrite list_lookup_insert_eq by (by apply lookup_lt_Some in Htrack).
  simpl. rewrite decide_True by lia.
  unfold mergeIntoTarget. simpl. rewrite lookup_insert_eq.
  unfold replaceTrackSegments. simpl.
  rewrite list_lookup_insert_eq
    by (rewrite length_insert; by apply lookup_lt_Some in Htrack).
  simpl. rewrite insert_insert_eq, !list_insert_insert_eq.
  unfold trackReplaceTrackSegments. simpl.
  rewrite splice_delete.
  change (delete smin (foldl (λ l s, delete s l) (trkseg track) ss))
    with (foldl (λ l s, delete s l) (foldl (λ l s, delete s l) (trkseg track) ss)
            [smin]).
  rewrite <- foldl_app, foldl_delete_descending by done. fold kept.
  rewrite replaceRange_insert by done. rewrite Htake.
  rewrite app_nil_r. reflexivity.
Qed.

(** C5, as amended.  Merging whole files, the first file visited is the
    target: it receives the tracks and waypoints of all the selected files,
    in the order of the visits, and the files visited after it are deleted.
    Merging tracks of a file (or segments of a track), the last item of the
    visit, the one with the lowest index, is the target: the segments of
    the selected tracks (the selected segments) are put together in the
    order of their indices into the target, and the other selected items
    are removed from their places.  What goes into the target is the
    collected data as it is without [mergeTraces].  With [mergeTraces] the
    collected waypoints stay as they are; the collected segments of a merge
    of tracks or segments are replaced by one segment blended from them;
    the collected tracks of a merge of files are replaced by the first of
    them holding one segment blended from the segments of all of them when
    this first track has a segment, and go into the target as collected
    when it has none. *)
Theorem mergeSelection_target blend mergeTraces (S : DocumentState) :
  (∀ id ids file,
     NoDup (id :: ids) → S !! id = Some file →
     (∀ j, j ∈ ids → is_Some (S !! j)) →
     let toMerge :=
       blended blend mergeTraces
         (mkToMerge (mjoin (trk <$> filesOf S (id :: ids))) []
                    (mjoin (wpt <$> filesOf S (id :: ids)))) in
     mergeCallback blend mergeTraces S (fileVisit <$> id :: ids) S
     = Some (<[id := with_wpt (toMerge_wpt toMerge)
                       (with_trk (toMerge_trk toMerge) file)]>
               (foldl (λ d j, delete j d) S ids)))
  ∧ (∀ fileId file ts tmin track,
       S !! fileId = Some file → descending (ts ++ [tmin]) →
       (∀ t, t ∈ ts → is_Some (trk file !! t)) →
       trk file !! tmin = Some track →
       mergeCallback blend mergeTraces S
         [mkVisit fileId TRACK (ListTrackItem fileId <$> ts ++ [tmin])] S
       = Some (<[fileId :=
                   with_trk
                     (<[tmin := with_trkseg
                                  (toMerge_trkseg
                                     (blended blend mergeTraces
                                        (mkToMerge []
                                           (mjoin (trkseg <$>
                                                     omap (λ t, trk file !! t)
                                                       (tmin :: reverse ts)))
                                           [])))
                                  track]>
                        (keepFrom 0 (λ i, bool_decide (i ∉ ts)) (trk file)))
                     file]> S))
  ∧ (∀ fileId file t track ss smin,
       S !! fileId = Some file → trk file !! t = Some track →
       descending (ss ++ [smin]) →
       (∀ s, s ∈ ss ++ [smin] → is_Some (trkseg track !! s)) →
       mergeCallback blend mergeTraces S
         [mkVisit fileId SEGMENT
            (ListTrackSegmentItem fileId t <$> ss ++ [smin])] S
       = Some (<[fileId :=
                   with_trk
                     (<[t := with_trkseg
                               (take smin (trkseg track)
                                ++ toMerge_trkseg
                                     (blended blend mergeTraces
                                        (mkToMerge []
                                           (omap (λ s, trkseg track !! s)
                                              (smin :: reverse ss)) []))
                                ++ drop smin
                                     (keepFrom 0
                                        (λ i, bool_decide (i ∉ ss ++ [smin]))
                                        (trkseg track)))
                               track]> (trk file))
                     file]> S))
  ∧ (∀ toMerge,
       blended blend false toMerge = toMerge
       ∧ toMerge_wpt (blended blend true toMerge) = toMerge_wpt toMerge
       ∧ (toMerge_trkseg toMerge = [] →
          toMerge_trkseg (blended blend true toMerge) = [])
       ∧ (toMerge_trkseg toMerge ≠ [] →
          toMerge_trkseg (blended blend true toMerge)
          = [blend (toMerge_trkseg toMerge)])
       ∧ (toMerge_trk toMerge = [] →
          toMerge_trk (blended blend true toMerge) = [])
       ∧ (∀ track tracks,
            toMerge_trk toMerge = track :: tracks → trkseg track ≠ [] →
            toMerge_trk (blended blend true toMerge)
            = [with_trkseg [blend (mjoin (trkseg <$> track :: tracks))]
                 track])
       ∧ (∀ track tracks,
            toMerge_trk toMerge = track :: tracks → trkseg track = [] →
            toMerge_trk (blended blend true toMerge) = track :: tracks)).
Proof.
  split_and!.
  - apply mergeCallback_files.
  - apply mergeCallback_tracks.
  - apply mergeCallback_segments.
  - intros toMerge. unfold blended, mergeTracesStep. split_and!; simpl.
    + done.
    + done.
    + by intros ->.
    + by destruct (toMerge_trkseg toMerge).
    + by intros ->.
    + intros track tracks -> Hne. simpl. by destruct (trkseg track).
    + by intros track tracks -> ->.
Qed.

Lemma mergeSelection_target_witness :
  mergeCallback blendPoints false stateAB (fileVisit <$> ["gpx-0"; "gpx-1"])
    stateAB
  = Some (<["gpx-0" :=
             with_wpt (wpt fileA ++ wpt fileB)
               (with_trk (trk fileA ++ trk fileB) fileA)]>
            (delete "gpx-1" stateAB))
  ∧ mergeCallback blendPoints false state3
      [mkVisit "gpx-0" TRACK [ListTrackItem "gpx-0" 2; ListTrackItem "gpx-0" 0]]
      state3
    = Some (<["gpx-0" :=
               with_trk
                 [mkTrack (Some "t0")
                    [mkTrackSegment [point 0 0]; mkTrackSegment [point 0 1];
                     mkTrackSegment [point 2 0]; mkTrackSegment [point 2 1]];
                  mkTrack (Some "t1") [mkTrackSegment [point 1 0]]]
                 file3]> state3)
  ∧ mergeCallback blendPoints true stateAB (fileVisit <$> ["gpx-0"; "gpx-1"])
      stateAB
    = Some (<["gpx-0" :=
               with_trk
                 [mkTrack (Some "a")
                    [mkTrackSegment [point 0 0; point 0 1; point 5 5]]]
                 fileA]>
              (delete "gpx-1" stateAB))
  ∧ mergeCallback blendPoints true stateBare
      (fileVisit <$> ["gpx-0"; "gpx-1"]) stateBare
    = Some (<["gpx-0" := with_trk (trk fileBare ++ trk fileB) fileBare]>
              (delete "gpx-1" stateBare)).
Proof.
  assert (NoDup ["gpx-0"; "gpx-1"]) as Hids.
  { apply list.NoDup_cons. split; [|apply NoDup_singleton].
    intros H%list_elem_of_singleton. discriminate H. }
  destruct (mergeSelection_target blendPoints false stateAB) as (Hfiles & _).
  destruct (mergeSelection_target blendPoints false state3) as (_ & Htracks & _).
  destruct (mergeSelection_target blendPoints true stateAB) as (Hblend & _).
  destruct (mergeSelection_target blendPoints true stateBare) as (Hbare & _).
  split_and!.
  - apply (Hfiles "gpx-0" ["gpx-1"] fileA).
    + done.
    + vm_compute; reflexivity.
    + intros j ->%list_elem_of_singleton. vm_compute. eauto.
  - apply (Htracks "gpx-0" file3 [2%nat] 0%nat
             (mkTrack (Some "t0")
                [mkTrackSegment [point 0 0]; mkTrackSegment [point 0 1]])).
    + vm_compute; reflexivity.
    + repeat constructor.
    + intros t ->%list_elem_of_singleton. vm_compute. eauto.
    + vm_compute; reflexivity.
  - rewrite (Hblend "gpx-0" ["gpx-1"] fileA).
    + vm_compute; reflexivity.
    + done.
    + vm_compute; reflexivity.
    + intros j ->%list_elem_of_singleton. vm_compute. eauto.
  - rewrite (Hbare "gpx-0" ["gpx-1"] fileBare).
    + vm_compute; reflexivity.
    + done.
    + vm_compute; reflexivity.
    + intros j ->%list_elem_of_singleton. vm_compute. eauto.
Defined.

(** C5, as stated, fails for files: of two selected files the one visited
    first is the target and keeps its id, and the one visited last is
    deleted. *)
Lemma mergeSelection_counterexample :
  applyToOrderedItemsFromFile ["gpx-0"; "gpx-1"]
    [ListFileItem "gpx-0"; ListFileItem "gpx-1"] true
  = [fileVisit "gpx-0"; fileVisit "gpx-1"]
  ∧ (mergeCallback blendPoints false stateAB
       [fileVisit "gpx-0"; fileVisit "gpx-1"] stateAB
     ≫= λ st, st !! "gpx-0")
    = Some (mkGPXFile "gpx-0" "A" (trk fileA ++ trk fileB) (wpt fileA))
  ∧ (mergeCallback blendPoints false stateAB
       [fileVisit "gpx-0"; fileVisit "gpx-1"] stateAB
     ≫= λ st, Some (st !! "gpx-1"))
    = Some None.
Proof. split_and!; vm_compute; reflexivity. Qed.

(** ** Split: the closest point *)

Lemma Qltb_true a b : Qltb a b = true ↔ (a < b)%Q.
Proof.
  unfold Qltb. rewrite negb_true_iff, <- not_true_iff_false, Qle_bool_iff.
  split; [apply Qnot_le_lt|apply Qlt_not_le].
Qed.

Lemma Qltb_false a b : Qltb a b = false ↔ (b <= a)%Q.
Proof.
  unfold Qltb. rewrite negb_false_iff, Qle_bool_iff. done.
Qed.

Section closest_point.
Context (distance : Coordinates → Coordinates → Q).
Context (coordinates : Coordinates).

Local Abbreviation dist p := (distance (pt_coordinates p) coordinates).

(** The search loop from any start: either nothing closer than the start
    was found, or the result is the first of the closest points. *)
Lemma closestPoint_loop points :
  ∀ o d0 i0,
  let r := foldl (closestPointStep distance coordinates) (d0, i0)
             (indexed o points) in
  (r = (d0, i0) ∧ ∀ j q, points !! j = Some q → (d0 <= dist q)%Q)
  ∨ (∃ j p, points !! j = Some p ∧ r = (dist p, (o + j)%nat)
       ∧ (dist p < d0)%Q
       ∧ (∀ k q, points !! k = Some q → (dist p <= dist q)%Q)
       ∧ (∀ k q, (k < j)%nat → points !! k = Some q → (dist p < dist q)%Q)).
Proof.
  induction points as [|x points IH]; intros o d0 i0; cbv zeta in *.
  - left. split; [done|]. intros j q Hq. by rewrite lookup_nil in Hq.
  - rewrite indexed_cons. cbn [foldl].
    assert (closestPointStep distance coordinates (d0, i0) (o, x)
            = if Qltb (dist x) d0 then (dist x, o) else (d0, i0)) as ->
      by reflexivity.
    destruct (Qltb (dist x) d0) eqn:Hlt.
    + apply Qltb_true in Hlt.
      destruct (IH (S o) (dist x) o) as [[Hr Hall]|(j & p & Hp & Hr & Hpd & Hmin & Hfirst)].
      * right. exists O, x. split_and!; try done.
        -- rewrite Hr. f_equal. lia.
        -- intros [|k] q Hq; simpl in Hq; [injection Hq as <-; lra|eauto].
        -- intros k q Hk. lia.
      * right. exists (S j), p. split_and!; try done.
        -- rewrite Hr. f_equal. lia.
        -- lra.
        -- intros [|k] q Hq; simpl in Hq; [injection Hq as <-; lra|eauto].
        -- intros [|k] q Hk Hq; simpl in Hq; [injection Hq as <-; lra|].
           apply (Hfirst k); [lia|done].
    + apply Qltb_false in Hlt.
      destruct (IH (S o) d0 i0) as [[Hr Hall]|(j & p & Hp & Hr & Hpd & Hmin & Hfirst)].
      * left. split; [done|].
        intros [|k] q Hq; simpl in Hq; [injection Hq as <-; lra|eauto].
      * right. exists (S j), p. split_and!; try done.
        -- rewrite Hr. f_equal. lia.
        -- intros [|k] q Hq; simpl in Hq; [injection Hq as <-; lra|eauto].
        -- intros [|k] q Hk Hq; simpl in Hq; [injection Hq as <-; lra|].
           apply (Hfirst k); [lia|done].
Qed.

(** The index found in a segment that has a point closer than
    [MAX_VALUE]. *)
Lemma closestPoint_first points :
  (∃ j q, points !! j = Some q ∧ (dist q < MAX_VALUE)%Q) →
  ∃ p, points !! (closestPoint distance points coordinates).2 = Some p
    ∧ (closestPoint distance points coordinates).1 = dist p
    ∧ (∀ k q, points !! k = Some q → (dist p <= dist q)%Q)
    ∧ (∀ k q, (k < (closestPoint distance points coordinates).2)%nat →
         points !! k = Some q → (dist p < dist q)%Q).
Proof.
  intros (j0 & q0 & Hq0 & Hlt0). unfold closestPoint.
  rewrite imap_pair_indexed.
  destruct (closestPoint_loop points O MAX_VALUE O)
    as [[_ Hall]|(j & p & Hp & Hr & _ & Hmin & Hfirst)].
  - specialize (Hall _ _ Hq0). lra.
  - rewrite Hr. simpl. exists p. done.
Qed.
End closest_point.

(** C6.  In a segment with a point closer to the target than [MAX_VALUE],
    the search of [split] finds a point at the smallest distance to the
    target, and every point before it is strictly farther: among points at
    the same smallest distance the lowest index wins.  In particular the
    search never stops at [i + 1] when the point [i] is as close, and it
    stops at [i] when [i] and [i + 1] are the two closest points. *)
Theorem split_closest_point distance coordinates points :
  (∃ j q, points !! j = Some q
     ∧ (distance (pt_coordinates q) coordinates < MAX_VALUE)%Q) →
  let dist p := distance (pt_coordinates p) coordinates in
  let minIndex := (closestPoint distance points coordinates).2 in
  (∃ p, points !! minIndex = Some p
     ∧ (∀ k q, points !! k = Some q → (dist p <= dist q)%Q)
     ∧ (∀ k q, (k < minIndex)%nat → points !! k = Some q →
          (dist p < dist q)%Q))
  ∧ (∀ i p q, points !! i = Some p → points !! S i = Some q →
       (dist p == dist q)%Q → minIndex ≠ S i)
  ∧ (∀ i p q, points !! i = Some p → points !! S i = Some q →
       (dist p == dist q)%Q →
       (∀ k r, k ≠ i → k ≠ S i → points !! k = Some r → (dist p < dist r)%Q) →
       minIndex = i).
Proof.
  intros Hex dist minIndex.
  destruct (closestPoint_first distance coordinates points Hex)
    as (p & Hp & _ & Hmin & Hfirst).
  fold minIndex in Hp, Hfirst. split_and!.
  - exists p. done.
  - intros i a b Ha Hb Hab ->. rewrite Hb in Hp. injection Hp as ->.
    specialize (Hfirst i a). unfold dist in Hab.
    assert (i < S i)%nat as Hi by lia. specialize (Hfirst Hi Ha). lra.
  - intros i a b Ha Hb Hab Hothers.
    destruct (decide (minIndex = i)) as [|Hni]; [done|exfalso].
    destruct (decide (minIndex = S i)) as [Hsi|Hnsi].
    + rewrite Hsi in Hp, Hfirst. rewrite Hb in Hp. injection Hp as ->.
      assert (i < S i)%nat as Hi by lia. specialize (Hfirst i a Hi Ha).
      unfold dist in Hab. lra.
    + specialize (Hothers minIndex p Hni Hnsi Hp).
      specialize (Hmin i a Ha). unfold dist in Hothers. lra.
Qed.

Lemma split_closest_point_witness :
  (closestPoint gridDistance linePoints halfWay).2 = O
  ∧ (closestPoint gridDistance linePoints halfWay).2 ≠ 1%nat
  ∧ (gridDistance (pt_coordinates (point 0 0)) halfWay
     == gridDistance (pt_coordinates (point 0 2)) halfWay)%Q.
Proof.
  assert (∃ j q, linePoints !! j = Some q
            ∧ (gridDistance (pt_coordinates q) halfWay < MAX_VALUE)%Q) as Hex.
  { exists O, (point 0 0). split; [reflexivity|vm_compute; reflexivity]. }
  destruct (split_closest_point gridDistance halfWay linePoints Hex)
    as (_ & Hne & _).
  assert (gridDistance (pt_coordinates (point 0 0)) halfWay
          == gridDistance (pt_coordinates (point 0 2)) halfWay)%Q as Heq
    by (vm_compute; reflexivity).
  split_and!.
  - vm_compute; reflexivity.
  - exact (Hne O (point 0 0) (point 0 2) eq_refl eq_refl Heq).
  - exact Heq.
Defined.

(** ** Extract: the waypoints of the new files *)

Section nearest_tracks.
Context (distance : Coordinates → Coordinates → Q).

Local Abbreviation dist w p :=
  (distance (pt_coordinates p) (wpt_coordinates w)).




End nearest_tracks.

Section nearest_fold.
Context (distance : Coordinates → Coordinates → Q) (w : Waypoint).

Local Abbreviation dist p :=
  (distance (pt_coordinates p) (wpt_coordinates w)).

End nearest_fold.

Lemma foldl_ext_eq {A B} (f g : B → A → B) b l :
  (∀ b x, f b x = g b x) → foldl f b l = foldl g b l.
Proof.
  intros Hfg. revert b. induction l as [|x l IH]; intros b; simpl; [done|].
  by rewrite Hfg, IH.
Qed.




Section extract_waypoints.
Context (distance : Coordinates → Coordinates → Q).



End extract_waypoints.

(** ** File ids *)

Lemma gpxId_inj i j : gpxId i = gpxId j → i = j.
Proof.
  unfold gpxId. intros H. simpl in H. injection H as H.
  by apply pretty_nat_inj in H.
Qed.

(** The ids that the loop adds are new and are not observed. *)
Lemma getFileIds_loop_elem observers n fuel :
  ∀ index ids x,
  x ∈ getFileIds_loop observers n fuel index ids →
  x ∈ ids ∨ ∃ k, (index ≤ k)%nat ∧ x = gpxId k ∧ x ∉ observers.
Proof.
  induction fuel as [|fuel IH]; intros index ids x; simpl.
  - destruct (decide _); by left.
  - destruct (decide (length ids < n)%nat); [|by left].
    intros [Hx|(k & Hk & Heq & Hout)]%IH; [|subst x].
    + destruct (decide (gpxId index ∈ observers)); [by left|].
      apply elem_of_app in Hx as [Hx| ->%list_elem_of_singleton]; [by left|].
      right. exists index. done.
    + right. exists k. split; [lia|done].
Qed.

Lemma getFileIds_loop_NoDup observers n fuel :
  ∀ index ids,
  NoDup ids → (∀ x, x ∈ ids → ∃ k, (k < index)%nat ∧ x = gpxId k) →
  NoDup (getFileIds_loop observers n fuel index ids).
Proof.
  induction fuel as [|fuel IH]; intros index ids Hnd Hids; simpl.
  - by destruct (decide _).
  - destruct (decide (length ids < n)%nat); [|done].
    apply IH.
    + destruct (decide (gpxId index ∈ observers)); [done|].
      apply list.NoDup_app. split_and!; [done| |apply NoDup_singleton].
      intros x (k & Hk & ->)%Hids ->%list_elem_of_singleton%gpxId_inj. lia.
    + intros x Hx. destruct (decide (gpxId index ∈ observers)).
      * apply Hids in Hx as (k & Hk & ->). exists k. split; [lia|done].
      * apply elem_of_app in Hx as [(k & Hk & ->)%Hids| ->%list_elem_of_singleton].
        -- exists k. split; [lia|done].
        -- exists index. split; [lia|done].
Qed.

(** With enough fuel the loop stops because it has [n] ids: [rest] holds the
    observed ids the loop has still to step over. *)
Lemma getFileIds_loop_length observers n fuel :
  ∀ index ids (rest : gset string),
  (∀ k, (index ≤ k)%nat → gpxId k ∈ observers → gpxId k ∈ rest) →
  (length ids ≤ n)%nat →
  (n - length ids + size rest ≤ fuel)%nat →
  length (getFileIds_loop observers n fuel index ids) = n.
Proof.
  induction fuel as [|fuel IH]; intros index ids rest Hrest Hle Hfuel; simpl.
  - destruct (decide _); lia.
  - destruct (decide (length ids < n)%nat) as [Hlt|]; [|lia].
    destruct (decide (gpxId index ∈ observers)) as [Hin|Hout].
    + apply (IH _ _ (rest ∖ {[gpxId index]})); [|done|].
      * intros k Hk Hobs. apply elem_of_difference. split.
        -- apply Hrest; [lia|done].
        -- intros ->%elem_of_singleton%gpxId_inj. lia.
      * assert (gpxId index ∈ rest) as Hr by (apply Hrest; [lia|done]).
        assert (size (rest ∖ {[gpxId index]}) = size rest - 1)%nat as ->.
        { rewrite size_difference by set_solver.
          by rewrite size_singleton. }
        assert (size rest ≠ 0)%nat.
        { intros H0%size_empty_inv. set_solver. }
        lia.
    + apply (IH _ _ rest).
      * intros k Hk Hobs. apply Hrest; [lia|done].
      * rewrite length_app. simpl. lia.
      * rewrite length_app. simpl. lia.
Qed.

Lemma getFileIds_length observers n : length (getFileIds observers n) = n.
Proof.
  unfold getFileIds. apply (getFileIds_loop_length _ _ _ _ _ observers).
  - done.
  - simpl. lia.
  - simpl. lia.
Qed.

Lemma getFileIds_NoDup observers n : NoDup (getFileIds observers n).
Proof.
  unfold getFileIds. apply getFileIds_loop_NoDup; [constructor|].
  by intros x ?%elem_of_nil.
Qed.

Lemma getFileIds_fresh observers n id :
  id ∈ getFileIds observers n → (id ∉ observers) ∧ ∃ k, id = gpxId k.
Proof.
  unfold getFileIds.
  intros [?%elem_of_nil|(k & _ & Heq & Hout)]%getFileIds_loop_elem; [done|].
  eauto.
Qed.

(** C9, as amended.  [getFileIds(n)] returns [n] ids of the form [gpx-k]
    that differ from one another and from the id of every file that is
    observed when it is called (the ids in the database).  Nothing keeps an
    id that was in use before from being returned. *)
Theorem getFileIds_unique observers n :
  length (getFileIds observers n) = n
  ∧ NoDup (getFileIds observers n)
  ∧ (∀ id, id ∈ getFileIds observers n →
       (id ∉ observers) ∧ ∃ k, id = gpxId k).
Proof.
  split_and!.
  - apply getFileIds_length.
  - apply getFileIds_NoDup.
  - apply getFileIds_fresh.
Qed.

(** C9, as stated, fails: the file added to the empty database gets the id
    [gpx-0]; once all files are deleted, the next file added, another
    document, gets [gpx-0] again. *)
Lemma getFileIds_counterexample :
  files <$> add None fileA emptyDatabase
  = Some ({["gpx-0" := fileA]} : DocumentState)
  ∧ files <$> ((add None fileA emptyDatabase ≫= deleteAllFiles)
                 ≫= add None fileEmpty)
    = Some ({["gpx-0" := fileEmpty]} : DocumentState)
  ∧ fileA ≠ fileEmpty.
Proof. split_and!; [vm_compute; reflexivity..|discriminate]. Qed.

(** ** Statistics tree *)

Section statistics_tree.
Context {Stats : Type} (emptyStatistics : Stats)
        (mergeWith : Stats → Stats → Stats).

Abbreviation statisticsFor := (getStatisticsFor emptyStatistics mergeWith).
Abbreviation childFor := (childStatistics emptyStatistics mergeWith).

(** No id at the level of the tree, or ['waypoints']: all the children are
    merged, in the order of their keys. *)
Lemma getStatisticsFor_all level statistics item :
  mergesAll (getIdAtLevel item level) = true →
  statisticsFor (mkGPXStatisticsTree level statistics) item
  = foldl (λ acc child, mergeWith acc (childFor child item))
          emptyStatistics statistics.
Proof.
  intros Hall. simpl. rewrite Hall.
  match goal with
  | |- ?f statistics _ = foldl ?g _ statistics =>
      assert (∀ l acc, f l acc = foldl g acc l) as Hfold
  end.
  { induction l as [|[s|c] l IH]; intros acc; simpl; [done|..]; apply IH. }
  apply Hfold.
Qed.

(** The id of a child: the statistics of this child; any other id: the
    empty statistics. *)
Lemma getStatisticsFor_child level statistics item i :
  mergesAll (getIdAtLevel item level) = false →
  keyOfId (getIdAtLevel item level) (length statistics) = Some i →
  statisticsFor (mkGPXStatisticsTree level statistics) item
  = match statistics !! i with
    | Some child => mergeWith emptyStatistics (childFor child item)
    | None => emptyStatistics
    end.
Proof.
  intros Hall Hkey. simpl. rewrite Hall, Hkey. clear Hkey.
  match goal with
  | |- ?f statistics i = _ =>
      assert (∀ l j, f l j
                = match l !! j with
                  | Some child => mergeWith emptyStatistics (childFor child item)
                  | None => emptyStatistics
                  end) as Hlookup
  end.
  { induction l as [|[s|c] l IH]; intros [|j]; simpl; try done; apply IH. }
  apply Hlookup.
Qed.

Lemma getStatisticsFor_no_key level statistics item :
  mergesAll (getIdAtLevel item level) = false →
  keyOfId (getIdAtLevel item level) (length statistics) = None →
  statisticsFor (mkGPXStatisticsTree level statistics) item = emptyStatistics.
Proof. intros Hall Hkey. simpl. by rewrite Hall, Hkey. Qed.
End statistics_tree.

(** C10.  [getStatisticsFor] is a function defined for every tree and every
    item, by recursion on the tree, with no error among its results.  When
    the id of the item at the level of the tree is [undefined] or
    ['waypoints'] it returns the merge of the statistics of all the
    children; when the id is the key of a child, the statistics of this
    child merged into empty statistics; and when the id is not the key of
    any child, the empty statistics. *)
Theorem getStatisticsFor_total {Stats : Type} (emptyStatistics : Stats)
    (mergeWith : Stats → Stats → Stats) level statistics item :
  let t := mkGPXStatisticsTree level statistics in
  let id := getIdAtLevel item level in
  let result := getStatisticsFor emptyStatistics mergeWith t item in
  (id = IdUndefined ∨ id = IdString "waypoints" →
   result = foldl (λ acc child,
                     mergeWith acc
                       (childStatistics emptyStatistics mergeWith child item))
                  emptyStatistics statistics)
  ∧ (∀ i child, id = IdNumber i → statistics !! i = Some child →
       result = mergeWith emptyStatistics
                  (childStatistics emptyStatistics mergeWith child item))
  ∧ (∀ i, id = IdNumber i → statistics !! i = None →
       result = emptyStatistics)
  ∧ (∀ s, id = IdString s → s ≠ "waypoints" →
       (∀ i, (i < length statistics)%nat → pretty i ≠ s) →
       result = emptyStatistics).
Proof.
  intros t id result. split_and!.
  - intros Hid. apply getStatisticsFor_all.
    change (mergesAll id = true). by destruct Hid as [-> | ->].
  - intros i child Hid Hchild. unfold result, t.
    rewrite (getStatisticsFor_child _ _ _ _ _ i).
    + by rewrite Hchild.
    + change (mergesAll id = false). by rewrite Hid.
    + change (keyOfId id (length statistics) = Some i). by rewrite Hid.
  - intros i Hid Hchild. unfold result, t.
    rewrite (getStatisticsFor_child _ _ _ _ _ i).
    + by rewrite Hchild.
    + change (mergesAll id = false). by rewrite Hid.
    + change (keyOfId id (length statistics) = Some i). by rewrite Hid.
  - intros s Hid Hs Hkeys. apply getStatisticsFor_no_key.
    + change (mergesAll id = false). rewrite Hid. simpl.
      by apply bool_decide_eq_false.
    + change (keyOfId id (length statistics) = None). rewrite Hid. simpl.
      destruct (list_find _ _) as [[j k]|] eqn:Hfind; [|done].
      apply list_find_Some in Hfind as (Hj & Hk & _).
      apply lookup_seq in Hj as [-> Hj]. exfalso. by apply (Hkeys _ Hj).
Qed.

Lemma getStatisticsFor_total_witness :
  getStatisticsFor O Nat.add countTree (ListFileItem "gpx-0") = 5%nat
  ∧ getStatisticsFor O Nat.add countTree (ListTrackItem "gpx-0" 2) = 2%nat
  ∧ getStatisticsFor O Nat.add countTree (ListTrackItem "gpx-0" 7) = O
  ∧ getStatisticsFor O Nat.add countTree (ListWaypointsItem "gpx-0") = 5%nat.
Proof.
  destruct (getStatisticsFor_total O Nat.add FILE (tree_statistics countTree)
              (ListFileItem "gpx-0")) as (Hall & _).
  destruct (getStatisticsFor_total O Nat.add FILE (tree_statistics countTree)
              (ListTrackItem "gpx-0" 2)) as (_ & Hchild & _).
  destruct (getStatisticsFor_total O Nat.add FILE (tree_statistics countTree)
              (ListTrackItem "gpx-0" 7)) as (_ & _ & Hnone & _).
  destruct (getStatisticsFor_total O Nat.add FILE (tree_statistics countTree)
              (ListWaypointsItem "gpx-0")) as (Hway & _).
  split_and!.
  - etransitivity; [exact (Hall (or_introl eq_refl))|].
    vm_compute; reflexivity.
  - etransitivity; [exact (Hchild 2%nat _ eq_refl eq_refl)|].
    vm_compute; reflexivity.
  - exact (Hnone 7%nat eq_refl eq_refl).
  - etransitivity; [exact (Hway (or_intror eq_refl))|].
    vm_compute; reflexivity.
Defined.

(** ** Extract: where the waypoints go *)


Lemma extractedSegmentFile_Some file track closest fileIds index segment :
  trk file = [track] →
  ∃ newFile,
    extractedSegmentFile file track closest fileIds index segment
    = Some newFile
    ∧ wpt newFile = waypointsOf file closest index
    ∧ trk newFile
      = [trackReplaceTrackSegments 0 (Z.of_nat (length (trkseg track)) - 1)
           [segment] track].
Proof.
  intros Htrk. unfold extractedSegmentFile, replaceTrackSegments.
  rewrite Htrk. simpl. eexists. split; [done|]. simpl.
  unfold replaceWaypoints. simpl. split; [apply replaceRange_all|done].
Qed.

(** *** The new files in the state *)

Lemma foldl_insert_other (kvs : list (string * GPXFile)) (d : DocumentState) k :
  k ∉ kvs.*1 → foldl (λ d kv, <[kv.1 := kv.2]> d) d kvs !! k = d !! k.
Proof.
  revert d. induction kvs as [|[k0 v0] kvs IH]; intros d Hk; simpl; [done|].
  simpl in Hk. apply not_elem_of_cons in Hk as [Hne Hk].
  rewrite IH by done. by apply lookup_insert_ne.
Qed.

Lemma foldl_insert_lookup (kvs : list (string * GPXFile)) (d : DocumentState) k v :
  NoDup kvs.*1 → (k, v) ∈ kvs →
  foldl (λ d kv, <[kv.1 := kv.2]> d) d kvs !! k = Some v.
Proof.
  revert d. induction kvs as [|[k0 v0] kvs IH]; intros d Hnd Hin; simpl.
  - by apply elem_of_nil in Hin.
  - simpl in Hnd. apply list.NoDup_cons in Hnd as [Hk0 Hnd].
    apply elem_of_cons in Hin as [[= -> ->] | Hin].
    + rewrite foldl_insert_other by done. apply lookup_insert_eq.
    + by apply IH.
Qed.

Lemma foldlM_Some {A B} (f : B → A → option B) (g : B → A → B) b l :
  (∀ b x, x ∈ l → f b x = Some (g b x)) → foldlM f b l = Some (foldl g b l).
Proof.
  revert b. induction l as [|x l IH]; intros b Hfg; simpl; [done|].
  rewrite Hfg by left. apply IH. intros b' y Hy. apply Hfg. by right.
Qed.

Lemma elem_of_indexed {A} o (l : list A) i x :
  (i, x) ∈ indexed o l ↔ ∃ j, i = (o + j)%nat ∧ l !! j = Some x.
Proof.
  unfold indexed. rewrite list_elem_of_lookup. split.
  - intros (j & Hj). apply list_lookup_imap_Some in Hj as (y & Hy & [= -> ->]).
    eauto.
  - intros (j & -> & Hj). exists j. rewrite list_lookup_imap, Hj. done.
Qed.

(** The keys under which the new files are stored are the ids generated for
    them, one per group. *)
Lemma indexed_keys {A B} (ids : list string) (val : nat → A → B) (l : list A) :
  length l = length ids →
  ((λ x : nat * A, (default "undefined" (ids !! x.1), val x.1 x.2))
     <$> indexed 0 l).*1 = ids.
Proof.
  intros Hlen. apply list_eq. intros i.
  rewrite list_lookup_fmap, list_lookup_fmap. unfold indexed.
  rewrite list_lookup_imap.
  destruct (l !! i) as [x|] eqn:Hx; simpl.
  - apply lookup_lt_Some in Hx. rewrite Hlen in Hx.
    apply lookup_lt_is_Some_2 in Hx as [id Hid]. by rewrite Hid.
  - apply lookup_ge_None_1 in Hx. rewrite Hlen in Hx.
    by rewrite lookup_ge_None_2.
Qed.

(** Extracting a file with several tracks stores, for every track, the new
    file under the id generated for it. *)
Lemma extractFile_tracks distance observers file (draft : DocumentState)
    track1 track2 tracks :
  trk file = track1 :: track2 :: tracks →
  let fileIds := getFileIds observers (length (trk file)) in
  ∃ d, extractFile distance observers file draft = Some d
    ∧ ∀ index track, trk file !! index = Some track →
        ∃ id, fileIds !! index = Some id
          ∧ d !! id = Some (extractedTrackFile file
                              (closestTracks distance file) fileIds
                              index track).
Proof.
  intros Htrk fileIds. unfold extractFile. rewrite Htrk, <- Htrk.
  fold fileIds. eexists. split; [done|].
  intros index track Htrack. rewrite imap_pair_indexed.
  set (kv := λ x : nat * Track,
         (default "undefined" (fileIds !! x.1),
          extractedTrackFile file (closestTracks distance file) fileIds
            x.1 x.2)).
  assert (length (trk file) = length fileIds) as Hlen
    by (unfold fileIds; by rewrite getFileIds_length).
  assert (is_Some (fileIds !! index)) as [id Hid].
  { apply lookup_lt_is_Some_2. rewrite <- Hlen. by apply lookup_lt_Some in Htrack. }
  exists id. split; [done|].
  erewrite (foldl_ext_eq _ (λ d x, <[(kv x).1 := (kv x).2]> d));
    [|by intros d [i t]].
  rewrite <- (foldl_fmap (λ d kv, <[kv.1 := kv.2]> d) draft _ kv).
  apply foldl_insert_lookup.
  - unfold kv. rewrite (indexed_keys fileIds) by done.
    apply getFileIds_NoDup.
  - apply list_elem_of_fmap. exists (index, track). split.
    + unfold kv. simpl. by rewrite Hid.
    + apply elem_of_indexed. by exists index.
Qed.


Lemma tracksOfSegments_lookup track k :
  tracksOfSegments track !! k
  = (λ segment,
       mkTrack (if truthy (trk_name track)
                then Some (numbered (default "" (trk_name track)) k)
                else trk_name track)
               [segment]) <$> trkseg track !! k.
Proof.
  unfold tracksOfSegments. rewrite list_lookup_imap.
  destruct (trkseg track !! k) as [segment|]; [|done]. simpl. f_equal.
  unfold trackReplaceTrackSegments. rewrite replaceRange_all.
  by destruct (truthy (trk_name track)).
Qed.

Section extract_nearest.
Context (distance : Coordinates → Coordinates → Q).

End extract_nearest.







(** ** Operations on an empty selection *)

Lemma applyToOrderedItemsFromFile_nil fileOrder rev :
  applyToOrderedItemsFromFile fileOrder [] rev = [].
Proof.
  unfold applyToOrderedItemsFromFile.
  induction fileOrder as [|f fileOrder IH]; [done|]. exact IH.
Qed.

Lemma patchesFor_same id o : patchesFor id o o = ([], []).
Proof. destruct o as [v|]; simpl; [|done]. by rewrite decide_True. Qed.

Lemma diff_same (st : DocumentState) : diff st st = ([], []).
Proof.
  unfold diff. induction (elements _) as [|k ks IH]; simpl; [done|].
  by rewrite IH, patchesFor_same.
Qed.

(** A transaction whose callback changes nothing is committed all the same,
    with an empty patch pair. *)
Lemma applyGlobal_unchanged callback db :
  callback (files db) = Some (files db) →
  applyGlobal callback db = Some (storePatches [] [] db).
Proof.
  intros Hcb. unfold applyGlobal, produceWithPatches. rewrite Hcb.
  rewrite diff_same. simpl. f_equal.
Qed.

(** C8 on the code.  With an empty selection, [cropSelection],
    [deleteSelection] and [deleteSelectedFiles] return at once and leave the
    database as it is.  [mergeSelection] and [extractSelection] have no such
    test: they commit a transaction with an empty patch pair, which leaves
    the files as they are but truncates and prunes the log, stores a new
    entry and moves the cursor up by one. *)
Theorem empty_selection_operations blend distance fileOrder mergeTraces
    start end_ db :
  cropSelection fileOrder [] start end_ db = Some db
  ∧ deleteSelection fileOrder [] db = Some db
  ∧ deleteSelectedFiles fileOrder [] db = Some db
  ∧ mergeSelection blend fileOrder [] mergeTraces db
    = Some (storePatches [] [] db)
  ∧ extractSelection distance fileOrder [] db = Some (storePatches [] [] db)
  ∧ files (storePatches [] [] db) = files db
  ∧ patchIndex (storePatches [] [] db) = patchIndex db + 1
  ∧ patches (storePatches [] [] db) !! (patchIndex db + 1)
    = Some (mkPatchEntry [] [] (patchIndex db + 1))
  ∧ (∀ k, patchIndex db + 1 < k →
       patches (storePatches [] [] db) !! k = None)
  ∧ storePatches [] [] db ≠ db.
Proof.
  split_and!; try done.
  - unfold mergeSelection. rewrite applyToOrderedItemsFromFile_nil.
    by apply applyGlobal_unchanged.
  - unfold extractSelection. rewrite applyToOrderedItemsFromFile_nil.
    by apply applyGlobal_unchanged.
  - apply storePatches_entry.
  - intros k Hk.
    destruct (patches (storePatches [] [] db) !! k) as [e|] eqn:He; [|done].
    apply lookup_storePatches in He as [[? _]|[? _]]; lia.
  - intros Heq. apply (f_equal patchIndex) in Heq.
    rewrite patchIndex_storePatches in Heq. lia.
Qed.

(** * Further properties of the history *)

Lemma keyed_empty : keyed ∅.
Proof. intros k f. by rewrite lookup_empty. Qed.

Lemma keyed_insert (st : DocumentState) f :
  keyed st → keyed (<[file_id f := f]> st).
Proof.
  intros Hst k g. destruct (decide (k = file_id f)) as [->|Hk].
  - rewrite lookup_insert_eq. by intros [= <-].
  - rewrite lookup_insert_ne by done. apply Hst.
Qed.

Lemma keyed_delete (st : DocumentState) id : keyed st → keyed (delete id st).
Proof. intros Hst k g [_ Hg]%lookup_delete_Some. by apply Hst. Qed.

Lemma keyed_foldl_put (fs : list GPXFile) (m : DocumentState) :
  keyed m → keyed (foldl (λ m f, <[file_id f := f]> m) m fs).
Proof.
  revert m. induction fs as [|f fs IH]; intros m Hm; simpl; [done|].
  by apply IH, keyed_insert.
Qed.

(** A commit writes every file under its own id. *)
Lemma commitFileStateChange_keyed new ps db :
  keyed (files db) → keyed (files (commitFileStateChange new ps db)).
Proof.
  intros Hk k f. unfold commitFileStateChange. simpl.
  rewrite lookup_foldl_delete. case_decide; [done|].
  by apply keyed_foldl_put.
Qed.

Lemma files_undo db :
  files (undo db) = files db
  ∨ ∃ new ps, files (undo db) = files (commitFileStateChange new ps db).
Proof.
  unfold undo, applyPatch. destruct (canUndo db); [|by left].
  destruct (patches db !! patchIndex db); [|by left].
  destruct (applyPatches (files db) _); [|by left]. right. eauto.
Qed.

Lemma files_redo db :
  files (redo db) = files db
  ∨ ∃ new ps, files (redo db) = files (commitFileStateChange new ps db).
Proof.
  unfold redo, applyPatch. destruct (canRedo db); [|by left].
  destruct (patches db !! (patchIndex db + 1)); [|by left].
  destruct (applyPatches (files db) _); [|by left]. right. eauto.
Qed.

Lemma patchIndex_undo db :
  patchIndex (undo db) = patchIndex db
  ∨ (canUndo db = true ∧ patchIndex (undo db) = patchIndex db - 1).
Proof.
  unfold undo, applyPatch. destruct (canUndo db); [|by left].
  destruct (patches db !! patchIndex db); [|by left].
  destruct (applyPatches (files db) _); [|by left]. by right.
Qed.

Lemma patchIndex_redo db :
  patchIndex (redo db) = patchIndex db
  ∨ (canRedo db = true ∧ patchIndex (redo db) = patchIndex db + 1).
Proof.
  unfold redo, applyPatch. destruct (canRedo db); [|by left].
  destruct (patches db !! (patchIndex db + 1)); [|by left].
  destruct (applyPatches (files db) _); [|by left]. by right.
Qed.

Lemma patchMinMaxIndex_patches db db' :
  patches db' = patches db → patchMinMaxIndex db' = patchMinMaxIndex db.
Proof. unfold patchMinMaxIndex. by intros ->. Qed.

Lemma undo_log_wf db : log_wf db → log_wf (undo db).
Proof.
  intros [Hdom Hcur]. unfold log_wf.
  rewrite (patchMinMaxIndex_patches db (undo db) (patches_undo db)),
    patches_undo.
  split; [done|].
  destruct (patchIndex_undo db) as [->|[Hcan ->]]; [done|].
  apply bool_decide_eq_true in Hcan. lia.
Qed.

Lemma redo_log_wf db : log_wf db → log_wf (redo db).
Proof.
  intros [Hdom Hcur]. unfold log_wf.
  rewrite (patchMinMaxIndex_patches db (redo db) (patches_redo db)),
    patches_redo.
  split; [done|].
  destruct (patchIndex_redo db) as [->|[Hcan ->]]; [done|].
  apply bool_decide_eq_true in Hcan. lia.
Qed.

Lemma applyGlobal_log_wf callback db db' :
  applyGlobal callback db = Some db' → log_wf db → log_wf db'.
Proof.
  intros (new & _ & ->)%applyGlobal_Some Hwf.
  apply (storePatches_log_wf (diff (files db) new).1 (diff (files db) new).2)
    in Hwf.
  exact Hwf.
Qed.

(** X1.  Every database that transactions, undo and redo lead to from the
    empty one keeps the invariants of the history: the keys of the log are
    the integers of [[min, max)] with the cursor within [[min - 1, max - 1]],
    the log has at most [MAX_PATCHES] entries, and every file of the table
    is stored under its own [_data.id]. *)
Theorem reachable_invariants db :
  reachable db →
  log_wf db
  ∧ (size (patches db) ≤ Z.to_nat MAX_PATCHES)%nat
  ∧ keyed (files db).
Proof.
  induction 1 as [|callback db db' _ (Hwf & Hsize & Hkeyed) Hcommit
                  |db _ (Hwf & Hsize & Hkeyed)|db _ (Hwf & Hsize & Hkeyed)].
  - split_and!; [apply emptyDatabase_log_wf| |].
    + change (patches emptyDatabase) with (∅ : gmap Z PatchEntry).
      rewrite map_size_empty. unfold MAX_PATCHES. lia.
    + intros k f. change (files emptyDatabase) with (∅ : DocumentState).
      by rewrite lookup_empty.
  - split_and!.
    + by apply (applyGlobal_log_wf callback db).
    + apply applyGlobal_Some in Hcommit as (new & _ & ->).
      rewrite patches_commitFileStateChange. apply storePatches_size.
    + apply applyGlobal_Some in Hcommit as (new & _ & ->).
      apply commitFileStateChange_keyed. by rewrite files_storePatches.
  - split_and!; [by apply undo_log_wf|by rewrite patches_undo|].
    destruct (files_undo db) as [->|(new & ps & ->)]; [done|].
    by apply commitFileStateChange_keyed.
  - split_and!; [by apply redo_log_wf|by rewrite patches_redo|].
    destruct (files_redo db) as [->|(new & ps & ->)]; [done|].
    by apply commitFileStateChange_keyed.
Qed.

Lemma reachable_invariants_witness :
  log_wf (undo db1)
  ∧ (size (patches (undo db1)) ≤ Z.to_nat MAX_PATCHES)%nat
  ∧ keyed (files (undo db1)).
Proof.
  apply reachable_invariants, reachable_undo.
  apply (reachable_applyGlobal
           (λ draft, Some (<["gpx-0" := with_id "gpx-0" file0]> draft))
           emptyDatabase).
  - apply reachable_empty.
  - vm_compute. reflexivity.
Defined.

(** After a commit the last key of the log is the new cursor. *)
Lemma dom_storePatches_le p inv db k :
  k ∈ dom (patches (storePatches p inv db)) → k ≤ patchIndex db + 1.
Proof. intros [->|[? _]]%dom_storePatches; lia. Qed.

Lemma storePatches_top p inv db :
  max (patchMinMaxIndex (storePatches p inv db)) = patchIndex db + 2.
Proof.
  set (db' := storePatches p inv db).
  assert (patches db' ≠ ∅) as Hne.
  { intros He. pose proof (storePatches_entry p inv db) as Hl.
    fold db' in Hl. rewrite He in Hl. by rewrite lookup_empty in Hl. }
  destruct (patchMinMaxIndex_keys db' Hne) as [_ Hmax].
  apply dom_storePatches_le in Hmax.
  assert (patchIndex db + 1 ∈ dom (patches db')) as Hnew.
  { apply elem_of_dom. unfold db'. rewrite storePatches_entry. eauto. }
  apply patchMinMaxIndex_bounds in Hnew. lia.
Qed.

(** X2.  A committed transaction moves the cursor up by one onto its own
    entry and leaves no entry above it: whatever had been undone before can
    no longer be redone, and [redo] is then a no-op. *)
Theorem applyGlobal_discards_redo callback db db' :
  applyGlobal callback db = Some db' →
  patchIndex db' = patchIndex db + 1
  ∧ canUndo db' = true
  ∧ canRedo db' = false
  ∧ redo db' = db'
  ∧ ∀ k, patchIndex db' < k → patches db' !! k = None.
Proof.
  intros (new & _ & ->)%applyGlobal_Some.
  set (p := (diff (files db) new).1). set (inv := (diff (files db) new).2).
  assert (canRedo (commitFileStateChange new p (storePatches p inv db))
          = false) as Hredo.
  { apply bool_decide_eq_false.
    change (¬ patchIndex db + 1
              < max (patchMinMaxIndex (storePatches p inv db)) - 1).
    rewrite storePatches_top. lia. }
  split_and!; [done|apply (canUndo_storePatches p inv db)|done
              |by apply redo_no_op|].
  intros k Hk. apply not_elem_of_dom. intros Hin.
  apply dom_storePatches_le in Hin.
  change (patchIndex db + 1 < k) in Hk. lia.
Qed.

Lemma applyGlobal_discards_redo_witness :
  patchIndex db1 = patchIndex (undo db1) + 1
  ∧ canUndo db1 = true
  ∧ canRedo db1 = false
  ∧ redo db1 = db1
  ∧ ∀ k, patchIndex db1 < k → patches db1 !! k = None.
Proof.
  apply (applyGlobal_discards_redo
           (λ draft, Some (<["gpx-0" := with_id "gpx-0" file0]> draft))
           (undo db1)).
  vm_compute. reflexivity.
Defined.

(** ** Undoing and redoing a sequence of transactions *)

(** One undo at a cursor that points at an entry whose inverse patch leads
    from the files to [S] and whose patch leads back: the files are [S],
    the cursor is one lower, and redo gives the database back. *)
Lemma redo_undo_entry u e S i :
  patchIndexSetting u = Some i → patches u !! i = Some e →
  applyPatches (files u) (inversePatch e) = Some S →
  applyPatches S (patch e) = Some (files u) →
  keyed S → keyed (files u) →
  undo u = mkDatabase S (patches u) (Some (i - 1)) ∧ redo (undo u) = u.
Proof.
  intros Hset He Hinv Hfwd HkS Hku.
  assert (patchIndex u = i) as Hcur by (unfold patchIndex; by rewrite Hset).
  assert (i ∈ dom (patches u)) as Hin by (apply elem_of_dom; eauto).
  pose proof (patchMinMaxIndex_bounds u i Hin) as Hb.
  assert (canUndo u = true) as Hcan
    by (apply bool_decide_eq_true; rewrite Hcur; lia).
  rewrite <- Hcur in He.
  assert (undo u = mkDatabase S (patches u) (Some (i - 1))) as Hundo.
  { rewrite (undo_step u e S Hcan He Hinv). unfold set_patchIndex.
    rewrite (applyPatch_files _ u S HkS Hinv), Hcur. done. }
  split; [done|]. rewrite Hundo.
  set (v := mkDatabase S (patches u) (Some (i - 1))).
  assert (patchIndex v + 1 = i) as Hv by (change (i - 1 + 1 = i); lia).
  assert (canRedo v = true) as Hcan'.
  { apply bool_decide_eq_true.
    rewrite (patchMinMaxIndex_patches u v) by done. lia. }
  assert (patches v !! (patchIndex v + 1) = Some e) as He'
    by (rewrite Hv, <- Hcur; exact He).
  rewrite (redo_step v e (files u) Hcan' He' Hfwd). unfold set_patchIndex.
  rewrite (applyPatch_files _ v (files u) Hku Hfwd), Hv.
  change (patches (commitFileStateChange (files u) (patch e) v))
    with (patches u).
  rewrite <- Hset. by destruct u.
Qed.

(** The entries that a sequence of commits keeps: with the cursor on the
    last key, an entry survives as long as fewer than [MAX_PATCHES] commits
    have passed its key. *)
Lemma applyGlobals_keeps callbacks db db' k e :
  applyGlobals callbacks db = Some db' →
  max (patchMinMaxIndex db) = patchIndex db + 1 →
  patches db !! k = Some e →
  patchIndex db + Z.of_nat (length callbacks) - MAX_PATCHES < k →
  patches db' !! k = Some e.
Proof.
  unfold applyGlobals. revert db.
  induction callbacks as [|cb cbs IH]; intros db Hrun Htop Hk Hlen; simpl in *.
  - by injection Hrun as <-.
  - destruct (applyGlobal cb db) as [db1|] eqn:H1; [|done].
    apply applyGlobal_Some in H1 as (new & _ & ->).
    assert (k ∈ dom (patches db)) as Hin by (apply elem_of_dom; eauto).
    apply patchMinMaxIndex_bounds in Hin.
    apply (IH _ Hrun).
    + change (max (patchMinMaxIndex (storePatches (diff (files db) new).1
                (diff (files db) new).2 db)) = patchIndex db + 1 + 1).
      rewrite storePatches_top. lia.
    + rewrite patches_commitFileStateChange. apply lookup_storePatches.
      right. split_and!; [lia|done|lia].
    + rewrite patchIndex_commitFileStateChange, patchIndex_storePatches. lia.
Qed.

Lemma tables_transaction callback prog prog' :
  transaction callback prog = Some prog' →
  applyGlobalOn (cache prog) callback (tables prog) = Some (tables prog').
Proof.
  unfold transaction, applyGlobalOn.
  destruct (produceWithPatches (cache prog) callback) as [[[new p] inv]|];
    [|done].
  intros [= <-]. unfold subscribers. simpl. by destruct (_ || _).
Qed.

(** A frozen cache stays frozen. *)
Lemma transaction_frozen callback prog prog' :
  transaction callback prog = Some prog' →
  isFrozen prog = true → isFrozen prog' = true.
Proof.
  unfold transaction.
  destruct (produceWithPatches (cache prog) callback) as [[[new p] inv]|];
    [|done].
  intros [= <-] ->. done.
Qed.

Lemma transactions_frozen callbacks prog prog' :
  transactions callbacks prog = Some prog' →
  isFrozen prog = true → isFrozen prog' = true.
Proof.
  unfold transactions. revert prog.
  induction callbacks as [|cb cbs IH]; intros prog; simpl.
  - by intros [= <-].
  - destruct (transaction cb prog) as [prog1|] eqn:H1; [|done]. simpl.
    intros Hrun Hfrozen. apply (IH prog1 Hrun).
    by apply (transaction_frozen cb prog).
Qed.

(** A transaction on a program in step that does not freeze the cache is
    the transaction on the tables, it has changed the files, and the
    program is in step after it. *)
Lemma transaction_inStep callback prog prog' :
  inStep prog → transaction callback prog = Some prog' →
  isFrozen prog' = false →
  applyGlobal callback (tables prog) = Some (tables prog')
  ∧ inStep prog'
  ∧ callback (files (tables prog)) ≠ Some (files (tables prog)).
Proof.
  intros [Hfrozen Hcache] Htr Hfrozen'.
  pose proof (tables_transaction _ _ _ Htr) as Htables.
  rewrite Hcache in Htables. split; [exact Htables|].
  unfold transaction, produceWithPatches in Htr. rewrite Hcache, Hfrozen in Htr.
  destruct (callback (files (tables prog))) as [new|]; [|done].
  injection Htr as <-. unfold subscribers in *. cbn [isFrozen orb] in *.
  destruct (bool_decide (new = files (tables prog))) eqn:Hnew; [done|].
  apply bool_decide_eq_false in Hnew. split; [done|]. congruence.
Qed.

(** One step of undo or redo on a program in step, when the patch changes
    the files: the step on the tables, and the program is in step after
    it. *)
Lemma patched_inStep index ps prog S :
  inStep prog → applyPatches (files (tables prog)) ps = Some S →
  S ≠ files (tables prog) →
  let db := set_patchIndex index (commitFileStateChange S ps (tables prog)) in
  patched index ps prog = mkProgram db (files db) false.
Proof.
  intros [Hfrozen Hcache] Happ Hne db. unfold patched.
  rewrite Hcache, Happ, Hfrozen. unfold subscribers. cbn [isFrozen orb].
  by rewrite bool_decide_eq_false_2.
Qed.

(** One undo of a program in step whose cursor points at an entry whose
    inverse patch leads from the files to other files [S] and whose patch
    leads back: the files are [S], the cursor is one lower, the program is
    in step, and redo gives the program back. *)
Lemma redoProgram_undoProgram_entry u e S i :
  inStep u →
  patchIndexSetting (tables u) = Some i → patches (tables u) !! i = Some e →
  applyPatches (files (tables u)) (inversePatch e) = Some S →
  applyPatches S (patch e) = Some (files (tables u)) →
  keyed S → keyed (files (tables u)) → S ≠ files (tables u) →
  undoProgram u
  = mkProgram (mkDatabase S (patches (tables u)) (Some (i - 1))) S false
  ∧ redoProgram (undoProgram u) = u.
Proof.
  intros Hstep Hset He Hinv Hfwd HkS Hku Hne.
  destruct (redo_undo_entry (tables u) e S i Hset He Hinv Hfwd HkS Hku)
    as [Hundo Hredo].
  assert (patchIndex (tables u) = i) as Hcur
    by (unfold patchIndex; by rewrite Hset).
  assert (i ∈ dom (patches (tables u))) as Hin by (apply elem_of_dom; eauto).
  pose proof (patchMinMaxIndex_bounds (tables u) i Hin) as Hb.
  assert (canUndo (tables u) = true) as Hcan
    by (apply bool_decide_eq_true; rewrite Hcur; lia).
  rewrite <- Hcur in He.
  assert (undoProgram u
          = mkProgram (undo (tables u)) (files (undo (tables u))) false)
    as HundoP.
  { unfold undoProgram. rewrite Hcan, He.
    rewrite (patched_inStep _ _ u S Hstep Hinv Hne).
    by rewrite (undo_step (tables u) e S Hcan He Hinv). }
  rewrite HundoP, Hundo. split; [done|]. cbn [files].
  set (v := mkDatabase S (patches (tables u)) (Some (i - 1))) in *.
  assert (patchIndex v + 1 = i) as Hv by (change (i - 1 + 1 = i); lia).
  assert (canRedo v = true) as Hcan'.
  { apply bool_decide_eq_true.
    rewrite (patchMinMaxIndex_patches (tables u) v) by done. lia. }
  assert (patches v !! (patchIndex v + 1) = Some e) as He'
    by (rewrite Hv, <- Hcur; exact He).
  unfold redoProgram. cbn [tables]. rewrite Hcan', He'.
  rewrite (patched_inStep _ _ (mkProgram v S false) (files (tables u)));
    [|done|done|cbn; congruence].
  cbn [tables].
  pose proof (redo_step v e (files (tables u)) Hcan' He' Hfwd) as Hstep'.
  rewrite Hundo in Hredo. rewrite <- Hstep', Hredo.
  destruct Hstep as [Hfrozen Hcache]. rewrite <- Hcache, <- Hfrozen.
  by destruct u.
Qed.

Lemma transactions_applyGlobals callbacks prog prog' :
  inStep prog → transactions callbacks prog = Some prog' →
  isFrozen prog' = false →
  applyGlobals callbacks (tables prog) = Some (tables prog') ∧ inStep prog'.
Proof.
  unfold transactions, applyGlobals. revert prog.
  induction callbacks as [|cb cbs IH]; intros prog Hstep; simpl.
  - by intros [= <-].
  - destruct (transaction cb prog) as [prog1|] eqn:H1; [|done]. simpl.
    intros Hrun Hfrozen.
    assert (isFrozen prog1 = false) as Hfrozen1.
    { destruct (isFrozen prog1) eqn:Hf; [|done].
      by rewrite (transactions_frozen cbs prog1 prog' Hrun Hf) in Hfrozen. }
    destruct (transaction_inStep cb prog prog1 Hstep H1 Hfrozen1)
      as (-> & Hstep1 & _).
    simpl. by apply IH.
Qed.

(** X3.  Up to [MAX_PATCHES] transactions in a row, each followed by the
    subscribers, none of which has left the files as they were (so that the
    cache is not frozen in the end), on a program whose cache is not frozen
    and holds the table, can be undone completely: when the callbacks keep
    every file under its own id, which is not the empty string, as many
    undos as there were transactions give back the files and the cursor of
    before, and as many redos after that give back the program the
    transactions had left, log included.  The cache is not frozen and holds
    the table after the transactions and after the undos. *)
Theorem undo_redo_all callbacks prog prog' :
  inStep prog → named (files (tables prog)) →
  (∀ cb S S', cb ∈ callbacks → named S → cb S = Some S' → named S') →
  (length callbacks ≤ Z.to_nat MAX_PATCHES)%nat →
  transactions callbacks prog = Some prog' →
  isFrozen prog' = false →
  let undone := Nat.iter (length callbacks) undoProgram prog' in
  inStep prog' ∧ inStep undone
  ∧ files (tables undone) = files (tables prog)
  ∧ patchIndex (tables undone) = patchIndex (tables prog)
  ∧ patches (tables undone) = patches (tables prog')
  ∧ Nat.iter (length callbacks) redoProgram undone = prog'.
Proof.
  intros Hstep Hkeyed Hcbs Hlen Hrun Hfrozen undone. unfold undone.
  clear undone.
  cut (inStep prog'
       ∧ inStep (Nat.iter (length callbacks) undoProgram prog')
       ∧ files (tables (Nat.iter (length callbacks) undoProgram prog'))
         = files (tables prog)
       ∧ patchIndex (tables (Nat.iter (length callbacks) undoProgram prog'))
         = patchIndex (tables prog)
       ∧ patches (tables (Nat.iter (length callbacks) undoProgram prog'))
         = patches (tables prog')
       ∧ Nat.iter (length callbacks) redoProgram
           (Nat.iter (length callbacks) undoProgram prog') = prog'
       ∧ (is_Some (patchIndexSetting (tables prog)) →
          is_Some (patchIndexSetting
                     (tables (Nat.iter (length callbacks) undoProgram
                                prog'))))).
  { intros (? & ? & ? & ? & ? & ? & _). done. }
  unfold transactions in Hrun. revert prog Hstep Hkeyed Hrun.
  induction callbacks as [|cb cbs IH]; intros prog Hstep Hnamed Hrun.
  - simpl in *. injection Hrun as <-. done.
  - simpl in Hrun.
    destruct (transaction cb prog) as [prog1|] eqn:Htr; [|done].
    simpl in Hrun.
    assert (isFrozen prog1 = false) as Hfrozen1.
    { destruct (isFrozen prog1) eqn:Hf; [|done].
      by rewrite (transactions_frozen cbs prog1 prog' Hrun Hf) in Hfrozen. }
    destruct (transaction_inStep cb prog prog1 Hstep Htr Hfrozen1)
      as (H1 & Hstep1 & Hchanged).
    set (db := tables prog) in *. set (db1 := tables prog1) in *.
    destruct (applyGlobal_stored_pair _ _ _ H1)
      as (S' & e & HS' & He & Hf & Hi).
    assert (named S') as HnS' by (apply (Hcbs cb (files db)); [left|done..]).
    destruct HnS' as [HkS' HeS']. destruct Hnamed as [Hkeyed Hempty].
    pose proof (applyGlobal_files _ _ _ _ H1 HS' HkS') as Hfiles.
    assert (S' ≠ files db) as Hne by (intros ->; by apply Hchanged).
    assert (patchIndexSetting db1 = Some (patchIndex db + 1)) as Hset1.
    { apply applyGlobal_Some in H1 as (new & _ & ->). done. }
    assert (patchIndex db1 = patchIndex db + 1) as Hcur1
      by (unfold patchIndex at 1; by rewrite Hset1).
    assert (max (patchMinMaxIndex db1) = patchIndex db1 + 1) as Htop.
    { rewrite Hcur1. apply applyGlobal_Some in H1 as (new & _ & ->).
      change (max (patchMinMaxIndex (storePatches (diff (files db) new).1
                (diff (files db) new).2 db)) = patchIndex db + 1 + 1).
      rewrite storePatches_top. lia. }
    simpl in Hlen.
    destruct (transactions_applyGlobals cbs prog1 prog' Hstep1 Hrun Hfrozen)
      as [Hrun1 _]. fold db1 in Hrun1.
    destruct (IH (λ cb' S1 S2 Hin, Hcbs cb' S1 S2 (proj2 (elem_of_cons _ _ _) (or_intror Hin)))
                ltac:(lia) prog1 Hstep1 ltac:(fold db1; by rewrite Hfiles)
                Hrun)
      as (IHstep' & IHstep & IHf & IHc & IHp & IHr & IHs).
    fold db1 in IHf, IHc, IHs.
    set (u := Nat.iter (length cbs) undoProgram prog') in *.
    destruct (IHs ltac:(rewrite Hset1; eauto)) as [i Hi'].
    assert (i = patchIndex db1) as ->.
    { rewrite <- IHc. unfold patchIndex. by rewrite Hi'. }
    assert (patches (tables u) !! patchIndex db1 = Some e) as Hentry.
    { rewrite IHp.
      apply (applyGlobals_keeps cbs db1 (tables prog') _ e Hrun1 Htop He).
      unfold MAX_PATCHES in *. lia. }
    destruct (redoProgram_undoProgram_entry u e (files db) (patchIndex db1))
      as [Hundo Hredo]; try done.
    + by rewrite IHf, Hfiles.
    + by rewrite IHf, Hfiles.
    + by rewrite IHf, Hfiles.
    + by rewrite IHf, Hfiles.
    + change (Nat.iter (length (cb :: cbs)) undoProgram prog')
        with (undoProgram u).
      change (length (cb :: cbs)) with (S (length cbs)).
      rewrite Nat.iter_succ_r, Hredo, Hundo. cbn [tables files patches].
      split_and!;
        [done|done|done|change (patchIndex db1 - 1 = patchIndex db); lia
        |done|done|simpl; eauto].
Qed.

Lemma undo_redo_all_witness :
  (inStep program2 ∧ inStep (Nat.iter 2 undoProgram program2)
   ∧ files (tables (Nat.iter 2 undoProgram program2))
     = files (tables emptyProgram)
   ∧ patchIndex (tables (Nat.iter 2 undoProgram program2))
     = patchIndex (tables emptyProgram)
   ∧ patches (tables (Nat.iter 2 undoProgram program2))
     = patches (tables program2)
   ∧ Nat.iter 2 redoProgram (Nat.iter 2 undoProgram program2) = program2)
  ∧ isFrozen <$> transactions [clearFiles] emptyProgram = Some true.
Proof.
  split; [|vm_compute; reflexivity].
  apply (undo_redo_all [putFile0; clearFiles] emptyProgram program2).
  - done.
  - split; [apply keyed_empty|done].
  - intros cb S S' [->|[->|[]%elem_of_nil]%elem_of_cons]%elem_of_cons
      [HS Hempty].
    + intros [= <-]. split.
      * by apply (keyed_insert S (with_id "gpx-0" file0)).
      * by rewrite lookup_insert_ne.
    + intros [= <-]. split; [apply keyed_empty|done].
  - simpl. unfold MAX_PATCHES. lia.
  - vm_compute. reflexivity.
  - vm_compute. reflexivity.
Defined.

(** * Further properties of the file ids *)

Lemma getFileIds_loop_spec observers n fuel :
  ∀ index ids, (length ids ≤ n)%nat →
  getFileIds_loop observers n fuel index ids
  = ids ++ take (n - length ids)
             (filter (λ id, id ∉ observers) (gpxId <$> seq index fuel)).
Proof.
  induction fuel as [|fuel IH]; intros index ids Hle; simpl.
  - rewrite filter_nil, take_nil, app_nil_r. by destruct (decide _).
  - destruct (decide (length ids < n)%nat) as [Hlt|Hge].
    + rewrite filter_cons.
      destruct (decide (gpxId index ∈ observers)) as [Hin|Hout].
      * rewrite decide_False by (intros Hn; by apply Hn). by apply IH.
      * rewrite decide_True by done. rewrite IH by (rewrite length_app; simpl; lia).
        rewrite length_app, <- app_assoc. simpl.
        destruct (n - length ids)%nat as [|m] eqn:Hm; [lia|]. simpl.
        do 3 f_equal. lia.
    + replace (n - length ids)%nat with O by lia. by rewrite app_nil_r.
Qed.

Lemma getFileIds_take_filter observers n :
  getFileIds observers n
  = take n (filter (λ id, id ∉ observers)
              (gpxId <$> seq 0 (n + size observers))).
Proof.
  unfold getFileIds. rewrite getFileIds_loop_spec by (simpl; lia).
  simpl. by rewrite Nat.sub_0_r.
Qed.

Lemma getFileIds_take observers m n :
  (m ≤ n)%nat → getFileIds observers m = take m (getFileIds observers n).
Proof.
  intros Hmn. pose proof (getFileIds_length observers m) as Hlen.
  rewrite !getFileIds_take_filter in *. rewrite take_take, Nat.min_l by done.
  replace (n + size observers)%nat with (m + size observers + (n - m))%nat
    by lia.
  rewrite (seq_app (m + size observers) (n - m)), fmap_app, list.filter_app,
    take_app_le; [done|].
  rewrite length_take in Hlen. lia.
Qed.

(** X4.  [getFileIds(n)] returns the [n] ids [gpx-k] with the lowest
    numbers that have no observer, in increasing order of [k]: they are the
    first [n] of the ids [gpx-0], [gpx-1], ... that are left when the
    observed ones are taken out. *)
Theorem getFileIds_lowest observers n :
  getFileIds observers n
  = take n (filter (λ id, id ∉ observers)
              (gpxId <$> seq 0 (n + size observers))).
Proof. apply getFileIds_take_filter. Qed.

(** X5.  Asking for fewer ids gives the first ones of the longer answer:
    as long as the observers are the same, two calls of [getFileIds] hand
    out the same ids again. *)
Theorem getFileIds_prefix observers m n :
  (m ≤ n)%nat → getFileIds observers m = take m (getFileIds observers n).
Proof. apply getFileIds_take. Qed.

Lemma getFileIds_prefix_witness :
  getFileIds {["gpx-0"]} 1 = take 1 (getFileIds {["gpx-0"]} 3).
Proof. apply getFileIds_prefix. lia. Defined.





Lemma dom_foldl_insert (kvs : list (string * GPXFile)) (d : DocumentState) :
  dom (foldl (λ d kv, <[kv.1 := kv.2]> d) d kvs)
  = dom d ∪ list_to_set kvs.*1.
Proof.
  revert d. induction kvs as [|x kvs IH]; intros d; simpl.
  - by rewrite union_empty_r_L.
  - by rewrite IH, dom_insert_L, (union_comm_L {[x.1]}), union_assoc_L.
Qed.



(** * Further properties of the operations on the selection *)

(** The traversal calls the callback once for every file of the file order
    that has a selected item, in the order of the file order. *)
Lemma visit_fileId_applyToOrderedItemsFromFile fileOrder selected rev :
  visit_fileId <$> applyToOrderedItemsFromFile fileOrder selected rev
  = visitedFiles fileOrder selected.
Proof.
  unfold applyToOrderedItemsFromFile, visitedFiles.
  induction fileOrder as [|fileId fileOrder IH]; [done|].
  rewrite filter_cons. cbn [omap list_omap].
  destruct (list.last (filter (λ item, getFileId item = Some fileId) selected))
    as [item|] eqn:Hlast.
  - rewrite decide_True; [rewrite fmap_cons; simpl; by rewrite IH|].
    apply last_Some in Hlast as [l' Hl'].
    assert (item ∈ filter (λ item, getFileId item = Some fileId) selected)
      as [Hid Hin]%list_elem_of_filter
      by (rewrite Hl'; apply elem_of_app; right; left).
    apply list_elem_of_fmap. by exists item.
  - rewrite decide_False; [done|].
    intros (item & Hid & Hin)%list_elem_of_fmap.
    apply last_None in Hlast.
    assert (item ∈ filter (λ item, getFileId item = Some fileId) selected)
      as Hitem by (by apply list_elem_of_filter).
    rewrite Hlast in Hitem. by apply elem_of_nil in Hitem.
Qed.

(** * Transactions on the cache *)

(** The ids of the forward patch of a transaction are those on which the
    state before and the state after differ. *)
Lemma elem_of_patchesFor id old new k :
  (∃ p, p ∈ (patchesFor id old new).1 ∧ head (path p) = Some k)
  ↔ id = k ∧ old ≠ new.
Proof.
  unfold patchesFor. destruct old as [v|], new as [v'|]; simpl.
  - destruct (decide (v = v')) as [->|Hne]; simpl.
    + split; [by intros (p & ?%elem_of_nil & _)|by intros [_ ?]].
    + split.
      * intros (p & ->%list_elem_of_singleton & [= ->]). split; congruence.
      * intros [-> _]. eexists. split; [by left|done].
  - split.
    + by intros (p & ->%list_elem_of_singleton & [= ->]).
    + intros [-> _]. eexists. split; [by left|done].
  - split.
    + by intros (p & ->%list_elem_of_singleton & [= ->]).
    + intros [-> _]. eexists. split; [by left|done].
  - split; [by intros (p & ?%elem_of_nil & _)|by intros [_ ?]].
Qed.

Lemma elem_of_diffKeys (before after : DocumentState) ks k :
  (∃ p, p ∈ (diffKeys before after ks).1 ∧ head (path p) = Some k)
  ↔ k ∈ ks ∧ before !! k ≠ after !! k.
Proof.
  induction ks as [|id ks IH]; simpl.
  - split; [by intros (p & ?%elem_of_nil & _)|by intros [?%elem_of_nil _]].
  - split.
    + intros (p & [Hp|Hp]%elem_of_app & Hk).
      * destruct (proj1 (elem_of_patchesFor id (before !! id) (after !! id) k))
          as [-> Hne]; [eauto|].
        split; [left|done].
      * destruct (proj1 IH) as [Hin Hne]; [eauto|]. split; [by right|done].
    + intros [[->|Hin]%elem_of_cons Hne].
      * destruct (proj2 (elem_of_patchesFor id (before !! id) (after !! id) id))
          as (p & Hp & Hk); [done|].
        exists p. split; [|done]. apply elem_of_app. by left.
      * destruct (proj2 IH) as (p & Hp & Hk); [done|].
        exists p. split; [|done]. apply elem_of_app. by right.
Qed.

Lemma elem_of_changed_diff (before after : DocumentState) k :
  k ∈ getChangedFileIds (diff before after).1 ↔ before !! k ≠ after !! k.
Proof.
  unfold getChangedFileIds. rewrite elem_of_remove_dups, list_elem_of_omap.
  unfold diff. rewrite elem_of_diffKeys. split; [by intros [_ ?]|].
  intros Hne. split; [|done].
  apply elem_of_elements, elem_of_union. rewrite !elem_of_dom.
  destruct (before !! k), (after !! k); eauto. done.
Qed.

(** A row of the table after the commit: that of the new state when the
    patches name its id, the one it was otherwise. *)
Lemma commitFileStateChange_lookup new ps db k :
  (∀ j f, j ∈ getChangedFileIds ps → new !! j = Some f → file_id f = j) →
  files (commitFileStateChange new ps db) !! k
  = if decide (k ∈ getChangedFileIds ps) then new !! k else files db !! k.
Proof.
  intros Hkeyed. unfold commitFileStateChange. simpl.
  rewrite lookup_foldl_delete.
  destruct (decide (k ∈ filter _ _)) as [Hdel|Hdel].
  - apply list_elem_of_filter in Hdel as [Hnone Hch].
    by rewrite decide_True.
  - destruct (decide (k ∈ getChangedFileIds ps)) as [Hch|Hch].
    + destruct (new !! k) as [f|] eqn:Hnew.
      * apply lookup_foldl_put_same.
        -- apply list_elem_of_omap. eauto.
        -- intros g (k' & Hk' & Hg)%list_elem_of_omap Hgk.
           rewrite (Hkeyed _ _ Hk' Hg) in Hgk. subst k'. congruence.
        -- by apply Hkeyed.
      * exfalso. apply Hdel. by apply list_elem_of_filter.
    + apply lookup_foldl_put_other.
      intros g (k' & Hk' & Hg)%list_elem_of_omap <-.
      by rewrite (Hkeyed _ _ Hk' Hg) in Hch.
Qed.

(** A transaction on the cache always stores an entry when its callback
    returns; the table takes the rows of the new state at the ids on which
    the new state differs from the cache, and keeps the others. *)
Lemma applyGlobalOn_files fileState callback db new :
  callback fileState = Some new →
  (∀ k f, new !! k = Some f → fileState !! k ≠ Some f → file_id f = k) →
  ∃ db',
    applyGlobalOn fileState callback db = Some db'
    ∧ patchIndex db' = patchIndex db + 1
    ∧ ∀ k, files db' !! k
           = if decide (fileState !! k = new !! k) then files db !! k
             else new !! k.
Proof.
  intros Hcb Hkeyed. unfold applyGlobalOn, produceWithPatches. rewrite Hcb.
  eexists. split; [done|]. split; [done|]. intros k.
  rewrite commitFileStateChange_lookup.
  - destruct (decide (k ∈ _)) as [Hch|Hch];
      destruct (decide (fileState !! k = new !! k)) as [Heq|Hne]; try done.
    + by apply elem_of_changed_diff in Hch.
    + exfalso. by apply Hch, elem_of_changed_diff.
  - intros j f Hj%elem_of_changed_diff Hf. apply Hkeyed; [done|].
    by rewrite <- Hf.
Qed.

(** The same, read off a transaction that has returned. *)
Lemma applyGlobalOn_inv fileState callback db db' :
  applyGlobalOn fileState callback db = Some db' →
  ∃ new, callback fileState = Some new
    ∧ patchIndex db' = patchIndex db + 1
    ∧ ((∀ k f, new !! k = Some f → fileState !! k ≠ Some f → file_id f = k) →
       ∀ k, files db' !! k
            = if decide (fileState !! k = new !! k) then files db !! k
              else new !! k).
Proof.
  intros Hcommit.
  destruct (callback fileState) as [new|] eqn:Hcb;
    [|unfold applyGlobalOn, produceWithPatches in Hcommit;
      by rewrite Hcb in Hcommit].
  exists new. split; [done|].
  unfold applyGlobalOn, produceWithPatches in Hcommit.
  rewrite Hcb in Hcommit. injection Hcommit as <-.
  split; [done|]. intros Hkeyed.
  destruct (applyGlobalOn_files fileState callback db new Hcb Hkeyed)
    as (db'' & Hdb'' & _ & Hfiles).
  unfold applyGlobalOn, produceWithPatches in Hdb''.
  rewrite Hcb in Hdb''. by injection Hdb'' as <-.
Qed.

(** X8.  [dbUtils.deleteSelectedFiles] with a selection that is not empty
    always stores a transaction.  It removes from the table the files of
    the file order that have a selected item, whatever the level of the
    item (a selected track or waypoint removes its whole file), as far as
    the cache holds them, and leaves the other rows of the table as they
    were: a file that the cache does not hold stays in the table. *)
Theorem deleteSelectedFiles_files fileState fileOrder selected db :
  selected ≠ [] →
  ∃ db',
    deleteSelectedFilesOn fileState fileOrder selected db = Some db'
    ∧ patchIndex db' = patchIndex db + 1
    ∧ ∀ k, files db' !! k
           = if decide (k ∈ visitedFiles fileOrder selected
                        ∧ is_Some (fileState !! k))
             then None else files db !! k.
Proof.
  intros Hsel. unfold deleteSelectedFilesOn.
  rewrite decide_False by (by destruct selected).
  set (visits := applyToOrderedItemsFromFile fileOrder selected true).
  set (new := foldl (λ m id, delete id m) fileState
                (visitedFiles fileOrder selected)).
  destruct (applyGlobalOn_files fileState
              (λ draft, Some (foldl (λ d v, delete (visit_fileId v) d) draft
                                visits)) db new)
    as (db' & Hdb' & Hindex & Hfiles).
  - unfold new.
    rewrite <- (visit_fileId_applyToOrderedItemsFromFile _ _ true).
    fold visits. by rewrite foldl_fmap.
  - intros k f Hnew Hne. exfalso. unfold new in Hnew.
    rewrite lookup_foldl_delete in Hnew. by destruct (decide _).
  - exists db'. split_and!; [done..|]. intros k. rewrite Hfiles.
    unfold new. rewrite lookup_foldl_delete.
    destruct (decide (k ∈ visitedFiles fileOrder selected)) as [Hin|Hout].
    + destruct (fileState !! k) as [f|] eqn:Hk.
      * rewrite decide_False by done. rewrite decide_True; [done|]. eauto.
      * rewrite decide_True by done. rewrite decide_False; [done|].
        intros [_ [? [=]]].
    + rewrite decide_True by done. rewrite decide_False; [done|]. tauto.
Qed.

Lemma deleteSelectedFiles_files_witness :
  ∃ db',
    deleteSelectedFilesOn {["gpx-0" := fileA]} ["gpx-0"; "gpx-1"]
      [ListTrackItem "gpx-0" 0; ListFileItem "gpx-1"]
      (mkDatabase stateAB ∅ None) = Some db'
    ∧ patchIndex db' = patchIndex (mkDatabase stateAB ∅ None) + 1
    ∧ (∀ k, files db' !! k
            = if decide (k ∈ visitedFiles ["gpx-0"; "gpx-1"]
                               [ListTrackItem "gpx-0" 0; ListFileItem "gpx-1"]
                         ∧ is_Some (({["gpx-0" := fileA]} : DocumentState)
                                      !! k))
              then None else files (mkDatabase stateAB ∅ None) !! k)
    ∧ files db' = {["gpx-1" := fileB]}.
Proof.
  destruct (deleteSelectedFiles_files {["gpx-0" := fileA]} ["gpx-0"; "gpx-1"]
              [ListTrackItem "gpx-0" 0; ListFileItem "gpx-1"]
              (mkDatabase stateAB ∅ None)) as (db' & Hdb' & Hindex & Hfiles);
    [done|].
  exists db'. split_and!; [done..|].
  vm_compute in Hdb'. injection Hdb' as <-. vm_compute. reflexivity.
Defined.

(** *** Deleting the selected items *)

Lemma replaceRange_delete {A} (l : list A) (t : nat) :
  replaceRange l (Z.of_nat t) (Z.of_nat t) [] = delete t l.
Proof.
  unfold replaceRange, clampZ. rewrite delete_take_drop. simpl.
  destruct (decide (t < length l)%nat) as [Hlt|Hge].
  - replace (Z.max 0 (Z.min (Z.of_nat (length l)) (Z.of_nat t)))
      with (Z.of_nat t) by lia.
    replace (Z.max (Z.of_nat t - 1)
               (Z.min (Z.of_nat (length l) - 1) (Z.of_nat t)))
      with (Z.of_nat t) by lia.
    rewrite Nat2Z.id. by replace (Z.to_nat (Z.of_nat t + 1)) with (S t) by lia.
  - replace (Z.max 0 (Z.min (Z.of_nat (length l)) (Z.of_nat t)))
      with (Z.of_nat (length l)) by lia.
    replace (Z.max (Z.of_nat (length l) - 1)
               (Z.min (Z.of_nat (length l) - 1) (Z.of_nat t)))
      with (Z.of_nat (length l) - 1) by lia.
    replace (Z.to_nat (Z.of_nat (length l) - 1 + 1)) with (length l) by lia.
    rewrite Nat2Z.id, !take_ge, !drop_ge by lia. done.
Qed.

Lemma with_trk_with_trk l l' file :
  with_trk l (with_trk l' file) = with_trk l file.
Proof. done. Qed.

Lemma with_wpt_with_wpt l l' file :
  with_wpt l (with_wpt l' file) = with_wpt l file.
Proof. done. Qed.

Lemma with_trk_id file : with_trk (trk file) file = file.
Proof. by destruct file. Qed.

Lemma with_wpt_id file : with_wpt (wpt file) file = file.
Proof. by destruct file. Qed.

Lemma with_trkseg_id track : with_trkseg (trkseg track) track = track.
Proof. by destruct track. Qed.

Lemma deleteTracks_foldl fileId ts file :
  foldlM (λ f item,
            t ← getTrackIndex item;
            Some (replaceTracks (Z.of_nat t) (Z.of_nat t) [] f))
         file (ListTrackItem fileId <$> ts)
  = Some (with_trk (foldl (λ l t, delete t l) (trk file) ts) file).
Proof.
  revert file. induction ts as [|t ts IH]; intros file; simpl.
  - by rewrite with_trk_id.
  - rewrite IH. unfold replaceTracks. simpl. by rewrite replaceRange_delete.
Qed.

Lemma deleteWaypoints_foldl fileId ws file :
  foldlM (λ f item,
            w ← getWaypointIndex item;
            Some (replaceWaypoints (Z.of_nat w) (Z.of_nat w) [] f))
         file (ListWaypointItem fileId <$> ws)
  = Some (with_wpt (foldl (λ l w, delete w l) (wpt file) ws) file).
Proof.
  revert file. induction ws as [|w ws IH]; intros file; simpl.
  - by rewrite with_wpt_id.
  - rewrite IH. unfold replaceWaypoints. simpl. by rewrite replaceRange_delete.
Qed.

Lemma deleteSegments_foldl fileId t ss file track :
  trk file !! t = Some track →
  foldlM (λ f item,
            t ← getTrackIndex item;
            s ← getSegmentIndex item;
            replaceTrackSegments t (Z.of_nat s) (Z.of_nat s) [] f)
         file (ListTrackSegmentItem fileId t <$> ss)
  = Some (with_trk
            (<[t := with_trkseg (foldl (λ l s, delete s l) (trkseg track) ss)
                      track]> (trk file)) file).
Proof.
  revert file track. induction ss as [|s ss IH]; intros file track Ht; simpl.
  - by rewrite with_trkseg_id, list_insert_id, with_trk_id.
  - unfold replaceTrackSegments at 1. rewrite Ht. simpl.
    assert (t < length (trk file))%nat as Hlt by (by apply lookup_lt_Some in Ht).
    erewrite IH; [|simpl; by apply list_lookup_insert_eq].
    simpl. rewrite list_insert_insert_eq.
    unfold trackReplaceTrackSegments. simpl. by rewrite replaceRange_delete.
Qed.

(** X9.  One file of [dbUtils.deleteSelection], whose items come in
    descending order of their indices: the tracks (the segments of one
    track, the waypoints) at the selected indices are removed and the others
    are kept in their order; the item of all the waypoints removes every
    waypoint, and a selected file is removed from the state. *)
Theorem deleteSelection_items (draft : DocumentState) fileId file :
  draft !! fileId = Some file →
  (∀ ts, descending ts → Forall (λ t, t < length (trk file))%nat ts →
     deleteVisit draft (mkVisit fileId TRACK (ListTrackItem fileId <$> ts))
     = Some (<[fileId := with_trk
                 (keepFrom 0 (λ i, bool_decide (i ∉ ts)) (trk file)) file]>
               draft))
  ∧ (∀ t track ss, trk file !! t = Some track → descending ss →
       Forall (λ s, s < length (trkseg track))%nat ss →
       deleteVisit draft
         (mkVisit fileId SEGMENT (ListTrackSegmentItem fileId t <$> ss))
       = Some (<[fileId := with_trk
                   (<[t := with_trkseg
                             (keepFrom 0 (λ i, bool_decide (i ∉ ss))
                                (trkseg track)) track]> (trk file)) file]>
                 draft))
  ∧ (∀ ws, descending ws → Forall (λ w, w < length (wpt file))%nat ws →
       deleteVisit draft
         (mkVisit fileId WAYPOINT (ListWaypointItem fileId <$> ws))
       = Some (<[fileId := with_wpt
                   (keepFrom 0 (λ i, bool_decide (i ∉ ws)) (wpt file)) file]>
                 draft))
  ∧ (∀ items,
       deleteVisit draft (mkVisit fileId WAYPOINTS items)
       = Some (<[fileId := with_wpt [] file]> draft))
  ∧ (∀ items,
       deleteVisit draft (mkVisit fileId FILE items)
       = Some (delete fileId draft)).
Proof.
  intros Hfile. split_and!.
  - intros ts Hd _. unfold deleteVisit. simpl. rewrite Hfile.
    rewrite deleteTracks_foldl. simpl. by rewrite foldl_delete_descending.
  - intros t track ss Ht Hd _. unfold deleteVisit. simpl. rewrite Hfile.
    rewrite (deleteSegments_foldl _ _ _ _ track Ht). simpl.
    by rewrite foldl_delete_descending.
  - intros ws Hd _. unfold deleteVisit. simpl. rewrite Hfile.
    rewrite deleteWaypoints_foldl. simpl. by rewrite foldl_delete_descending.
  - intros items. unfold deleteVisit. simpl. rewrite Hfile. simpl.
    unfold replaceWaypoints. by rewrite replaceRange_all.
  - done.
Qed.

Lemma deleteSelection_items_witness :
  deleteVisit state3w
    (mkVisit "gpx-0" TRACK (ListTrackItem "gpx-0" <$> [2; 0]%nat))
  = Some (<["gpx-0" := with_trk
              (keepFrom 0 (λ i, bool_decide (i ∉ [2; 0]%nat)) (trk file3w))
              file3w]> state3w).
Proof.
  assert (state3w !! "gpx-0" = Some file3w) as Hfile
    by (vm_compute; reflexivity).
  destruct (deleteSelection_items state3w "gpx-0" file3w Hfile) as (Htracks & _).
  apply Htracks.
  - repeat constructor; simpl; lia.
  - repeat constructor; simpl; lia.
Defined.

(** *** The scope of [applyToFiles] *)

Lemma applyToFiles_fold_None (callback : GPXFile → option GPXFile) fileIds :
  foldl (λ acc fileId,
           d ← acc;
           match (d : DocumentState) !! fileId with
           | Some file => f' ← callback file; Some (<[fileId := f']> d)
           | None => Some d
           end)
        None fileIds = None.
Proof. by induction fileIds. Qed.

Lemma applyToFiles_fold (callback : GPXFile → option GPXFile) fileIds :
  ∀ d d' : DocumentState,
  foldl (λ acc fileId,
           d ← acc;
           match d !! fileId with
           | Some file => f' ← callback file; Some (<[fileId := f']> d)
           | None => Some d
           end)
        (Some d) fileIds = Some d' →
  dom d' = dom d
  ∧ (∀ k, k ∉ fileIds → d' !! k = d !! k)
  ∧ ((∀ f f', callback f = Some f' → file_id f' = file_id f) →
     keyed d → keyed d').
Proof.
  induction fileIds as [|fileId fileIds IH]; intros d d'; simpl.
  - by intros [= ->].
  - destruct (d !! fileId) as [file|] eqn:Hfile; simpl.
    + destruct (callback file) as [f'|] eqn:Hcb; simpl;
        [|by rewrite applyToFiles_fold_None].
      intros (Hdom & Hother & Hkeyed)%IH. split_and!.
      * rewrite Hdom, dom_insert_L.
        apply subseteq_union_1_L, singleton_subseteq_l, elem_of_dom. eauto.
      * intros k [Hne Hk]%not_elem_of_cons.
        rewrite Hother by done. by apply lookup_insert_ne.
      * intros Hid Hd. apply Hkeyed; [done|].
        rewrite <- (Hd _ _ Hfile), <- (Hid _ _ Hcb). by apply keyed_insert.
    + intros (Hdom & Hother & Hkeyed)%IH. split_and!; [done| |done].
      intros k [Hne Hk]%not_elem_of_cons. by apply Hother.
Qed.

(** X10.  A transaction of [applyToFiles] whose callback leaves the
    [_data.id] of the files alone changes only rows of the table whose id is
    listed and has a file in the cache, and a row it changes holds a file
    afterwards: no file is removed, the rows of the ids that are not listed
    are left as they were, and a listed id without file in the cache is
    skipped. *)
Theorem applyToFiles_scope fileState fileIds callback db db' :
  keyed fileState →
  (∀ f f', callback f = Some f' → file_id f' = file_id f) →
  applyToFilesOn fileState fileIds callback db = Some db' →
  (∀ k, k ∉ fileIds → files db' !! k = files db !! k)
  ∧ (∀ k, fileState !! k = None → files db' !! k = files db !! k)
  ∧ (∀ k, files db' !! k ≠ files db !! k →
       ∃ f', files db' !! k = Some f' ∧ file_id f' = k)
  ∧ dom (files db) ⊆ dom (files db')
  ∧ dom (files db') ⊆ dom (files db) ∪ dom fileState
  ∧ patchIndex db' = patchIndex db + 1.
Proof.
  intros Hkeyed Hid Hcommit. unfold applyToFilesOn in Hcommit.
  destruct (applyGlobalOn_inv _ _ _ _ Hcommit) as (new & Hnew & Hindex & Hfiles).
  destruct (applyToFiles_fold _ _ _ _ Hnew) as (Hdom & Hother & Hk).
  specialize (Hk Hid Hkeyed).
  specialize (Hfiles (λ k f Hf _, Hk k f Hf)).
  assert (∀ k, fileState !! k = None → new !! k = None) as Hnone.
  { intros k. rewrite <- !not_elem_of_dom. by rewrite Hdom. }
  assert (∀ k, files db' !! k ≠ files db !! k →
            ∃ f', files db' !! k = Some f' ∧ file_id f' = k) as Hchanged.
  { intros k. rewrite Hfiles.
    destruct (decide (fileState !! k = new !! k)) as [Heq|Hne]; [done|].
    intros _. destruct (new !! k) as [f'|] eqn:Hf'.
    - exists f'. split; [done|]. by apply Hk.
    - exfalso. apply Hne.
      apply not_elem_of_dom. rewrite <- Hdom. by apply not_elem_of_dom. }
  split_and!; [| |done| | |done].
  - intros k Hout. rewrite Hfiles, (Hother k Hout). by rewrite decide_True.
  - intros k Hk'. rewrite Hfiles, (Hnone k Hk'), Hk'. by rewrite decide_True.
  - intros k [f Hf]%elem_of_dom. apply elem_of_dom.
    destruct (decide (files db' !! k = files db !! k)) as [->|Hne]; [eauto|].
    destruct (Hchanged k Hne) as (f' & -> & _). eauto.
  - intros k [f Hf]%elem_of_dom. apply elem_of_union. rewrite !elem_of_dom.
    rewrite Hfiles in Hf.
    destruct (decide (fileState !! k = new !! k)) as [Heq|Hne]; [eauto|].
    right. rewrite <- elem_of_dom, <- Hdom, elem_of_dom. eauto.
Qed.

Lemma applyToFiles_scope_witness :
  ∃ db',
    applyToFilesOn {["gpx-0" := fileA]} ["gpx-0"; "gpx-1"]
      (λ f, Some (with_metadata_name "renamed" f))
      (mkDatabase stateAB ∅ None) = Some db'
    ∧ files db'
      = {["gpx-0" := with_metadata_name "renamed" fileA; "gpx-1" := fileB]}
    ∧ (∀ k, k ∉ ["gpx-0"; "gpx-1"] → files db' !! k = stateAB !! k)
    ∧ (∀ k, ({["gpx-0" := fileA]} : DocumentState) !! k = None →
         files db' !! k = stateAB !! k)
    ∧ (∀ k, files db' !! k ≠ stateAB !! k →
         ∃ f', files db' !! k = Some f' ∧ file_id f' = k)
    ∧ dom stateAB ⊆ dom (files db')
    ∧ dom (files db') ⊆ dom stateAB ∪ dom ({["gpx-0" := fileA]} : DocumentState)
    ∧ patchIndex db' = patchIndex (mkDatabase stateAB ∅ None) + 1.
Proof.
  destruct (applyToFilesOn {["gpx-0" := fileA]} ["gpx-0"; "gpx-1"]
              (λ f, Some (with_metadata_name "renamed" f))
              (mkDatabase stateAB ∅ None))
    as [db'|] eqn:Hcommit; [|by vm_compute in Hcommit].
  exists db'. split; [done|]. split.
  { vm_compute in Hcommit. injection Hcommit as <-. vm_compute. reflexivity. }
  apply (applyToFiles_scope {["gpx-0" := fileA]} ["gpx-0"; "gpx-1"]
           (λ f, Some (with_metadata_name "renamed" f))
           (mkDatabase stateAB ∅ None) db');
    [|by intros f f' [= <-]|done].
  change ({["gpx-0" := fileA]} : DocumentState)
    with (<[file_id fileA := fileA]> (∅ : DocumentState)).
  apply keyed_insert, keyed_empty.
Defined.

(** *** Duplicating the selected items *)

Lemma applyGlobal_ext callback callback' db :
  callback (files db) = callback' (files db) →
  applyGlobal callback db = applyGlobal callback' db.
Proof. unfold applyGlobal, produceWithPatches. by intros ->. Qed.

Lemma visit_level_applyToOrderedItemsFromFile fileOrder selected rev level :
  Forall (λ item, item_level item = level) selected →
  Forall (λ v, visit_level v = level)
         (applyToOrderedItemsFromFile fileOrder selected rev).
Proof.
  rewrite !list.Forall_forall. intros Hsel v.
  unfold applyToOrderedItemsFromFile. rewrite list_elem_of_omap.
  intros (fileId & _ & Hv).
  destruct (list.last (filter (λ item, getFileId item = Some fileId) selected))
    as [item|] eqn:Hlast; [|done].
  injection Hv as <-. simpl. apply Hsel.
  apply last_Some in Hlast as [l' Hl'].
  assert (item ∈ filter (λ item, getFileId item = Some fileId) selected)
    as [_ Hin]%list_elem_of_filter
    by (rewrite Hl'; apply elem_of_app; right; left).
  done.
Qed.

Lemma length_omap_le {A B} (f : A → option B) (l : list A) :
  (length (omap f l) ≤ length l)%nat.
Proof.
  induction l as [|x l IH]; simpl; [done|].
  change (list_omap A B f l) with (omap f l). destruct (f x); simpl; lia.
Qed.

(** The visits of selected files: every file that exists is stored once
    more, under the next id of the list. *)
Lemma duplicateVisit_files original ids visits :
  Forall (λ v, visit_level v = FILE) visits →
  ∀ index (draft : DocumentState),
  (index + length (filesOf original (visit_fileId <$> visits)) ≤ length ids)%nat →
  foldlM (duplicateVisit original ids) (index, draft) visits
  = Some ((index + length (filesOf original (visit_fileId <$> visits)))%nat,
          foldl (λ d '(id, file), <[id := with_id id file]> d) draft
            (zip (drop index ids)
                 (filesOf original (visit_fileId <$> visits)))).
Proof.
  unfold filesOf.
  induction 1 as [|v visits Hv _ IH]; intros index draft Hlen.
  - simpl. by rewrite Nat.add_0_r, zip_with_nil_r.
  - rewrite fmap_cons in *. cbn [omap list_omap foldlM] in *.
    unfold duplicateVisit at 1. rewrite Hv.
    destruct (original !! visit_fileId v) as [file|] eqn:Hfile.
    + cbn [length] in *.
      assert (is_Some (ids !! index)) as [id Hid]
        by (apply lookup_lt_is_Some_2; lia).
      rewrite IH by lia. rewrite Hid. simpl.
      rewrite (drop_S ids id index Hid). simpl. do 2 f_equal. lia.
    + by rewrite IH.
Qed.

Lemma applyGlobalOn_ext fileState callback callback' db :
  callback fileState = callback' fileState →
  applyGlobalOn fileState callback db = applyGlobalOn fileState callback' db.
Proof. unfold applyGlobalOn, produceWithPatches. by intros ->. Qed.

(** X11.  [dbUtils.duplicateSelection] of selected files is
    [dbUtils.addMultiple] of the files that the cache holds for the files
    of the file order that are selected, in the order of the file order (a
    selected file that the cache does not hold is not copied).  It always
    stores a transaction: the copies are put into the table under ids that
    have no observer and that differ from each other, each with its key as
    [_data.id], and no other row of the table is touched. *)
Theorem duplicateSelection_files fileState observers fileOrder selected db :
  selected ≠ [] → Forall (λ item, item_level item = FILE) selected →
  dom fileState ⊆ observers →
  let copied := filesOf fileState (visitedFiles fileOrder selected) in
  let ids := getFileIds observers (length copied) in
  duplicateSelection fileState observers fileOrder selected db
  = addMultipleOn fileState observers copied db
  ∧ ∃ db',
      duplicateSelection fileState observers fileOrder selected db = Some db'
      ∧ patchIndex db' = patchIndex db + 1
      ∧ NoDup ids
      ∧ (∀ i file, copied !! i = Some file →
           ∃ id, ids !! i = Some id ∧ (id ∉ observers)
             ∧ files db' !! id = Some (with_id id file))
      ∧ (∀ k, k ∉ ids → files db' !! k = files db !! k).
Proof.
  intros Hsel Hlevel Hobs copied ids.
  assert (duplicateSelection fileState observers fileOrder selected db
          = addMultipleOn fileState observers copied db) as Heq.
  { unfold duplicateSelection, addMultipleOn.
    rewrite decide_False by (by destruct selected).
    apply applyGlobalOn_ext. unfold duplicateCallback.
    set (visits := applyToOrderedItemsFromFile fileOrder selected true).
    set (ids' := getFileIds observers (length fileOrder)).
    pose proof (visit_fileId_applyToOrderedItemsFromFile fileOrder selected
                  true) as Hids. fold visits in Hids.
    assert (length copied ≤ length fileOrder)%nat as Hle.
    { unfold copied, filesOf, visitedFiles.
      etransitivity; [apply length_omap_le|]. apply length_filter. }
    rewrite (duplicateVisit_files fileState ids' visits).
    - simpl. rewrite Hids, drop_0. fold copied.
      rewrite (getFileIds_take _ _ (length fileOrder) Hle). fold ids'.
      by rewrite zip_with_take_l.
    - by apply visit_level_applyToOrderedItemsFromFile.
    - rewrite Hids. fold copied. unfold ids'. rewrite getFileIds_length.
      simpl. lia. }
  split; [done|]. rewrite Heq. unfold addMultipleOn. fold ids.
  set (kv := λ x : string * GPXFile, (x.1, with_id x.1 x.2)).
  set (new := foldl (λ d kv, <[kv.1 := kv.2]> d) fileState
                (kv <$> zip ids copied)).
  assert (length ids = length copied) as Hlen
    by (unfold ids; by rewrite getFileIds_length).
  assert ((kv <$> zip ids copied).*1 = ids) as Hkeys.
  { rewrite <- list_fmap_compose.
    change ((zip ids copied).*1 = ids). apply fst_zip. lia. }
  assert (∀ id, id ∈ ids → (id ∉ observers) ∧ fileState !! id = None)
    as Hfresh.
  { intros id [Hid _]%getFileIds_fresh. split; [done|].
    apply not_elem_of_dom. intros Hin. by apply Hid, Hobs. }
  assert (∀ i id file, ids !! i = Some id → copied !! i = Some file →
            new !! id = Some (with_id id file)) as Hnew.
  { intros i id file Hid Hfile. apply foldl_insert_lookup.
    - rewrite Hkeys. apply getFileIds_NoDup.
    - apply list_elem_of_fmap. exists (id, file). split; [done|].
      apply list_elem_of_lookup. exists i. by apply lookup_zip_Some. }
  assert (∀ k, k ∉ ids → new !! k = fileState !! k) as Hother.
  { intros k Hk. apply foldl_insert_other. by rewrite Hkeys. }
  destruct (applyGlobalOn_files fileState
              (λ draft,
                 Some (foldl (λ d '(id, file), <[id := with_id id file]> d)
                         draft (zip ids copied))) db new)
    as (db' & Hdb' & Hindex & Hfiles).
  - f_equal. unfold new. rewrite foldl_fmap. apply foldl_ext_eq.
    by intros d [id f].
  - intros k f Hf Hne. destruct (decide (k ∈ ids)) as [Hin|Hout].
    + apply list_elem_of_lookup in Hin as [i Hi].
      assert (is_Some (copied !! i)) as [file Hfile].
      { apply lookup_lt_is_Some_2. rewrite <- Hlen.
        by apply lookup_lt_Some in Hi. }
      rewrite (Hnew i k file Hi Hfile) in Hf. by injection Hf as <-.
    + rewrite (Hother k Hout) in Hf. done.
  - exists db'. split_and!; [done..|apply getFileIds_NoDup| |].
    + intros i file Hfile.
      assert (is_Some (ids !! i)) as [id Hid].
      { apply lookup_lt_is_Some_2. rewrite Hlen.
        by apply lookup_lt_Some in Hfile. }
      destruct (Hfresh id (list_elem_of_lookup_2 _ _ _ Hid)) as [Hout Hnone].
      exists id. split_and!; [done..|].
      rewrite Hfiles, Hnone, (Hnew i id file Hid Hfile).
      by rewrite decide_False.
    + intros k Hk. rewrite Hfiles, (Hother k Hk). by rewrite decide_True.
Qed.

Lemma duplicateSelection_files_witness :
  let fileState : DocumentState := {["gpx-0" := fileA]} in
  let observers : gset string := {["gpx-0"; "gpx-1"]} in
  let db := mkDatabase stateAB ∅ None in
  let copied :=
    filesOf fileState
      (visitedFiles ["gpx-0"; "gpx-1"]
         [ListFileItem "gpx-0"; ListFileItem "gpx-1"]) in
  let ids := getFileIds observers (length copied) in
  (duplicateSelection fileState observers ["gpx-0"; "gpx-1"]
     [ListFileItem "gpx-0"; ListFileItem "gpx-1"] db
   = addMultipleOn fileState observers copied db
   ∧ ∃ db',
       duplicateSelection fileState observers ["gpx-0"; "gpx-1"]
         [ListFileItem "gpx-0"; ListFileItem "gpx-1"] db = Some db'
       ∧ patchIndex db' = patchIndex db + 1
       ∧ NoDup ids
       ∧ (∀ i file, copied !! i = Some file →
            ∃ id, ids !! i = Some id ∧ (id ∉ observers)
              ∧ files db' !! id = Some (with_id id file))
       ∧ (∀ k, k ∉ ids → files db' !! k = files db !! k))
  ∧ files <$> duplicateSelection fileState observers ["gpx-0"; "gpx-1"]
                [ListFileItem "gpx-0"; ListFileItem "gpx-1"] db
    = Some {["gpx-0" := fileA; "gpx-1" := fileB;
             "gpx-2" := with_id "gpx-2" fileA]}.
Proof.
  intros fileState observers db copied ids. split.
  - apply (duplicateSelection_files fileState observers ["gpx-0"; "gpx-1"]
             [ListFileItem "gpx-0"; ListFileItem "gpx-1"] db).
    + done.
    + by repeat constructor.
    + unfold fileState, observers. rewrite dom_singleton_L.
      apply singleton_subseteq_l, elem_of_union. left.
      by apply elem_of_singleton.
  - vm_compute. reflexivity.
Defined.

Lemma duplicateFrom_false {A} o (P : nat → bool) (l : list A) :
  (∀ i, (o ≤ i)%nat → P i = false) → duplicateFrom o P l = l.
Proof.
  revert o. induction l as [|x l IH]; intros o HP; simpl; [done|].
  rewrite HP by lia. simpl. f_equal. apply IH. intros i Hi. apply HP. lia.
Qed.

Lemma duplicateFrom_insert {A} o (P P' : nat → bool) t (l : list A) x :
  l !! t = Some x →
  (∀ i, i ≠ (o + t)%nat → P' i = P i) →
  P' (o + t)%nat = true →
  (∀ i, (o + t ≤ i)%nat → P i = false) →
  duplicateFrom o P (take (S t) l ++ x :: drop (S t) l) = duplicateFrom o P' l.
Proof.
  revert o t. induction l as [|y l IH]; intros o t Hx Hne Ht Hge; [done|].
  destruct t as [|t]; simpl in *.
  - injection Hx as ->. replace (o + 0)%nat with o in * by lia.
    rewrite Ht, Hge by lia. rewrite drop_0. simpl.
    rewrite Hge by lia. simpl.
    rewrite !duplicateFrom_false; [done| |].
    + intros i Hi. rewrite Hne by lia. apply Hge. lia.
    + intros i Hi. apply Hge. lia.
  - rewrite Hne by lia. f_equal. apply IH; [done| | |].
    + intros i Hi. apply Hne. lia.
    + by replace (S o + t)%nat with (o + S t)%nat by lia.
    + intros i Hi. apply Hge. lia.
Qed.

(** Inserting, at descending indices one after the other, a copy of the
    element right after it doubles exactly the elements at these indices. *)
Lemma duplicate_descending {A} ts (l : list A) :
  descending ts → Forall (λ t, t < length l)%nat ts →
  foldlM (λ l t, x ← l !! t;
                 Some (replaceRange l (Z.of_nat t + 1) (Z.of_nat t) [x]))
         l ts
  = Some (duplicateFrom 0 (λ i, bool_decide (i ∈ ts)) l).
Proof.
  intros Hd. revert l.
  induction Hd as [|t ts Hd IH Hlt]; intros l Hrange; simpl.
  - f_equal. symmetry. by apply duplicateFrom_false.
  - apply list.Forall_cons in Hrange as [Ht Hrange].
    destruct (lookup_lt_is_Some_2 l t Ht) as [x Hx]. rewrite Hx. simpl.
    assert (replaceRange l (Z.of_nat t + 1) (Z.of_nat t) [x]
            = take (S t) l ++ [x] ++ drop (S t) l) as ->.
    { rewrite <- (replaceRange_insert l [x] (S t)) by lia. f_equal; lia. }
    rewrite IH.
    + f_equal. rewrite list.Forall_forall in Hlt.
      apply (duplicateFrom_insert 0 _ _ t l x Hx).
      * intros i Hi. apply bool_decide_ext. rewrite elem_of_cons.
        simpl in Hi. intuition.
      * apply bool_decide_eq_true. left.
      * intros i Hi. apply bool_decide_eq_false. intros Hin.
        apply Hlt in Hin. simpl in Hi. lia.
    + eapply list.Forall_impl; [exact Hrange|]. intros i Hi.
      cbv beta in *. rewrite !length_app, length_take, length_drop.
      cbn [length]. lia.
Qed.

Lemma duplicateTracks_foldl fileId ts file :
  foldlM (λ f item,
            t ← getTrackIndex item;
            track ← trk f !! t;
            Some (replaceTracks (Z.of_nat t + 1) (Z.of_nat t) [track] f))
         file (ListTrackItem fileId <$> ts)
  = l ← foldlM (λ l t, x ← l !! t;
                       Some (replaceRange l (Z.of_nat t + 1) (Z.of_nat t) [x]))
               (trk file) ts;
    Some (with_trk l file).
Proof.
  revert file. induction ts as [|t ts IH]; intros file; simpl.
  - by rewrite with_trk_id.
  - destruct (trk file !! t) as [track|]; simpl; [|done]. by rewrite IH.
Qed.

Lemma duplicateWaypoints_foldl fileId ws file :
  foldlM (λ f item,
            w ← getWaypointIndex item;
            waypoint ← wpt f !! w;
            Some (replaceWaypoints (Z.of_nat w + 1) (Z.of_nat w) [waypoint] f))
         file (ListWaypointItem fileId <$> ws)
  = l ← foldlM (λ l w, x ← l !! w;
                       Some (replaceRange l (Z.of_nat w + 1) (Z.of_nat w) [x]))
               (wpt file) ws;
    Some (with_wpt l file).
Proof.
  revert file. induction ws as [|w ws IH]; intros file; simpl.
  - by rewrite with_wpt_id.
  - destruct (wpt file !! w) as [waypoint|]; simpl; [|done]. by rewrite IH.
Qed.

(** X12.  One file of [dbUtils.duplicateSelection], whose items come in
    descending order of their indices: every selected track (waypoint) is
    followed by a copy of itself and the others stay where they are; the
    item of all the waypoints appends a copy of every waypoint after the
    last one.  No id is used. *)
Theorem duplicateSelection_items original ids index (draft : DocumentState)
    fileId file :
  draft !! fileId = Some file →
  (∀ ts, descending ts → Forall (λ t, t < length (trk file))%nat ts →
     duplicateVisit original ids (index, draft)
       (mkVisit fileId TRACK (ListTrackItem fileId <$> ts))
     = Some (index,
             <[fileId := with_trk
                 (duplicateFrom 0 (λ i, bool_decide (i ∈ ts)) (trk file))
                 file]> draft))
  ∧ (∀ ws, descending ws → Forall (λ w, w < length (wpt file))%nat ws →
       duplicateVisit original ids (index, draft)
         (mkVisit fileId WAYPOINT (ListWaypointItem fileId <$> ws))
       = Some (index,
               <[fileId := with_wpt
                   (duplicateFrom 0 (λ i, bool_decide (i ∈ ws)) (wpt file))
                   file]> draft))
  ∧ (∀ items,
       duplicateVisit original ids (index, draft)
         (mkVisit fileId WAYPOINTS items)
       = Some (index, <[fileId := with_wpt (wpt file ++ wpt file) file]> draft)).
Proof.
  intros Hfile. split_and!.
  - intros ts Hd Hrange. unfold duplicateVisit. simpl. rewrite Hfile.
    by rewrite duplicateTracks_foldl, duplicate_descending.
  - intros ws Hd Hrange. unfold duplicateVisit. simpl. rewrite Hfile.
    by rewrite duplicateWaypoints_foldl, duplicate_descending.
  - intros items. unfold duplicateVisit. simpl. rewrite Hfile. simpl.
    unfold replaceWaypoints. rewrite replaceRange_insert by done.
    by rewrite firstn_all, drop_all, app_nil_r.
Qed.

Lemma duplicateSelection_items_witness :
  duplicateVisit state3w [] (0%nat, state3w)
    (mkVisit "gpx-0" TRACK (ListTrackItem "gpx-0" <$> [2; 0]%nat))
  = Some (0%nat,
          <["gpx-0" := with_trk
              (duplicateFrom 0 (λ i, bool_decide (i ∈ [2; 0]%nat)) (trk file3w))
              file3w]> state3w).
Proof.
  assert (state3w !! "gpx-0" = Some file3w) as Hfile
    by (vm_compute; reflexivity).
  destruct (duplicateSelection_items state3w [] 0%nat state3w "gpx-0" file3w
              Hfile) as (Htracks & _).
  apply Htracks.
  - repeat constructor; simpl; lia.
  - repeat constructor; simpl; lia.
Defined.

(** * Further properties of extract and split *)

(** What [extractFile] does to the draft: the new files are put under the
    generated ids, one after the other. *)
Lemma extractFile_inserts distance observers file (draft : DocumentState) :
  ∃ kvs : list (string * GPXFile),
    extractFile distance observers file draft
    = Some (foldl (λ d kv, <[kv.1 := kv.2]> d) draft kvs)
    ∧ kvs.*1 = getFileIds observers (extractCount file).
Proof.
  unfold extractFile, extractCount.
  destruct (trk file) as [|track [|track2 tracks]] eqn:Htrk.
  - exists []. split; [done|].
    pose proof (getFileIds_length observers 0) as Hlen.
    by destruct (getFileIds observers 0).
  - set (fileIds := getFileIds observers (length (trkseg track))).
    set (closest := closestSegments distance file track).
    set (new := λ x : nat * TrackSegment,
           default file (extractedSegmentFile file track closest fileIds
                           x.1 x.2)).
    set (kv := λ x : nat * TrackSegment,
           (default "undefined" (fileIds !! x.1), new x)).
    exists (kv <$> indexed 0 (trkseg track)). split.
    + rewrite imap_pair_indexed, foldl_fmap. apply foldlM_Some.
      intros d [i s] _.
      destruct (extractedSegmentFile_Some file track closest fileIds i s Htrk)
        as (newFile & Hsome & _).
      unfold kv, new. simpl. rewrite Hsome. simpl.
      unfold extractedSegmentFile in Hsome.
      destruct (replaceTrackSegments _ _ _ _ _); [|done]. simpl in Hsome.
      by injection Hsome as <-.
    + apply (indexed_keys fileIds (λ i s, new (i, s))).
      unfold fileIds. by rewrite getFileIds_length.
  - rewrite <- Htrk.
    set (fileIds := getFileIds observers (length (trk file))).
    set (kv := λ x : nat * Track,
           (default "undefined" (fileIds !! x.1),
            extractedTrackFile file (closestTracks distance file) fileIds
              x.1 x.2)).
    exists (kv <$> indexed 0 (trk file)). split.
    + rewrite imap_pair_indexed, foldl_fmap. f_equal.
      apply foldl_ext_eq. by intros d [i t].
    + apply (indexed_keys fileIds
               (λ i t, extractedTrackFile file (closestTracks distance file)
                         fileIds i t)).
      unfold fileIds. by rewrite getFileIds_length.
Qed.

(** X13.  Extracting a selected file never fails: the file is taken out
    of the state and as many files are put in as it has tracks (segments,
    when it has one track), under ids that no file had.  A file without a
    track, or whose only track has no segment, is removed and nothing is put
    in its place. *)
Theorem extractSelection_file distance (original draft : DocumentState)
    fileId file items :
  original !! fileId = Some file →
  ∃ d,
    extractVisit distance original draft (mkVisit fileId FILE items) = Some d
    ∧ d !! fileId = None
    ∧ dom d = (dom draft
               ∪ list_to_set (getFileIds (dom original) (extractCount file)))
              ∖ {[fileId]}
    ∧ (extractCount file = O → d = delete fileId draft).
Proof.
  intros Hfile. unfold extractVisit. simpl. rewrite Hfile.
  destruct (extractFile_inserts distance (dom original) file draft)
    as (kvs & -> & Hkeys).
  simpl. eexists. split; [done|]. split_and!.
  - apply lookup_delete_eq.
  - by rewrite dom_delete_L, dom_foldl_insert, Hkeys.
  - intros Hcount. rewrite Hcount in Hkeys.
    pose proof (getFileIds_length (dom original) 0) as Hlen.
    rewrite <- Hkeys in Hlen. by destruct kvs.
Qed.

Lemma extractSelection_file_witness :
  ∃ d,
    extractVisit gridDistance stateTwoTracks stateTwoTracks
      (mkVisit "gpx-0" FILE [ListFileItem "gpx-0"]) = Some d
    ∧ d !! "gpx-0" = None
    ∧ dom d = (dom stateTwoTracks
               ∪ list_to_set (getFileIds (dom stateTwoTracks)
                                (extractCount fileTwoTracks)))
              ∖ {["gpx-0"]}
    ∧ (extractCount fileTwoTracks = O → d = delete "gpx-0" stateTwoTracks).
Proof.
  apply (extractSelection_file gridDistance stateTwoTracks stateTwoTracks
           "gpx-0" fileTwoTracks).
  vm_compute. reflexivity.
Defined.

(** The id at a position is the same whatever the number of ids asked
    for. *)
Lemma getFileIds_lookup_le observers m n index :
  (index < m)%nat → (index < n)%nat →
  getFileIds observers m !! index = getFileIds observers n !! index.
Proof.
  intros Hm Hn. destruct (decide (m ≤ n)%nat) as [Hle|Hgt].
  - rewrite (getFileIds_take _ _ n Hle). by rewrite lookup_take_lt.
  - rewrite (getFileIds_take observers n m) by lia. by rewrite lookup_take_lt.
Qed.

(** An id asked for beyond the first [m] is none of the first [m]. *)
Lemma getFileIds_lookup_beyond observers m n index id :
  (m ≤ index)%nat → getFileIds observers n !! index = Some id →
  id ∉ getFileIds observers m.
Proof.
  intros Hm Hid Hin.
  assert (index < n)%nat as Hn.
  { apply lookup_lt_Some in Hid. by rewrite getFileIds_length in Hid. }
  rewrite (getFileIds_take observers m n) in Hin by lia.
  apply list_elem_of_lookup in Hin as [j Hj].
  apply lookup_take_Some in Hj as [Hj Hlt].
  pose proof (NoDup_lookup _ _ _ _ (getFileIds_NoDup observers n) Hid Hj). lia.
Qed.

(** X14.  Two selected files with several tracks each, extracted in one
    call: the ids of both are generated from the same observers, so at
    every index at which both files have a track, the new file of the
    track of the second file is stored under the id under which the new
    file of the track of the first file had been stored, and it is the one
    the state holds in the end.  The new files of the tracks of the first
    file at the indices where the second has no track stay. *)
Theorem extractSelection_same_ids distance (original draft : DocumentState)
    a fa b fb :
  original !! a = Some fa → original !! b = Some fb →
  (1 < length (trk fa))%nat → (1 < length (trk fb))%nat →
  ∃ d,
    foldlM (extractVisit distance original) draft [fileVisit a; fileVisit b]
    = Some d
    ∧ (∀ index trackA trackB,
         trk fa !! index = Some trackA → trk fb !! index = Some trackB →
         ∃ id,
           getFileIds (dom original) (length (trk fa)) !! index = Some id
           ∧ getFileIds (dom original) (length (trk fb)) !! index = Some id
           ∧ d !! id
             = Some (extractedTrackFile fb (closestTracks distance fb)
                       (getFileIds (dom original) (length (trk fb)))
                       index trackB))
    ∧ (∀ index trackA,
         trk fa !! index = Some trackA → trk fb !! index = None →
         ∃ id,
           getFileIds (dom original) (length (trk fa)) !! index = Some id
           ∧ d !! id
             = Some (extractedTrackFile fa (closestTracks distance fa)
                       (getFileIds (dom original) (length (trk fa)))
                       index trackA)).
Proof.
  intros Ha Hb Hlena Hlenb. cbn [foldlM].
  assert (∀ d0 : DocumentState, ∀ x fx, original !! x = Some fx →
            extractVisit distance original d0 (fileVisit x)
            = d ← extractFile distance (dom original) fx d0;
              Some (delete x d)) as Hvisit.
  { intros d0 x fx Hx. unfold extractVisit. simpl. by rewrite Hx. }
  assert (∀ n i id, getFileIds (dom original) n !! i = Some id →
            id ≠ a ∧ id ≠ b) as Hfresh.
  { intros n i id Hid.
    apply list_elem_of_lookup_2, getFileIds_fresh in Hid as [Hid _].
    split; intros ->; apply Hid, elem_of_dom; eauto. }
  rewrite (Hvisit _ _ _ Ha).
  destruct (trk fa) as [|ta1 [|ta2 tas]] eqn:Htrka; [simpl in *; lia..|].
  destruct (extractFile_tracks distance (dom original) fa draft
              ta1 ta2 tas Htrka) as (da & -> & Hda).
  cbn [mbind option_bind]. rewrite (Hvisit _ _ _ Hb). clear Hvisit.
  destruct (trk fb) as [|tb1 [|tb2 tbs]] eqn:Htrkb; [simpl in *; lia..|].
  destruct (extractFile_tracks distance (dom original) fb (delete a da)
              tb1 tb2 tbs Htrkb) as (d & Hd & Hdb).
  destruct (extractFile_inserts distance (dom original) fb (delete a da))
    as (kvs & Hkvs & Hkeys).
  rewrite Hd in Hkvs. injection Hkvs as ->. rewrite Hd.
  rewrite <- Htrka, <- Htrkb in *. simpl. eexists. split; [done|]. split.
  - intros index trackA trackB HtrackA HtrackB.
    destruct (Hdb index trackB HtrackB) as (id & Hid & Hfile).
    exists id. split_and!; [|done|].
    + rewrite <- Hid. apply getFileIds_lookup_le.
      * by apply lookup_lt_Some in HtrackA.
      * by apply lookup_lt_Some in HtrackB.
    + rewrite lookup_delete_ne; [done|].
      intros <-. by destruct (Hfresh _ _ _ Hid).
  - intros index trackA HtrackA HtrackB.
    destruct (Hda index trackA HtrackA) as (id & Hid & Hfile).
    exists id. split; [done|].
    destruct (Hfresh _ _ _ Hid) as [Hna Hnb].
    rewrite lookup_delete_ne by done.
    rewrite foldl_insert_other.
    + by rewrite lookup_delete_ne.
    + rewrite Hkeys.
      assert (extractCount fb = length (trk fb)) as ->
        by (unfold extractCount; by rewrite Htrkb).
      apply (getFileIds_lookup_beyond _ _ (length (trk fa)) index); [|done].
      by apply lookup_ge_None_1 in HtrackB.
Qed.

Lemma extractSelection_same_ids_witness :
  ∃ d,
    foldlM (extractVisit gridDistance stateThreeTwo) stateThreeTwo
      [fileVisit "gpx-0"; fileVisit "gpx-1"] = Some d
    ∧ (∀ index trackA trackB,
         trk file3 !! index = Some trackA →
         trk fileTwoMore !! index = Some trackB →
         ∃ id,
           getFileIds (dom stateThreeTwo) (length (trk file3)) !! index
           = Some id
           ∧ getFileIds (dom stateThreeTwo) (length (trk fileTwoMore)) !! index
             = Some id
           ∧ d !! id
             = Some (extractedTrackFile fileTwoMore
                       (closestTracks gridDistance fileTwoMore)
                       (getFileIds (dom stateThreeTwo)
                          (length (trk fileTwoMore)))
                       index trackB))
    ∧ (∀ index trackA,
         trk file3 !! index = Some trackA → trk fileTwoMore !! index = None →
         ∃ id,
           getFileIds (dom stateThreeTwo) (length (trk file3)) !! index
           = Some id
           ∧ d !! id
             = Some (extractedTrackFile file3
                       (closestTracks gridDistance file3)
                       (getFileIds (dom stateThreeTwo) (length (trk file3)))
                       index trackA)).
Proof.
  apply (extractSelection_same_ids gridDistance stateThreeTwo stateThreeTwo
           "gpx-0" file3 "gpx-1" fileTwoMore).
  - vm_compute. reflexivity.
  - vm_compute. reflexivity.
  - simpl. lia.
  - simpl. lia.
Defined.

(** ** Split: the position of the closest point *)

Lemma trackPoints_sum track :
  trackPoints track = sum_list (segmentPoints <$> trkseg track).
Proof.
  unfold trackPoints. induction (trkseg track) as [|s l IH]; [done|].
  simpl. by rewrite IH.
Qed.

Section absolute_index.
Context (splitType : SplitType) (trackIndex segmentIndex : nat).

Local Abbreviation inner :=
  (λ (trkIndex acc' : nat) '(segIndex, seg),
     if bool_decide
          ((trkIndex < trackIndex)%nat ∧ splitType = FILES
           ∨ trkIndex = trackIndex ∧ (segIndex < segmentIndex)%nat)
     then (acc' + segmentPoints seg)%nat else acc').

Lemma absoluteIndex_inner_before trkIndex segments o acc :
  (trkIndex < trackIndex)%nat →
  foldl (inner trkIndex) acc (indexed o segments)
  = (acc + if decide (splitType = FILES)
           then sum_list (segmentPoints <$> segments) else 0)%nat.
Proof.
  intros Hlt. revert o acc.
  induction segments as [|seg segments IH]; intros o acc.
  - cbn. destruct (decide _); lia.
  - rewrite indexed_cons. cbn [foldl]. rewrite IH.
    destruct (decide (splitType = FILES)) as [Hf|Hf].
    + rewrite bool_decide_eq_true_2 by (left; done). csimpl. lia.
    + rewrite bool_decide_eq_false_2 by (intros [[_ ?]|[? _]]; [done|lia]).
      lia.
Qed.

Lemma absoluteIndex_inner_after trkIndex segments o acc :
  (trackIndex < trkIndex)%nat →
  foldl (inner trkIndex) acc (indexed o segments) = acc.
Proof.
  intros Hlt. revert o acc.
  induction segments as [|seg segments IH]; intros o acc; [done|].
  rewrite indexed_cons. cbn [foldl]. rewrite IH.
  by rewrite bool_decide_eq_false_2 by (intros [[? _]|[? _]]; lia).
Qed.

Lemma absoluteIndex_inner_at segments o acc :
  foldl (inner trackIndex) acc (indexed o segments)
  = (acc + sum_list (segmentPoints <$> take (segmentIndex - o) segments))%nat.
Proof.
  revert o acc. induction segments as [|seg segments IH]; intros o acc.
  - rewrite take_nil. csimpl. lia.
  - rewrite indexed_cons. cbn [foldl]. rewrite IH.
    destruct (decide (o < segmentIndex)%nat) as [Hlt|Hge].
    + rewrite bool_decide_eq_true_2 by (right; done).
      replace (segmentIndex - o)%nat with (S (segmentIndex - S o)) by lia.
      csimpl. lia.
    + rewrite bool_decide_eq_false_2 by (intros [[? _]|[_ ?]]; lia).
      replace (segmentIndex - S o)%nat with O by lia.
      replace (segmentIndex - o)%nat with O by lia. done.
Qed.

Lemma absoluteIndex_outer tracks o acc :
  foldl (λ acc '(trkIndex, track),
           foldl (inner trkIndex) acc (imap pair (trkseg track)))
        acc (indexed o tracks)
  = (acc
     + (if decide (splitType = FILES)
        then sum_list (trackPoints <$> take (trackIndex - o) tracks) else 0)
     + if decide (o ≤ trackIndex)%nat
       then match tracks !! (trackIndex - o)%nat with
            | Some track =>
                sum_list (segmentPoints <$> take segmentIndex (trkseg track))
            | None => 0
            end
       else 0)%nat.
Proof.
  revert o acc. induction tracks as [|track tracks IH]; intros o acc.
  - rewrite take_nil. csimpl. repeat destruct (decide _); lia.
  - rewrite indexed_cons. cbn [foldl]. rewrite IH, imap_pair_indexed.
    destruct (lt_eq_lt_dec o trackIndex) as [[Hlt| ->]|Hgt].
    + rewrite absoluteIndex_inner_before by done.
      destruct (decide (S o ≤ trackIndex)%nat); [|lia].
      destruct (decide (o ≤ trackIndex)%nat); [|lia].
      replace (trackIndex - o)%nat with (S (trackIndex - S o)) by lia.
      csimpl. rewrite trackPoints_sum.
      destruct (decide (splitType = FILES)); lia.
    + rewrite absoluteIndex_inner_at.
      replace (trackIndex - S trackIndex)%nat with O by lia.
      rewrite Nat.sub_diag.
      destruct (decide (S trackIndex ≤ trackIndex)%nat); [lia|].
      destruct (decide (trackIndex ≤ trackIndex)%nat); [|lia].
      csimpl. rewrite Nat.sub_0_r.
      destruct (decide (splitType = FILES)); lia.
    + rewrite absoluteIndex_inner_after by done.
      replace (trackIndex - S o)%nat with O by lia.
      replace (trackIndex - o)%nat with O by lia.
      destruct (decide (S o ≤ trackIndex)%nat); [lia|].
      destruct (decide (o ≤ trackIndex)%nat); [lia|].
      csimpl. destruct (decide (splitType = FILES)); lia.
Qed.
End absolute_index.

(** X15.  The index that [split] hands to [crop] is the position of the
    closest point counted from the start of the file when the split makes
    files, and from the start of its track otherwise: the index of the point
    in its segment, plus the points of the segments before it in its track,
    plus, for files, the points of the tracks before. *)
Theorem absoluteIndex_position splitType file trackIndex segmentIndex minIndex
    track :
  trk file !! trackIndex = Some track →
  absoluteIndex splitType file trackIndex segmentIndex minIndex
  = (minIndex
     + (if decide (splitType = FILES)
        then sum_list (trackPoints <$> take trackIndex (trk file)) else 0)
     + sum_list (segmentPoints <$> take segmentIndex (trkseg track)))%nat.
Proof.
  intros Htrack. unfold absoluteIndex.
  rewrite (imap_pair_indexed (trk file)).
  rewrite (absoluteIndex_outer splitType trackIndex segmentIndex).
  rewrite Nat.sub_0_r, Htrack.
  by destruct (decide (0 ≤ trackIndex)%nat); [|lia].
Qed.

Lemma absoluteIndex_position_witness :
  absoluteIndex FILES file3 2 1 0
  = (0 + (if decide (FILES = FILES)
          then sum_list (trackPoints <$> take 2 (trk file3)) else 0)
     + sum_list (segmentPoints
                   <$> take 1 (trkseg (mkTrack (Some "t2")
                          [mkTrackSegment [point 2 0];
                           mkTrackSegment [point 2 1]]))))%nat.
Proof. by apply absoluteIndex_position. Defined.

(** ** Split: the two halves of a segment *)

Lemma replaceRange_one {A} (l items : list A) (s : nat) :
  (s < length l)%nat →
  replaceRange l (Z.of_nat s) (Z.of_nat s) items
  = take s l ++ items ++ drop (S s) l.
Proof.
  intros Hs. unfold replaceRange, clampZ.
  replace (Z.max 0 (Z.min (Z.of_nat (length l)) (Z.of_nat s)))
    with (Z.of_nat s) by lia.
  replace (Z.max (Z.of_nat s - 1)
             (Z.min (Z.of_nat (length l) - 1) (Z.of_nat s)))
    with (Z.of_nat s) by lia.
  rewrite Nat2Z.id. by replace (Z.to_nat (Z.of_nat s + 1)) with (S s) by lia.
Qed.

Lemma cropSegment_start (m : nat) segment :
  cropSegment 0 (Z.of_nat m) segment = mkTrackSegment (take (S m) (trkpt segment)).
Proof.
  unfold cropSegment. rewrite drop_0. do 2 f_equal. lia.
Qed.

Lemma cropSegment_end (m : nat) segment :
  cropSegment (Z.of_nat m) (Z.of_nat (segmentPoints segment) - 1) segment
  = mkTrackSegment (drop m (trkpt segment)).
Proof.
  unfold cropSegment, segmentPoints. f_equal. rewrite Nat2Z.id.
  apply take_ge. rewrite length_drop. lia.
Qed.

(** X16.  [split] into segments always stores a transaction when the
    cache holds the file, under its id, and the track and the segment
    exist: in the row of the file in the table, which is then the file of
    the cache changed, the segment is replaced, in its place, by two
    segments, the points up to the closest point and the points from the
    closest point on (which is in both), the other segments and tracks
    being those of the cache; the other rows of the table are left as they
    were.  When the cache does not hold the file, whatever the kind of
    split, a transaction is stored and the table is left as it was. *)
Theorem split_segments distance fileState observers fileId trackIndex
    segmentIndex coordinates db :
  (∀ file track segment,
     fileState !! fileId = Some file → file_id file = fileId →
     trk file !! trackIndex = Some track →
     trkseg track !! segmentIndex = Some segment →
     let minIndex := (closestPoint distance (trkpt segment) coordinates).2 in
     ∃ db',
       split distance SEGMENTS fileState observers fileId trackIndex
         segmentIndex coordinates db = Some db'
       ∧ patchIndex db' = patchIndex db + 1
       ∧ files db'
         = <[fileId :=
               with_trk
                 (<[trackIndex :=
                      with_trkseg
                        (take segmentIndex (trkseg track)
                         ++ [mkTrackSegment (take (S minIndex) (trkpt segment));
                             mkTrackSegment (drop minIndex (trkpt segment))]
                         ++ drop (S segmentIndex) (trkseg track)) track]>
                    (trk file)) file]> (files db))
  ∧ (fileState !! fileId = None →
     ∀ splitType,
     ∃ db',
       split distance splitType fileState observers fileId trackIndex
         segmentIndex coordinates db = Some db'
       ∧ patchIndex db' = patchIndex db + 1
       ∧ files db' = files db).
Proof.
  split.
  - intros file track segment Hfile Hid Htrack Hsegment minIndex.
    unfold split.
    set (cb := splitCallback distance SEGMENTS fileState observers fileId
                 trackIndex segmentIndex coordinates).
    set (segments := take segmentIndex (trkseg track)
                     ++ [mkTrackSegment (take (S minIndex) (trkpt segment));
                         mkTrackSegment (drop minIndex (trkpt segment))]
                     ++ drop (S segmentIndex) (trkseg track)).
    set (file' := with_trk (<[trackIndex := with_trkseg segments track]>
                              (trk file)) file).
    assert (cb fileState = Some (<[fileId := file']> fileState)) as Hcb.
    { unfold cb, splitCallback. rewrite Hfile. simpl.
      rewrite Htrack. simpl. rewrite Hsegment. simpl.
      unfold replaceTrackSegments. rewrite Htrack. simpl.
      unfold trackReplaceTrackSegments.
      rewrite replaceRange_one by (by apply lookup_lt_Some in Hsegment).
      by rewrite cropSegment_start, cropSegment_end. }
    assert (file' ≠ file) as Hne.
    { intros Heq. apply (f_equal trk) in Heq. simpl in Heq.
      apply (f_equal (λ l, l !! trackIndex)) in Heq.
      rewrite list_lookup_insert_eq in Heq
        by (by apply lookup_lt_Some in Htrack).
      rewrite Htrack in Heq. injection Heq as Heq.
      apply (f_equal (λ t, length (trkseg t))) in Heq. simpl in Heq.
      unfold segments in Heq.
      apply lookup_lt_Some in Hsegment.
      rewrite !length_app, length_take, length_drop in Heq. simpl in Heq.
      lia. }
    destruct (applyGlobalOn_files fileState cb db _ Hcb)
      as (db' & Hdb' & Hindex & Hfiles).
    { intros k f Hf Hold. destruct (decide (k = fileId)) as [->|Hk].
      - rewrite lookup_insert_eq in Hf. by injection Hf as <-.
      - by rewrite lookup_insert_ne in Hf. }
    exists db'. split_and!; [done..|]. apply map_eq. intros k.
    rewrite Hfiles. destruct (decide (k = fileId)) as [->|Hk].
    + rewrite !lookup_insert_eq, Hfile. rewrite decide_False; [done|].
      congruence.
    + rewrite !lookup_insert_ne by done. by rewrite decide_True.
  - intros Hfile splitType. unfold split.
    destruct (applyGlobalOn_files fileState
                (splitCallback distance splitType fileState observers fileId
                   trackIndex segmentIndex coordinates) db fileState)
      as (db' & Hdb' & Hindex & Hfiles).
    + unfold splitCallback. by rewrite Hfile.
    + intros k f Hf Hne. done.
    + exists db'. split_and!; [done..|]. apply map_eq. intros k.
      rewrite Hfiles. by rewrite decide_True.
Qed.

Lemma split_segments_witness :
  (∃ db',
     split gridDistance SEGMENTS state3 (dom state3) "gpx-0" 0 1 halfWay
       (mkDatabase stateAB ∅ None) = Some db'
     ∧ patchIndex db' = patchIndex (mkDatabase stateAB ∅ None) + 1
     ∧ files db'
       = <["gpx-0" :=
             with_trk
               (<[0%nat :=
                    with_trkseg
                      (take 1 [mkTrackSegment [point 0 0];
                               mkTrackSegment [point 0 1]]
                       ++ [mkTrackSegment
                             (take (S (closestPoint gridDistance [point 0 1]
                                         halfWay).2) [point 0 1]);
                           mkTrackSegment
                             (drop (closestPoint gridDistance [point 0 1]
                                      halfWay).2 [point 0 1])]
                       ++ drop 2 [mkTrackSegment [point 0 0];
                                  mkTrackSegment [point 0 1]])
                      (mkTrack (Some "t0")
                         [mkTrackSegment [point 0 0];
                          mkTrackSegment [point 0 1]])]>
                  (trk file3)) file3]> stateAB)
  ∧ (∃ db',
       split gridDistance SEGMENTS state3 (dom state3) "gpx-1" 0 0 halfWay
         (mkDatabase stateAB ∅ None) = Some db'
       ∧ patchIndex db' = patchIndex (mkDatabase stateAB ∅ None) + 1
       ∧ files db' = stateAB).
Proof.
  destruct (split_segments gridDistance state3 (dom state3) "gpx-0" 0 1
              halfWay (mkDatabase stateAB ∅ None)) as [Hsplit _].
  destruct (split_segments gridDistance state3 (dom state3) "gpx-1" 0 0
              halfWay (mkDatabase stateAB ∅ None)) as [_ Hskip].
  split.
  - apply (Hsplit file3
             (mkTrack (Some "t0")
                [mkTrackSegment [point 0 0]; mkTrackSegment [point 0 1]])
             (mkTrackSegment [point 0 1])).
    + vm_compute. reflexivity.
    + reflexivity.
    + reflexivity.
    + reflexivity.
  - apply (Hskip eq_refl SEGMENTS).
Defined.

(** * Further properties of the statistics *)

Section file_statistics.
Context {Stats : Type} (emptyStatistics : Stats)
        (mergeWith : Stats → Stats → Stats)
        (segmentStatistics : TrackSegment → Stats).

Local Abbreviation treeOf := (fileStatisticsTree segmentStatistics).
Local Abbreviation statsFor := (getStatisticsFor emptyStatistics mergeWith).

Lemma trackStatisticsTree_all track item :
  getIdAtLevel item TRACK = IdUndefined →
  statsFor (trackStatisticsTree segmentStatistics track) item
  = trackStatistics emptyStatistics mergeWith segmentStatistics track.
Proof.
  intros Hid. unfold trackStatisticsTree.
  rewrite getStatisticsFor_all by (by rewrite Hid).
  unfold trackStatistics. by rewrite foldl_fmap.
Qed.

Lemma fileStatisticsTree_all file item :
  mergesAll (getIdAtLevel item FILE) = true →
  getIdAtLevel item TRACK = IdUndefined →
  statsFor (treeOf file) item
  = fileStatistics emptyStatistics mergeWith segmentStatistics file.
Proof.
  intros Hfile Htrack. unfold fileStatisticsTree.
  rewrite getStatisticsFor_all by done.
  unfold fileStatistics. rewrite foldl_fmap. apply foldl_ext_eq.
  intros acc track. simpl. f_equal. by apply trackStatisticsTree_all.
Qed.

Lemma fileStatisticsTree_track file item t :
  getIdAtLevel item FILE = IdNumber t →
  statsFor (treeOf file) item
  = match trk file !! t with
    | Some track =>
        mergeWith emptyStatistics
          (statsFor (trackStatisticsTree segmentStatistics track) item)
    | None => emptyStatistics
    end.
Proof.
  intros Hid. unfold fileStatisticsTree.
  rewrite (getStatisticsFor_child _ _ _ _ _ t) by (by rewrite Hid).
  rewrite list_lookup_fmap. by destruct (trk file !! t).
Qed.

Lemma waypoint_item_statistics file item :
  isWaypointItem item = true →
  statsFor (treeOf file) item
  = fileStatistics emptyStatistics mergeWith segmentStatistics file.
Proof. by destruct item; intros; try done; apply fileStatisticsTree_all. Qed.
End file_statistics.

(** X17.  The statistics that the tree of a file gives for an item: for
    the file they are the statistics of all the segments, merged track by
    track; for a track the statistics of its segments merged in their order;
    for a segment its own statistics; for an item of waypoints the
    statistics of the whole file.  A track or a segment that the file does
    not have gives empty statistics.  The file id of the item plays no part. *)
Theorem fileStatisticsTree_items {Stats : Type} (emptyStatistics : Stats)
    (mergeWith : Stats → Stats → Stats)
    (segmentStatistics : TrackSegment → Stats) file :
  let tree := fileStatisticsTree segmentStatistics file in
  let statisticsOf := getStatisticsFor emptyStatistics mergeWith tree in
  let whole := fileStatistics emptyStatistics mergeWith segmentStatistics file in
  (∀ f, statisticsOf (ListFileItem f) = whole)
  ∧ (∀ f, statisticsOf (ListWaypointsItem f) = whole)
  ∧ (∀ f w, statisticsOf (ListWaypointItem f w) = whole)
  ∧ (∀ f t,
       statisticsOf (ListTrackItem f t)
       = match trk file !! t with
         | Some track =>
             mergeWith emptyStatistics
               (trackStatistics emptyStatistics mergeWith segmentStatistics
                  track)
         | None => emptyStatistics
         end)
  ∧ (∀ f t s,
       statisticsOf (ListTrackSegmentItem f t s)
       = match trk file !! t with
         | Some track =>
             mergeWith emptyStatistics
               match trkseg track !! s with
               | Some segment =>
                   mergeWith emptyStatistics (segmentStatistics segment)
               | None => emptyStatistics
               end
         | None => emptyStatistics
         end).
Proof.
  intros tree statisticsOf whole. split_and!.
  - intros f. by apply fileStatisticsTree_all.
  - intros f. by apply fileStatisticsTree_all.
  - intros f w. by apply fileStatisticsTree_all.
  - intros f t. unfold statisticsOf, tree.
    rewrite (fileStatisticsTree_track _ _ _ _ _ t) by done.
    destruct (trk file !! t) as [track|]; [|done].
    by rewrite trackStatisticsTree_all.
  - intros f t s. unfold statisticsOf, tree.
    rewrite (fileStatisticsTree_track _ _ _ _ _ t) by done.
    destruct (trk file !! t) as [track|]; [|done]. f_equal.
    unfold trackStatisticsTree.
    rewrite (getStatisticsFor_child _ _ _ _ _ s) by done.
    rewrite list_lookup_fmap. by destruct (trkseg track !! s).
Qed.

(** ** The statistics of the selection *)

Lemma insertItem_Permutation x l : insertItem x l ≡ₚ x :: l.
Proof.
  induction l as [|y l IH]; simpl; [done|].
  destruct (item_leb x y); [done|]. rewrite IH. apply Permutation_swap.
Qed.

Lemma sortItems_Permutation items rev : sortItems items rev ≡ₚ items.
Proof.
  unfold sortItems.
  assert (foldr insertItem [] items ≡ₚ items) as Hsorted.
  { induction items as [|x items IH]; simpl; [done|].
    by rewrite insertItem_Permutation, IH. }
  destruct rev; [by rewrite reverse_Permutation|done].
Qed.

Lemma filter_file_items sel fileId :
  NoDup sel →
  filter (λ item, getFileId item = Some fileId) (ListFileItem <$> sel)
  = if decide (fileId ∈ sel) then [ListFileItem fileId] else [].
Proof.
  induction 1 as [|x sel Hx Hnd IH]; [done|].
  rewrite fmap_cons, filter_cons, IH. simpl.
  destruct (decide (x = fileId)) as [->|Hne].
  - rewrite decide_True by done. rewrite decide_False by done.
    by rewrite decide_True by left.
  - rewrite decide_False by congruence.
    destruct (decide (fileId ∈ sel)) as [Hin|Hout].
    + by rewrite decide_True by (by right).
    + rewrite decide_False; [done|].
      by intros [?|?]%elem_of_cons.
Qed.

(** The traversal of selected files: one visit per selected file of the
    file order, with the item of the file. *)
Lemma applyToOrderedItemsFromFile_files fileOrder sel rev :
  NoDup sel →
  applyToOrderedItemsFromFile fileOrder (ListFileItem <$> sel) rev
  = fileVisit <$> visitedFiles fileOrder (ListFileItem <$> sel).
Proof.
  intros Hnd. unfold applyToOrderedItemsFromFile, visitedFiles.
  induction fileOrder as [|fileId fileOrder IH]; [done|].
  rewrite filter_cons. cbn [omap list_omap]. rewrite filter_file_items by done.
  destruct (decide (fileId ∈ sel)) as [Hin|Hout].
  - rewrite decide_True.
    + rewrite fmap_cons. f_equal; [by destruct rev|apply IH].
    + apply list_elem_of_fmap. exists (ListFileItem fileId). split; [done|].
      apply list_elem_of_fmap. eauto.
  - rewrite decide_False; [apply IH|].
    intros (item & Hid & (x & -> & Hx)%list_elem_of_fmap)%list_elem_of_fmap.
    simpl in Hid. congruence.
Qed.

Lemma filter_Forall_all {A} (P : A → Prop) `{∀ x, Decision (P x)} l :
  Forall P l → filter P l = l.
Proof.
  induction 1 as [|x l Hx _ IH]; [done|].
  by rewrite filter_cons, decide_True, IH.
Qed.

Lemma filter_Forall_none {A} (P : A → Prop) `{∀ x, Decision (P x)} l :
  Forall (λ x, ¬ P x) l → filter P l = [].
Proof.
  induction 1 as [|x l Hx _ IH]; [done|].
  by rewrite filter_cons, decide_False, IH.
Qed.

(** The traversal of selected items of one file: one visit, with all the
    items. *)
Lemma applyToOrderedItemsFromFile_one fileOrder selected rev fileId item0 :
  NoDup fileOrder → fileId ∈ fileOrder →
  Forall (λ item, getFileId item = Some fileId) selected →
  list.last selected = Some item0 →
  applyToOrderedItemsFromFile fileOrder selected rev
  = [mkVisit fileId (item_level item0) (sortItems selected rev)].
Proof.
  intros Hnd Hin Hsel Hlast. unfold applyToOrderedItemsFromFile.
  assert (∀ id, id ≠ fileId →
            filter (λ item, getFileId item = Some id) selected = []) as Hother.
  { intros id Hid. apply filter_Forall_none.
    eapply list.Forall_impl; [exact Hsel|]. simpl. congruence. }
  assert (filter (λ item, getFileId item = Some fileId) selected = selected)
    as Hsame by (by apply filter_Forall_all).
  assert (∀ l, fileId ∉ l →
            omap (λ id,
                    let items :=
                      filter (λ item, getFileId item = Some id) selected in
                    match list.last items with
                    | Some item => Some (mkVisit id (item_level item)
                                                 (sortItems items rev))
                    | None => None
                    end) l = []) as Hnone.
  { induction l as [|id l IH]; intros Hout; [done|].
    apply not_elem_of_cons in Hout as [Hne Hout]. cbn [omap list_omap].
    rewrite Hother by done. simpl. by apply IH. }
  induction Hnd as [|id l Hid Hnd IH]; [by apply elem_of_nil in Hin|].
  cbn [omap list_omap].
  destruct (decide (id = fileId)) as [->|Hne].
  - rewrite Hsame, Hlast. by rewrite Hnone.
  - rewrite Hother by done. simpl. apply IH.
    by apply elem_of_cons in Hin as [?|?].
Qed.

Section selection_statistics_properties.
Context {Stats : Type} (emptyStatistics : Stats)
        (mergeWith : Stats → Stats → Stats)
        (segmentStatistics : TrackSegment → Stats).

Local Abbreviation statsFor := (getStatisticsFor emptyStatistics mergeWith).
Local Abbreviation items_of := (mergeItems emptyStatistics mergeWith).
Local Abbreviation whole :=
  (fileStatistics emptyStatistics mergeWith segmentStatistics).

Lemma mergeItems_rest_waypoints stats statistics items :
  Forall (λ item, isWaypointItem item = true) items →
  foldl (λ '(statistics, first) item,
           if negb (isWaypointItem item) || first
           then (mergeWith statistics (statsFor stats item), false)
           else (statistics, first))
        (statistics, false) items
  = (statistics, false).
Proof.
  induction 1 as [|item items Hitem _ IH]; [done|].
  cbn [foldl]. by rewrite Hitem.
Qed.

(** Of the items of waypoints of a file only the first is merged. *)
Lemma mergeItems_waypoints stats statistics item items :
  Forall (λ item, isWaypointItem item = true) (item :: items) →
  items_of stats statistics (item :: items)
  = mergeWith statistics (statsFor stats item).
Proof.
  intros [Hitem Hitems]%list.Forall_cons. unfold mergeItems. cbn [foldl].
  rewrite orb_true_r. by rewrite mergeItems_rest_waypoints.
Qed.

Lemma updateGPXData_fileVisits observed l statistics :
  foldl (λ statistics v,
           match getStatistics segmentStatistics observed (visit_fileId v) with
           | Some stats => items_of stats statistics (visit_items v)
           | None => statistics
           end)
        statistics (fileVisit <$> l)
  = foldl (λ acc file, mergeWith acc (whole file)) statistics
          (filesOf observed l).
Proof.
  unfold filesOf. revert statistics.
  induction l as [|fileId l IH]; intros statistics; [done|].
  rewrite fmap_cons. cbn [foldl omap list_omap visit_fileId fileVisit].
  destruct (observed !! fileId) as [file|] eqn:Hfile.
  - assert (getStatistics segmentStatistics observed fileId
            = Some (fileStatisticsTree segmentStatistics file)) as ->
      by (unfold getStatistics; by rewrite Hfile).
    cbn [foldl]. rewrite IH. f_equal. unfold mergeItems.
    cbn [foldl isWaypointItem negb orb fst visit_items fileVisit].
    by rewrite fileStatisticsTree_all.
  - assert (getStatistics segmentStatistics observed fileId = None) as ->
      by (unfold getStatistics; by rewrite Hfile).
    apply IH.
Qed.
End selection_statistics_properties.

(** X18.  [updateGPXData] for a selection of files: the statistics of the
    selected files that are observed, taken in the order of the file order
    and merged one after the other into empty statistics. *)
Theorem updateGPXData_files {Stats : Type} (emptyStatistics : Stats)
    (mergeWith : Stats → Stats → Stats)
    (segmentStatistics : TrackSegment → Stats) observed fileOrder sel :
  NoDup sel →
  updateGPXData emptyStatistics mergeWith segmentStatistics observed fileOrder
    (ListFileItem <$> sel)
  = foldl (λ acc file,
             mergeWith acc
               (fileStatistics emptyStatistics mergeWith segmentStatistics file))
          emptyStatistics
          (filesOf observed (visitedFiles fileOrder (ListFileItem <$> sel))).
Proof.
  intros Hnd. unfold updateGPXData.
  rewrite applyToOrderedItemsFromFile_files by done.
  apply updateGPXData_fileVisits.
Qed.

Lemma updateGPXData_files_witness :
  countStatistics stateAB ["gpx-1"; "gpx-0"]
    (ListFileItem <$> ["gpx-0"; "gpx-1"])
  = foldl (λ acc file, acc + fileStatistics O Nat.add segmentPoints file)%nat
          O
          (filesOf stateAB
             (visitedFiles ["gpx-1"; "gpx-0"]
                (ListFileItem <$> ["gpx-0"; "gpx-1"]))).
Proof.
  apply (updateGPXData_files O Nat.add segmentPoints stateAB).
  apply list.NoDup_cons. split; [|apply NoDup_singleton].
  by intros [=]%list_elem_of_singleton.
Defined.

(** X19.  [updateGPXData] for a selection of waypoints of one file,
    however many: the statistics of the whole file, merged once into empty
    statistics. *)
Theorem updateGPXData_waypoints {Stats : Type} (emptyStatistics : Stats)
    (mergeWith : Stats → Stats → Stats)
    (segmentStatistics : TrackSegment → Stats) observed fileOrder selected
    fileId file :
  observed !! fileId = Some file →
  NoDup fileOrder → fileId ∈ fileOrder → selected ≠ [] →
  Forall (λ item, getFileId item = Some fileId) selected →
  Forall (λ item, isWaypointItem item = true) selected →
  updateGPXData emptyStatistics mergeWith segmentStatistics observed fileOrder
    selected
  = mergeWith emptyStatistics
      (fileStatistics emptyStatistics mergeWith segmentStatistics file).
Proof.
  intros Hfile Hnd Hin Hne Hid Hwpt. unfold updateGPXData.
  destruct (list.last selected) as [item0|] eqn:Hlast;
    [|by apply last_None in Hlast].
  rewrite (applyToOrderedItemsFromFile_one _ _ _ fileId item0) by done.
  cbn [foldl visit_fileId visit_items]. unfold getStatistics.
  rewrite Hfile. cbn [fmap option_fmap option_map].
  pose proof (sortItems_Permutation selected false) as Hperm.
  rewrite <- Hperm in Hwpt.
  destruct (sortItems selected false) as [|item items] eqn:Hsorted.
  - apply Permutation_nil_l in Hperm. by subst.
  - rewrite mergeItems_waypoints by done. f_equal.
    apply waypoint_item_statistics.
    by apply list.Forall_cons in Hwpt as [? _].
Qed.

Lemma updateGPXData_waypoints_witness :
  countStatistics state3w ["gpx-0"]
    [ListWaypointItem "gpx-0" 2; ListWaypointItem "gpx-0" 0]
  = (0 + fileStatistics O Nat.add segmentPoints file3w)%nat.
Proof.
  apply (updateGPXData_waypoints O Nat.add segmentPoints state3w ["gpx-0"]
           [ListWaypointItem "gpx-0" 2; ListWaypointItem "gpx-0" 0]
           "gpx-0" file3w).
  - vm_compute. reflexivity.
  - apply NoDup_singleton.
  - left.
  - done.
  - by repeat constructor.
  - by repeat constructor.
Defined.

(** * Further properties of the observers and the file order *)

Lemma filter_iff_in {A} (P Q : A → Prop) `{∀ x, Decision (P x)}
    `{∀ x, Decision (Q x)} (l : list A) :
  Forall (λ x, P x ↔ Q x) l → filter P l = filter Q l.
Proof.
  induction 1 as [|x l Hx _ IH]; [done|]. rewrite !filter_cons, IH.
  destruct (decide (P x)), (decide (Q x)); tauto.
Qed.

Lemma foldl_push_new (new l : list string) :
  NoDup new →
  foldl (λ l id, if decide (id ∈ l) then l else l ++ [id]) l new
  = l ++ filter (λ id, id ∉ l) new.
Proof.
  intros Hnd. revert l. induction Hnd as [|x new Hx Hnd IH]; intros l.
  - by rewrite filter_nil, app_nil_r.
  - cbn [foldl]. rewrite filter_cons, IH.
    destruct (decide (x ∈ l)) as [Hin|Hout].
    + by rewrite decide_False by (intros Hn; by apply Hn).
    + rewrite decide_True by done. rewrite <- app_assoc. simpl. do 2 f_equal.
      apply filter_iff_in, list.Forall_forall. intros y Hy.
      rewrite elem_of_app, list_elem_of_singleton.
      split; [tauto|]. intros Hyl [?| ->]; done.
Qed.

Lemma remove_first_NoDup (l : list string) x :
  NoDup l →
  match list_find (λ y, y = x) l with
  | Some (index, _) => splice l index 1 []
  | None => l
  end = filter (λ y, y ≠ x) l.
Proof.
  induction 1 as [|y l Hy Hnd IH]; [done|].
  rewrite filter_cons. cbn [list_find].
  destruct (decide (y = x)) as [->|Hne].
  - rewrite decide_False by (intros Hn; by apply Hn).
    unfold splice. simpl. rewrite drop_0. symmetry.
    apply filter_Forall_all. apply list.Forall_forall. by intros z Hz ->.
  - rewrite decide_True by done.
    destruct (list_find (λ y, y = x) l) as [[index z]|]; simpl.
    + rewrite <- IH. unfold splice. done.
    + by rewrite <- IH.
Qed.

Lemma foldl_filter_ne (deleted l : list string) :
  foldl (λ l id, filter (λ y, y ≠ id) l) l deleted
  = filter (λ y, y ∉ deleted) l.
Proof.
  revert l. induction deleted as [|x deleted IH]; intros l; simpl.
  - symmetry. apply filter_Forall_all, list.Forall_forall.
    intros y _. apply not_elem_of_nil.
  - rewrite IH, list_filter_filter. apply list_filter_iff. intros y.
    rewrite not_elem_of_cons. tauto.
Qed.

Lemma foldl_remove_first (deleted l : list string) :
  NoDup l →
  foldl (λ l id,
           match list_find (λ y, y = id) l with
           | Some (index, _) => splice l index 1 []
           | None => l
           end) l deleted
  = filter (λ y, y ∉ deleted) l.
Proof.
  rewrite <- foldl_filter_ne. revert l.
  induction deleted as [|x deleted IH]; intros l Hnd; [done|].
  cbn [foldl]. rewrite remove_first_NoDup by done.
  apply IH. by apply list.NoDup_filter.
Qed.

Section file_observers_properties.
Context (sortByNumber : list string → list string).
Hypothesis sortByNumber_Permutation : ∀ l, sortByNumber l ≡ₚ l.

Lemma elem_of_newFilesOf dbFileIds observers id :
  id ∈ newFilesOf sortByNumber dbFileIds observers
  ↔ id ∈ dbFileIds ∧ id ∉ observers.
Proof.
  unfold newFilesOf. rewrite sortByNumber_Permutation, list_elem_of_filter.
  tauto.
Qed.

Lemma NoDup_newFilesOf dbFileIds observers :
  NoDup dbFileIds → NoDup (newFilesOf sortByNumber dbFileIds observers).
Proof.
  intros Hnd. unfold newFilesOf. rewrite sortByNumber_Permutation.
  by apply list.NoDup_filter.
Qed.

Lemma elem_of_deletedFilesOf dbFileIds observers id :
  id ∈ deletedFilesOf dbFileIds observers
  ↔ id ∈ observers ∧ (id ∉ dbFileIds ∨ id = "").
Proof. unfold deletedFilesOf. rewrite list_elem_of_filter. tauto. Qed.

Lemma onFileIds_unfold frozen dbFileIds observers order :
  NoDup dbFileIds → NoDup order →
  let newFiles := newFilesOf sortByNumber dbFileIds observers in
  let deletedFiles := deletedFilesOf dbFileIds observers in
  frozen = false ∨ deletedFiles = [] →
  onFileIds sortByNumber frozen dbFileIds observers order
  = (filter (λ id, id ∉ deletedFiles) observers ++ newFiles,
     filter (λ id, id ∉ deletedFiles)
       (order ++ filter (λ id, id ∉ order) newFiles)).
Proof.
  intros Hdb Horder newFiles deletedFiles Hfrozen.
  assert (frozen && bool_decide (deletedFiles ≠ []) = false) as Hraise.
  { destruct Hfrozen as [->| ->]; [done|].
    rewrite bool_decide_eq_false_2 by (by intros []). apply andb_false_r. }
  pose proof (NoDup_newFilesOf dbFileIds observers Hdb) as Hnew.
  fold newFiles in Hnew.
  assert (filter (λ id, id ∉ observers) newFiles = newFiles) as Hall.
  { apply filter_Forall_all, list.Forall_forall.
    by intros id [_ ?]%elem_of_newFilesOf. }
  assert (filter (λ id, id ∉ deletedFiles) newFiles = newFiles) as Hkept.
  { apply filter_Forall_all, list.Forall_forall.
    intros id [_ Hid]%elem_of_newFilesOf [? _]%elem_of_deletedFilesOf. done. }
  unfold onFileIds. fold newFiles deletedFiles. rewrite Hraise.
  destruct (decide (newFiles ≠ [] ∨ deletedFiles ≠ [])) as [Hch|Hsame].
  - unfold updateObservers, updateFileOrder.
    rewrite !foldl_push_new by done. rewrite foldl_filter_ne.
    rewrite foldl_remove_first.
    + by rewrite Hall, list.filter_app, Hkept.
    + apply list.NoDup_app. split_and!; [done| |by apply list.NoDup_filter].
      by intros id Hid [? _]%list_elem_of_filter.
  - assert (newFiles = []) as Hn
      by (destruct newFiles; [done|exfalso; apply Hsame; by left]).
    assert (deletedFiles = []) as Hd
      by (destruct deletedFiles; [done|exfalso; apply Hsame; by right]).
    rewrite Hn, Hd, filter_nil, !app_nil_r.
    f_equal; symmetry; apply filter_Forall_all, list.Forall_forall;
      intros y _; apply not_elem_of_nil.
Qed.

(** With [fileState] frozen and an observer to delete, the new observers
    are added and nothing else is done. *)
Lemma onFileIds_frozen dbFileIds observers order :
  NoDup dbFileIds →
  let newFiles := newFilesOf sortByNumber dbFileIds observers in
  let deletedFiles := deletedFilesOf dbFileIds observers in
  deletedFiles ≠ [] →
  onFileIds sortByNumber true dbFileIds observers order
  = (observers ++ newFiles, order).
Proof.
  intros Hdb newFiles deletedFiles Hdel.
  pose proof (NoDup_newFilesOf dbFileIds observers Hdb) as Hnew.
  fold newFiles in Hnew.
  unfold onFileIds. fold newFiles deletedFiles.
  rewrite decide_True by (by right).
  rewrite bool_decide_eq_true_2 by done. simpl.
  unfold updateObservers. simpl. rewrite foldl_push_new by done.
  do 2 f_equal. apply filter_Forall_all, list.Forall_forall.
  by intros id [_ ?]%elem_of_newFilesOf.
Qed.
End file_observers_properties.

(** X20.  When the ids of the table change, the handler of the live
    query, unless [fileState] is frozen and there is an observer to delete,
    leaves an observer for exactly the ids of the table, and no other (the
    empty string apart, which loses its observer when it has one).  In the
    file order the files that are still in the table keep their places,
    those that are gone are taken out, and the new ones are appended,
    sorted; a file order that listed the files observed before, without
    repetition, lists the files observed now.  With [fileState] frozen and
    an observer to delete, [destroy] raises: the new files get their
    observers, the observers to delete stay, and the file order is left as
    it was, without the new files. *)
Theorem onFileIds_sync (sortByNumber : list string → list string)
    frozen dbFileIds observers order :
  (∀ l, sortByNumber l ≡ₚ l) →
  NoDup dbFileIds → NoDup observers → NoDup order →
  let newFiles := newFilesOf sortByNumber dbFileIds observers in
  let deletedFiles := deletedFilesOf dbFileIds observers in
  let result := onFileIds sortByNumber frozen dbFileIds observers order in
  (frozen = false ∨ deletedFiles = [] →
   (∀ id, id ∈ result.1 ↔ id ∈ dbFileIds ∧ ¬ (id = "" ∧ id ∈ observers))
   ∧ NoDup result.1
   ∧ result.2 = filter (λ id, id ∉ deletedFiles) order
                ++ filter (λ id, id ∉ order) newFiles
   ∧ NoDup result.2
   ∧ ((∀ id, id ∈ order ↔ id ∈ observers) →
      ∀ id, id ∈ result.2 ↔ id ∈ result.1))
  ∧ (frozen = true → deletedFiles ≠ [] →
     result = (observers ++ newFiles, order)).
Proof.
  intros Hsort Hdb Hobs Horder newFiles deletedFiles result. split.
  2:{ intros -> Hdel. by apply onFileIds_frozen. }
  intros Hfrozen.
  unfold result. rewrite (onFileIds_unfold _ Hsort) by done.
  fold newFiles deletedFiles. cbn [fst snd].
  pose proof (NoDup_newFilesOf _ Hsort dbFileIds observers Hdb) as Hnew.
  fold newFiles in Hnew.
  assert (filter (λ id, id ∉ deletedFiles) (filter (λ id, id ∉ order) newFiles)
          = filter (λ id, id ∉ order) newFiles) as Hkept.
  { apply filter_Forall_all, list.Forall_forall.
    intros id [_ [_ Hid]%(elem_of_newFilesOf _ Hsort)]%list_elem_of_filter.
    by intros [? _]%elem_of_deletedFilesOf. }
  assert (∀ id, id ∈ filter (λ id, id ∉ deletedFiles) observers ++ newFiles
                ↔ id ∈ dbFileIds ∧ ¬ (id = "" ∧ id ∈ observers)) as Hmem.
  { intros id. rewrite elem_of_app, list_elem_of_filter.
    unfold newFiles, deletedFiles.
    rewrite (elem_of_newFilesOf _ Hsort), elem_of_deletedFilesOf.
    destruct (decide (id ∈ dbFileIds)), (decide (id ∈ observers)),
      (decide (id = "")); tauto. }
  split_and!.
  - exact Hmem.
  - apply list.NoDup_app. split_and!; [by apply list.NoDup_filter| |done].
    intros id [_ Hid]%list_elem_of_filter.
    by intros [_ ?]%(elem_of_newFilesOf _ Hsort).
  - by rewrite list.filter_app, Hkept.
  - rewrite list.filter_app, Hkept.
    apply list.NoDup_app. split_and!; [by apply list.NoDup_filter| |].
    + intros id [_ Hid]%list_elem_of_filter [? _]%list_elem_of_filter. done.
    + by apply list.NoDup_filter.
  - intros Hlists id. rewrite Hmem, list.filter_app, Hkept.
    rewrite elem_of_app, !list_elem_of_filter.
    unfold newFiles, deletedFiles.
    rewrite (elem_of_newFilesOf _ Hsort), elem_of_deletedFilesOf, Hlists.
    destruct (decide (id ∈ dbFileIds)), (decide (id ∈ observers)),
      (decide (id = "")); tauto.
Qed.

Lemma onFileIds_sync_witness :
  let result := onFileIds (λ l, l) false ["gpx-0"; "gpx-2"] ["gpx-0"; "gpx-1"]
                  ["gpx-1"; "gpx-0"] in
  ((∀ id, id ∈ result.1
          ↔ id ∈ ["gpx-0"; "gpx-2"]
            ∧ ¬ (id = "" ∧ id ∈ ["gpx-0"; "gpx-1"]))
   ∧ NoDup result.1
   ∧ result.2
     = filter (λ id, id ∉ deletedFilesOf ["gpx-0"; "gpx-2"] ["gpx-0"; "gpx-1"])
         ["gpx-1"; "gpx-0"]
       ++ filter (λ id, id ∉ ["gpx-1"; "gpx-0"])
            (newFilesOf (λ l, l) ["gpx-0"; "gpx-2"] ["gpx-0"; "gpx-1"])
   ∧ NoDup result.2
   ∧ ((∀ id, id ∈ ["gpx-1"; "gpx-0"] ↔ id ∈ ["gpx-0"; "gpx-1"]) →
      ∀ id, id ∈ result.2 ↔ id ∈ result.1))
  ∧ onFileIds (λ l, l) true ["gpx-0"; "gpx-2"] ["gpx-0"; "gpx-1"]
      ["gpx-1"; "gpx-0"]
    = (["gpx-0"; "gpx-1"; "gpx-2"], ["gpx-1"; "gpx-0"]).
Proof.
  assert (NoDup ["gpx-0"; "gpx-2"] ∧ NoDup ["gpx-0"; "gpx-1"]
          ∧ NoDup ["gpx-1"; "gpx-0"]) as (Hdb & Hobs & Horder).
  { split_and!; (apply list.NoDup_cons; split; [|apply NoDup_singleton]);
      by intros [=]%list_elem_of_singleton. }
  split.
  - apply (onFileIds_sync (λ l, l) false ["gpx-0"; "gpx-2"]
             ["gpx-0"; "gpx-1"] ["gpx-1"; "gpx-0"]); [done..|by left].
  - apply (onFileIds_sync (λ l, l) true ["gpx-0"; "gpx-2"]
             ["gpx-0"; "gpx-1"] ["gpx-1"; "gpx-0"]); [done..|].
    vm_compute. by intros [=].
Defined.

(** * Further properties of the layer colours *)

Lemma NoDup_colors : NoDup colors.
Proof. apply (bool_decide_unpack (NoDup colors)). vm_compute. reflexivity. Qed.

Section least_used.
Context (colorCount : gmap string Z).

Local Abbreviation pick := (λ a b, if countLe colorCount a b then a else b).

(** The fold keeps the first of the least used colours seen so far. *)
Lemma leastUsed_fold pre a mid rest n :
  colorCount !! a = Some n →
  Forall (λ c, ∃ m, colorCount !! c = Some m ∧ n < m) pre →
  Forall (λ c, ∃ m, colorCount !! c = Some m ∧ n ≤ m) mid →
  Forall (λ c, is_Some (colorCount !! c)) rest →
  ∃ pre' color mid' n',
    foldl pick a rest = color
    ∧ pre ++ a :: mid ++ rest = pre' ++ color :: mid'
    ∧ colorCount !! color = Some n'
    ∧ Forall (λ c, ∃ m, colorCount !! c = Some m ∧ n' < m) pre'
    ∧ Forall (λ c, ∃ m, colorCount !! c = Some m ∧ n' ≤ m) mid'.
Proof.
  revert pre a mid n. induction rest as [|b rest IH]; intros pre a mid n Ha Hpre Hmid Hrest.
  - exists pre, a, mid, n. by rewrite app_nil_r.
  - apply list.Forall_cons in Hrest as [[m Hb] Hrest]. cbn [foldl].
    assert (countLe colorCount a b = bool_decide (n ≤ m)) as ->
      by (unfold countLe; by rewrite Ha, Hb).
    destruct (decide (n ≤ m)) as [Hle|Hgt].
    + rewrite bool_decide_eq_true_2 by done.
      destruct (IH pre a (mid ++ [b]) n Ha Hpre) as (pre' & color & mid' & n' & H);
        [|done|].
      * apply Forall_app. split; [done|]. apply Forall_singleton. eauto.
      * exists pre', color, mid', n'. by rewrite <- app_assoc in H.
    + rewrite bool_decide_eq_false_2 by done.
      destruct (IH (pre ++ a :: mid) b [] m Hb) as (pre' & color & mid' & n' & H);
        [|done|done|].
      * apply Forall_app. split; [|apply list.Forall_cons; split].
        -- eapply list.Forall_impl; [exact Hpre|].
           intros c (k & ? & ?). exists k. split; [done|lia].
        -- exists n. split; [done|lia].
        -- eapply list.Forall_impl; [exact Hmid|].
           intros c (k & ? & ?). exists k. split; [done|lia].
      * exists pre', color, mid', n'. by rewrite <- app_assoc in H.
Qed.

Lemma getColor_split :
  Forall (λ c, is_Some (colorCount !! c)) colors →
  ∃ pre color mid n,
    getColor colorCount = Some (color, alter Z.succ color colorCount)
    ∧ colors = pre ++ color :: mid
    ∧ colorCount !! color = Some n
    ∧ Forall (λ c, ∃ m, colorCount !! c = Some m ∧ n < m) pre
    ∧ Forall (λ c, ∃ m, colorCount !! c = Some m ∧ n ≤ m) mid.
Proof.
  intros Hall. unfold getColor, leastUsed.
  destruct colors as [|first rest] eqn:Hcolors; [done|].
  apply list.Forall_cons in Hall as [[n Hn] Hrest].
  destruct (leastUsed_fold [] first [] rest n Hn) as (pre & color & mid & n' & H);
    [done..|].
  destruct H as (Hfold & Hsplit & Hn' & Hpre & Hmid). simpl in Hsplit.
  exists pre, color, mid, n'. rewrite Hfold. by split_and!.
Qed.
End least_used.

Lemma decrementColor_getColor colorCount color n :
  colorCount !! color = Some n →
  decrementColor color (alter Z.succ color colorCount) = colorCount.
Proof.
  intros Hn. unfold decrementColor. rewrite decide_True.
  - apply map_eq. intros c. destruct (decide (c = color)) as [->|Hne].
    + rewrite !lookup_alter_eq, Hn. simpl. f_equal. lia.
    + by rewrite !lookup_alter_ne.
  - apply elem_of_dom. rewrite lookup_alter_eq, Hn. simpl. eauto.
Qed.

(** X21.  When every colour of the table has a count, [getColor] returns
    a colour of the table that has the least count, the first of them in the
    order of the table, and adds one to the count of this colour only;
    [decrementColor] of the colour gives the counts back. *)
Theorem getColor_least colorCount :
  Forall (λ c, is_Some (colorCount !! c)) colors →
  ∃ pre color mid n,
    getColor colorCount = Some (color, alter Z.succ color colorCount)
    ∧ colors = pre ++ color :: mid
    ∧ colorCount !! color = Some n
    ∧ Forall (λ c, ∃ m, colorCount !! c = Some m ∧ n < m) pre
    ∧ Forall (λ c, ∃ m, colorCount !! c = Some m ∧ n ≤ m) mid
    ∧ alter Z.succ color colorCount !! color = Some (n + 1)
    ∧ (∀ c, c ≠ color →
         alter Z.succ color colorCount !! c = colorCount !! c)
    ∧ decrementColor color (alter Z.succ color colorCount) = colorCount.
Proof.
  intros (pre & color & mid & n & Hget & Hsplit & Hn & Hpre & Hmid)%getColor_split.
  exists pre, color, mid, n.
  assert (alter Z.succ color colorCount !! color = Some (n + 1)) as Hnew
    by (rewrite lookup_alter_eq, Hn; simpl; f_equal; lia).
  split_and!; [done..| |].
  - intros c Hc. by apply lookup_alter_ne.
  - by apply (decrementColor_getColor _ _ n).
Qed.

Lemma getColor_least_witness :
  ∃ pre color mid n,
    getColor initialColorCount
    = Some (color, alter Z.succ color initialColorCount)
    ∧ colors = pre ++ color :: mid
    ∧ initialColorCount !! color = Some n
    ∧ Forall (λ c, ∃ m, initialColorCount !! c = Some m ∧ n < m) pre
    ∧ Forall (λ c, ∃ m, initialColorCount !! c = Some m ∧ n ≤ m) mid
    ∧ alter Z.succ color initialColorCount !! color = Some (n + 1)
    ∧ (∀ c, c ≠ color →
         alter Z.succ color initialColorCount !! c = initialColorCount !! c)
    ∧ decrementColor color (alter Z.succ color initialColorCount)
      = initialColorCount.
Proof.
  apply getColor_least.
  apply (bool_decide_unpack
           (Forall (λ c, is_Some (initialColorCount !! c)) colors)).
  vm_compute. reflexivity.
Defined.

(** ** The colours of a series of layers *)

Lemma countsAt_defined q r colorCount :
  countsAt q r colorCount → Forall (λ c, is_Some (colorCount !! c)) colors.
Proof.
  intros Hst. apply list.Forall_forall. intros c [i Hi]%list_elem_of_lookup.
  rewrite (Hst i c Hi). eauto.
Qed.

Lemma countsAt_step q r colorCount color :
  countsAt q r colorCount → colors !! r = Some color →
  getColor colorCount = Some (color, alter Z.succ color colorCount)
  ∧ countsAt q (S r) (alter Z.succ color colorCount).
Proof.
  intros Hst Hr.
  destruct (getColor_split colorCount (countsAt_defined _ _ _ Hst))
    as (pre & color' & mid & n & Hget & Hsplit & Hn & Hpre & Hmid).
  assert (colors !! length pre = Some color') as Hp.
  { rewrite Hsplit. by rewrite list_lookup_middle. }
  rewrite (Hst _ _ Hp) in Hn.
  pose proof (Hst _ _ Hr) as Hcount.
  rewrite decide_False in Hcount by lia.
  assert (length pre = r) as Hlen.
  { destruct (lt_eq_lt_dec (length pre) r) as [[Hlt|Heq]|Hgt]; [|done|].
    - exfalso. rewrite decide_True in Hn by done. injection Hn as <-.
      assert (color ∈ mid) as Hin.
      { apply list_elem_of_lookup. exists (r - S (length pre))%nat.
        rewrite Hsplit in Hr.
        rewrite lookup_app_r in Hr by lia.
        replace (r - length pre)%nat with (S (r - S (length pre))) in Hr by lia.
        done. }
      rewrite list.Forall_forall in Hmid.
      destruct (Hmid _ Hin) as (m & Hm & Hle). rewrite Hcount in Hm.
      injection Hm as <-. lia.
    - exfalso. rewrite decide_False in Hn by lia. injection Hn as <-.
      assert (color ∈ pre) as Hin.
      { apply list_elem_of_lookup. exists r.
        rewrite Hsplit in Hr. by rewrite lookup_app_l in Hr. }
      rewrite list.Forall_forall in Hpre.
      destruct (Hpre _ Hin) as (m & Hm & Hle). rewrite Hcount in Hm.
      injection Hm as <-. lia. }
  rewrite Hlen, Hr in Hp. injection Hp as <-. split; [done|].
  intros i c Hi. destruct (decide (c = color)) as [->|Hne].
  - assert (i = r) as -> by (by apply (NoDup_lookup colors i r color NoDup_colors)).
    rewrite lookup_alter_eq, Hcount, decide_True by lia. done.
  - rewrite lookup_alter_ne by done. rewrite (Hst _ _ Hi).
    assert (i ≠ r) by (intros ->; congruence).
    destruct (decide (i < r)%nat), (decide (i < S r)%nat); try done; lia.
Qed.

Lemma countsAt_wrap q colorCount :
  countsAt q (length colors) colorCount → countsAt (q + 1) 0 colorCount.
Proof.
  intros Hst i c Hi. rewrite (Hst _ _ Hi).
  apply lookup_lt_Some in Hi as Hlt.
  by rewrite decide_True, decide_False by lia.
Qed.

Lemma getColors_run q m :
  ∀ r colorCount,
  (r + m ≤ length colors)%nat → countsAt q r colorCount →
  ∃ colorCount',
    getColors m colorCount = Some (take m (drop r colors), colorCount')
    ∧ countsAt q (r + m) colorCount'.
Proof.
  induction m as [|m IH]; intros r colorCount Hlen Hst.
  - exists colorCount. by rewrite Nat.add_0_r.
  - destruct (lookup_lt_is_Some_2 colors r ltac:(lia)) as [color Hr].
    destruct (countsAt_step _ _ _ _ Hst Hr) as [Hget Hst'].
    destruct (IH (S r) _ ltac:(lia) Hst') as (cc' & Hrun & Hend).
    exists cc'. cbn [getColors]. rewrite Hget. simpl. rewrite Hrun. simpl.
    rewrite (drop_S colors color r Hr). simpl.
    split; [done|]. by replace (r + S m)%nat with (S r + m)%nat by lia.
Qed.

Lemma getColors_add a b colorCount :
  getColors (a + b) colorCount
  = '(l1, colorCount1) ← getColors a colorCount;
    '(l2, colorCount2) ← getColors b colorCount1;
    Some (l1 ++ l2, colorCount2).
Proof.
  revert colorCount. induction a as [|a IH]; intros colorCount.
  - simpl. destruct (getColors b colorCount) as [[l2 cc2]|]; done.
  - cbn [getColors Nat.add].
    destruct (getColor colorCount) as [[color cc1]|]; [|done]. simpl.
    rewrite IH. destruct (getColors a cc1) as [[l1 cc2]|]; [|done]. simpl.
    destruct (getColors b cc2) as [[l2 cc3]|]; done.
Qed.

Lemma getColors_rounds q r :
  (r ≤ length colors)%nat →
  ∀ q0 colorCount, countsAt q0 0 colorCount →
  ∃ colorCount',
    getColors (q * length colors + r) colorCount
    = Some (mjoin (replicate q colors) ++ take r colors, colorCount')
    ∧ countsAt (q0 + Z.of_nat q) r colorCount'.
Proof.
  intros Hr. induction q as [|q IH]; intros q0 colorCount Hst.
  - destruct (getColors_run q0 r 0 colorCount ltac:(lia) Hst)
      as (cc' & Hrun & Hend).
    exists cc'. simpl. rewrite Hrun, drop_0. split; [done|].
    by replace (q0 + Z.of_nat 0) with q0 by lia.
  - replace (S q * length colors + r)%nat
      with (length colors + (q * length colors + r))%nat by lia.
    rewrite getColors_add.
    destruct (getColors_run q0 (length colors) 0 colorCount ltac:(lia) Hst)
      as (cc1 & Hrun & Hend).
    rewrite Hrun, drop_0, firstn_all. cbn [mbind option_bind].
    destruct (IH (q0 + 1) cc1 (countsAt_wrap _ _ Hend)) as (cc' & Hrest & Hst').
    rewrite Hrest. cbn [mbind option_bind replicate mjoin list_join].
    exists cc'. rewrite <- app_assoc.
    split; [done|].
    by replace (q0 + Z.of_nat (S q)) with (q0 + 1 + Z.of_nat q) by lia.
Qed.

Lemma countsAt_initial : countsAt 0 0 initialColorCount.
Proof.
  intros i color Hi. simpl.
  assert (Forall (λ c, initialColorCount !! c = Some 0) colors) as Hall.
  { apply (bool_decide_unpack
             (Forall (λ c, initialColorCount !! c = Some 0) colors)).
    vm_compute. reflexivity. }
  rewrite list.Forall_forall in Hall. apply Hall.
  by apply list_elem_of_lookup_2 in Hi.
Qed.

(** X22.  As long as no colour is given back, [getColor] hands out the
    colours of the table in the order of the table, round after round: the
    first eleven layers get eleven different colours, the twelfth the first
    colour again. *)
Theorem getColors_round_robin q r :
  (r ≤ length colors)%nat →
  fst <$> getColors (q * length colors + r) initialColorCount
  = Some (mjoin (replicate q colors) ++ take r colors).
Proof.
  intros Hr.
  destruct (getColors_rounds q r Hr 0 _ countsAt_initial) as (cc' & -> & _).
  done.
Qed.

Lemma getColors_round_robin_witness :
  fst <$> getColors (1 * length colors + 1) initialColorCount
  = Some (mjoin (replicate 1 colors) ++ take 1 colors).
Proof. apply getColors_round_robin. simpl. lia. Defined.

(** * Further properties of [applyEachToFilesAndGlobal] *)

Section apply_each.
Context (callbacks : list (GPXFile → option GPXFile)).

Local Abbreviation each :=
  (λ (acc : option DocumentState) '(index, fileId),
     d ← acc;
     match d !! fileId with
     | Some file =>
         cb ← callbacks !! index;
         f' ← cb file; Some (<[fileId := f']> d)
     | None => Some d
     end).

Lemma applyEach_fold_None l : foldl each None l = None.
Proof. induction l as [|[i id] l IH]; [done|]. apply IH. Qed.

(** The files phase: the callback at the position of an id is the one that
    is called on the file of the id. *)
Lemma applyEach_fold fileIds :
  NoDup fileIds →
  ∀ o (d0 d : DocumentState),
  foldl each (Some d0) (indexed o fileIds) = Some d →
  (∀ j fileId f, fileIds !! j = Some fileId → d0 !! fileId = Some f →
     ∃ cb f', callbacks !! (o + j)%nat = Some cb ∧ cb f = Some f'
       ∧ d !! fileId = Some f')
  ∧ (∀ k, k ∉ fileIds → d !! k = d0 !! k).
Proof.
  induction 1 as [|fileId fileIds Hout Hnd IH]; intros o d0 d.
  - intros [= ->]. split; [|done]. intros j fileId f Hj.
    by rewrite lookup_nil in Hj.
  - rewrite indexed_cons. cbn [foldl]. cbn [mbind option_bind].
    destruct (d0 !! fileId) as [f0|] eqn:Hf0.
    + destruct (callbacks !! o) as [cb|] eqn:Hcb;
        [|cbn [mbind option_bind]; by rewrite applyEach_fold_None].
      cbn [mbind option_bind].
      destruct (cb f0) as [f0'|] eqn:Hf0';
        [|cbn [mbind option_bind]; by rewrite applyEach_fold_None].
      cbn [mbind option_bind]. intros [Hpos Hother]%IH. split.
      * intros [|j] id f Hid Hf.
        -- injection Hid as <-. rewrite Hf0 in Hf. injection Hf as <-.
           exists cb, f0'. rewrite Nat.add_0_r. split_and!; [done..|].
           rewrite Hother by done. apply lookup_insert_eq.
        -- simpl in Hid.
           assert (id ≠ fileId)
             by (intros ->; apply Hout; by apply list_elem_of_lookup_2 in Hid).
           destruct (Hpos j id f Hid) as (cb' & f' & ? & ? & ?).
           { by rewrite lookup_insert_ne. }
           exists cb', f'. by replace (o + S j)%nat with (S o + j)%nat by lia.
      * intros k [Hne Hk]%not_elem_of_cons.
        rewrite Hother by done. by apply lookup_insert_ne.
    + intros [Hpos Hother]%IH. split.
      * intros [|j] id f Hid Hf.
        -- injection Hid as <-. congruence.
        -- simpl in Hid. destruct (Hpos j id f Hid Hf) as (cb' & f' & ? & ? & ?).
           exists cb', f'. by replace (o + S j)%nat with (S o + j)%nat by lia.
      * intros k [Hne Hk]%not_elem_of_cons. by apply Hother.
Qed.
End apply_each.

(** X23.  A transaction of [applyEachToFilesAndGlobal] on ids that are
    different from each other pairs the callbacks with the ids by position:
    the file that the cache holds for the id at position [i] is replaced by
    what the callback at position [i] makes of it (an id without file in the
    cache is skipped and its callback is not called), the files that are not
    listed are left alone, and the global callback sees the state after
    that.  A file whose position has no callback makes the transaction
    fail.  When the state that the global callback leaves has every file
    under its own id, the table takes the rows of this state at the ids on
    which it differs from the cache, and a row of the table that changes
    becomes the row of this state. *)
Theorem applyEachToFilesAndGlobal_positions fileState fileIds callbacks
    globalCallback db db' :
  NoDup fileIds →
  applyEachToFilesAndGlobalOn fileState fileIds callbacks globalCallback db
  = Some db' →
  ∃ d S',
    (∀ i fileId f, fileIds !! i = Some fileId → fileState !! fileId = Some f →
       ∃ cb f', callbacks !! i = Some cb ∧ cb f = Some f'
         ∧ d !! fileId = Some f')
    ∧ (∀ k, k ∉ fileIds → d !! k = fileState !! k)
    ∧ globalCallback d = Some S'
    ∧ patchIndex db' = patchIndex db + 1
    ∧ (keyed S' →
       (∀ k, fileState !! k ≠ S' !! k → files db' !! k = S' !! k)
       ∧ (∀ k, files db' !! k ≠ files db !! k → files db' !! k = S' !! k)).
Proof.
  intros Hnd Hcommit. unfold applyEachToFilesAndGlobalOn in Hcommit.
  destruct (applyGlobalOn_inv _ _ _ _ Hcommit) as (S' & HS' & Hindex & Hfiles).
  cbn beta in HS'.
  destruct (foldl _ (Some fileState) _) as [d|] eqn:Hfold; [|done].
  cbn [mbind option_bind] in HS'.
  change (imap (λ i x, (i, x)) fileIds) with (indexed 0 fileIds) in Hfold.
  destruct (applyEach_fold callbacks fileIds Hnd 0 _ _ Hfold) as [Hpos Hother].
  exists d, S'. split_and!; [exact Hpos|exact Hother|done|done|].
  intros Hkeyed. specialize (Hfiles (λ k f Hf _, Hkeyed k f Hf)).
  split; intros k; rewrite Hfiles; by destruct (decide _).
Qed.

Lemma applyEachToFilesAndGlobal_positions_witness :
  ∃ db' d S',
    applyEachToFilesAndGlobalOn {["gpx-0" := fileA]} ["gpx-1"; "gpx-0"]
      [λ f, None; λ f, Some (with_metadata_name "renamed" f)]
      (λ d, Some d) (mkDatabase stateAB ∅ None) = Some db'
    ∧ (∀ i fileId f, ["gpx-1"; "gpx-0"] !! i = Some fileId →
         ({["gpx-0" := fileA]} : DocumentState) !! fileId = Some f →
         ∃ cb f', [λ f, None; λ f, Some (with_metadata_name "renamed" f)] !! i
                  = Some cb
           ∧ cb f = Some f' ∧ d !! fileId = Some f')
    ∧ (∀ k, k ∉ ["gpx-1"; "gpx-0"] →
         d !! k = ({["gpx-0" := fileA]} : DocumentState) !! k)
    ∧ Some d = Some S'
    ∧ patchIndex db' = patchIndex (mkDatabase stateAB ∅ None) + 1
    ∧ (keyed S' →
       (∀ k, ({["gpx-0" := fileA]} : DocumentState) !! k ≠ S' !! k →
          files db' !! k = S' !! k)
       ∧ (∀ k, files db' !! k ≠ stateAB !! k → files db' !! k = S' !! k))
    ∧ files db'
      = {["gpx-0" := with_metadata_name "renamed" fileA; "gpx-1" := fileB]}.
Proof.
  destruct (applyEachToFilesAndGlobalOn {["gpx-0" := fileA]}
              ["gpx-1"; "gpx-0"]
              [λ f, None; λ f, Some (with_metadata_name "renamed" f)]
              (λ d, Some d) (mkDatabase stateAB ∅ None)) as [db'|] eqn:Hcommit;
    [|by vm_compute in Hcommit].
  exists db'.
  destruct (applyEachToFilesAndGlobal_positions {["gpx-0" := fileA]}
              ["gpx-1"; "gpx-0"]
              [λ f, None; λ f, Some (with_metadata_name "renamed" f)]
              (λ d, Some d) (mkDatabase stateAB ∅ None) db')
    as (d & S' & Hpos & Hother & Hglobal & Hindex & Hfiles).
  - apply list.NoDup_cons. split; [|apply NoDup_singleton].
    by intros [=]%list_elem_of_singleton.
  - done.
  - exists d, S'. split_and!; try done.
    vm_compute in Hcommit. injection Hcommit as <-. vm_compute. reflexivity.
Defined.

(** * Further properties of extract at the level of tracks *)

Lemma expandFrom_false {A} o (P : nat → bool) (g : A → list A) l :
  (∀ i, (o ≤ i)%nat → P i = false) → expandFrom o P g l = l.
Proof.
  revert o. induction l as [|x l IH]; intros o HP; simpl; [done|].
  rewrite HP by lia. simpl. f_equal. apply IH. intros i Hi. apply HP. lia.
Qed.

Lemma expandFrom_replace {A} o (P P' : nat → bool) (g : A → list A) t l x :
  l !! t = Some x →
  (∀ i, i ≠ (o + t)%nat → P' i = P i) →
  P' (o + t)%nat = true →
  (∀ i, (o + t ≤ i)%nat → P i = false) →
  expandFrom o P g (take t l ++ g x ++ drop (S t) l) = expandFrom o P' g l.
Proof.
  revert o t. induction l as [|y l IH]; intros o t Hx Hne Ht Hge; [done|].
  destruct t as [|t]; simpl in *.
  - injection Hx as ->. replace (o + 0)%nat with o in * by lia.
    rewrite Ht, drop_0. rewrite !expandFrom_false; [done| |].
    + intros i Hi. rewrite Hne by lia. apply Hge. lia.
    + intros i Hi. apply Hge. lia.
  - rewrite Hne by lia. f_equal. apply IH; [done| | |].
    + intros i Hi. apply Hne. lia.
    + by replace (S o + t)%nat with (o + S t)%nat by lia.
    + intros i Hi. apply Hge. lia.
Qed.

(** Replacing, at descending indices one after the other, the element by a
    list made of it replaces exactly the elements at these indices. *)
Lemma expand_descending {A} (g : A → list A) ts (l : list A) :
  descending ts → Forall (λ t, t < length l)%nat ts →
  foldlM (λ l t, x ← l !! t;
                 Some (replaceRange l (Z.of_nat t) (Z.of_nat t) (g x)))
         l ts
  = Some (expandFrom 0 (λ i, bool_decide (i ∈ ts)) g l).
Proof.
  intros Hd. revert l.
  induction Hd as [|t ts Hd IH Hlt]; intros l Hrange; simpl.
  - f_equal. symmetry. by apply expandFrom_false.
  - apply list.Forall_cons in Hrange as [Ht Hrange].
    destruct (lookup_lt_is_Some_2 l t Ht) as [x Hx]. rewrite Hx. simpl.
    rewrite replaceRange_one by done. rewrite list.Forall_forall in Hlt.
    rewrite IH.
    + f_equal. apply (expandFrom_replace 0 _ _ g t l x Hx).
      * intros i Hi. apply bool_decide_ext. rewrite elem_of_cons.
        simpl in Hi. intuition.
      * apply bool_decide_eq_true. left.
      * intros i Hi. apply bool_decide_eq_false. intros Hin.
        apply Hlt in Hin. simpl in Hi. lia.
    + apply list.Forall_forall. intros i Hi. apply Hlt in Hi as Hit.
      rewrite !length_app, length_take. lia.
Qed.

Lemma extractTracks_foldl fileId ts file :
  foldlM (λ f item,
            trackIndex ← getTrackIndex item;
            track ← trk f !! trackIndex;
            Some (replaceTracks (Z.of_nat trackIndex) (Z.of_nat trackIndex)
                    (tracksOfSegments track) f))
         file (ListTrackItem fileId <$> ts)
  = l ← foldlM (λ l t, x ← l !! t;
                       Some (replaceRange l (Z.of_nat t) (Z.of_nat t)
                               (tracksOfSegments x)))
               (trk file) ts;
    Some (with_trk l file).
Proof.
  revert file. induction ts as [|t ts IH]; intros file; simpl.
  - by rewrite with_trk_id.
  - destruct (trk file !! t) as [track|]; simpl; [|done]. by rewrite IH.
Qed.

(** X24.  One file of [dbUtils.extractSelection] with selected tracks,
    whose items come in descending order of their indices: every selected
    track is replaced, in its place, by one track for each of its segments,
    in the order of the segments (so a selected track without segment is
    removed), and the other tracks stay as they are.  The track made of the
    segment [k] holds this segment only and has the name of the track,
    followed by [(k + 1)] when the track has a name. *)
Theorem extractSelection_tracks distance (original draft : DocumentState)
    fileId file ts :
  draft !! fileId = Some file →
  descending ts → Forall (λ t, t < length (trk file))%nat ts →
  extractVisit distance original draft
    (mkVisit fileId TRACK (ListTrackItem fileId <$> ts))
  = Some (<[fileId := with_trk
              (expandFrom 0 (λ i, bool_decide (i ∈ ts)) tracksOfSegments
                 (trk file)) file]> draft)
  ∧ ∀ track, track ∈ trk file →
      length (tracksOfSegments track) = length (trkseg track)
      ∧ ∀ k segment, trkseg track !! k = Some segment →
          tracksOfSegments track !! k
          = Some (mkTrack
                    (if truthy (trk_name track)
                     then Some (numbered (default "" (trk_name track)) k)
                     else trk_name track)
                    [segment]).
Proof.
  intros Hfile Hd Hrange. split.
  - unfold extractVisit. simpl. rewrite Hfile.
    by rewrite extractTracks_foldl, expand_descending.
  - intros track _. split.
    + unfold tracksOfSegments. by rewrite length_imap.
    + intros k segment Hk. by rewrite tracksOfSegments_lookup, Hk.
Qed.

Lemma extractSelection_tracks_witness :
  extractVisit gridDistance state3 state3
    (mkVisit "gpx-0" TRACK (ListTrackItem "gpx-0" <$> [2; 0]%nat))
  = Some (<["gpx-0" := with_trk
              (expandFrom 0 (λ i, bool_decide (i ∈ [2; 0]%nat))
                 tracksOfSegments (trk file3)) file3]> state3)
  ∧ ∀ track, track ∈ trk file3 →
      length (tracksOfSegments track) = length (trkseg track)
      ∧ ∀ k segment, trkseg track !! k = Some segment →
          tracksOfSegments track !! k
          = Some (mkTrack
                    (if truthy (trk_name track)
                     then Some (numbered (default "" (trk_name track)) k)
                     else trk_name track)
                    [segment]).
Proof.
  apply extractSelection_tracks.
  - vm_compute. reflexivity.
  - repeat constructor; simpl; lia.
  - repeat constructor; simpl; lia.
Defined.

(** * Further properties of split into files *)

(** X25.  [split] into files always stores a transaction when the cache
    holds the file, under its id, and the track and the segment exist.  The
    table gets the second part of the file of the cache in a row under an id
    that has no observer, which is the [_data.id] of that part; the row of
    the file that is split becomes the first part of the file of the cache
    when cropping changes this file, and it becomes nothing else; the other
    rows of the table are left as they were. *)
Theorem split_files_ids distance fileState observers fileId trackIndex
    segmentIndex coordinates db file track segment :
  dom fileState ⊆ observers →
  fileState !! fileId = Some file → file_id file = fileId →
  trk file !! trackIndex = Some track →
  trkseg track !! segmentIndex = Some segment →
  let abs := Z.of_nat (absoluteIndex FILES file trackIndex segmentIndex
               (closestPoint distance (trkpt segment) coordinates).2) in
  ∃ db' id,
    split distance FILES fileState observers fileId trackIndex segmentIndex
      coordinates db = Some db'
    ∧ patchIndex db' = patchIndex db + 1
    ∧ getFileIds observers 1 = [id]
    ∧ (id ∉ observers)
    ∧ files db' !! id
      = Some (crop abs (Z.of_nat (getNumberOfTrackPoints file) - 1)
                None None (with_id id file))
    ∧ (crop 0 abs None None file ≠ file →
       files db' !! fileId = Some (crop 0 abs None None file))
    ∧ (files db' !! fileId ≠ files db !! fileId →
       files db' !! fileId = Some (crop 0 abs None None file))
    ∧ ∀ k, k ≠ id → k ≠ fileId → files db' !! k = files db !! k.
Proof.
  intros Hobs Hfile Hid Htrack Hsegment abs. unfold split.
  pose proof (getFileIds_length observers 1) as Hlen.
  destruct (getFileIds observers 1) as [|id [|]] eqn:Hids; try done.
  assert (id ∉ observers) as Hout.
  { apply (getFileIds_fresh observers 1). rewrite Hids. left. }
  assert (fileState !! id = None) as Hnew.
  { apply not_elem_of_dom. intros Hin. by apply Hout, Hobs. }
  assert (id ≠ fileId) as Hne by (intros ->; congruence).
  set (cb := splitCallback distance FILES fileState observers fileId
               trackIndex segmentIndex coordinates).
  set (newFile := crop abs (Z.of_nat (getNumberOfTrackPoints file) - 1)
                    None None (with_id id file)).
  set (S' := <[id := newFile]>
               (<[fileId := crop 0 abs None None file]> fileState)).
  assert (cb fileState = Some S') as Hcb.
  { unfold cb, splitCallback. rewrite Hfile. simpl.
    rewrite Htrack. simpl. rewrite Hsegment. simpl. by rewrite Hids. }
  destruct (applyGlobalOn_files fileState cb db S' Hcb)
    as (db' & Hdb' & Hindex & Hfiles).
  { intros k f Hf Hold. unfold S' in Hf.
    destruct (decide (k = id)) as [->|Hk1].
    - rewrite lookup_insert_eq in Hf. by injection Hf as <-.
    - rewrite lookup_insert_ne in Hf by done.
      destruct (decide (k = fileId)) as [->|Hk2].
      + rewrite lookup_insert_eq in Hf. by injection Hf as <-.
      + rewrite lookup_insert_ne in Hf by done. congruence. }
  assert (files db' !! fileId
          = if decide (crop 0 abs None None file = file)
            then files db !! fileId
            else Some (crop 0 abs None None file)) as Hrow.
  { rewrite Hfiles. unfold S'.
    rewrite lookup_insert_ne, lookup_insert_eq, Hfile by done.
    destruct (decide (crop 0 abs None None file = file)) as [Heq|Hneq].
    + by rewrite decide_True by (by rewrite Heq).
    + rewrite decide_False; [done|]. congruence. }
  exists db', id. split_and!; [done..| | | |].
  - rewrite Hfiles. unfold S'. rewrite lookup_insert_eq, Hnew.
    by rewrite decide_False.
  - intros Hcrop. by rewrite Hrow, decide_False.
  - rewrite Hrow. by destruct (decide _).
  - intros k Hk1 Hk2. rewrite Hfiles. unfold S'.
    rewrite !lookup_insert_ne by done. by rewrite decide_True.
Qed.

Lemma split_files_ids_witness :
  ∃ db' id,
    split gridDistance FILES state3 {["gpx-0"; "gpx-1"]} "gpx-0" 0 1 halfWay
      (mkDatabase stateAB ∅ None) = Some db'
    ∧ patchIndex db' = patchIndex (mkDatabase stateAB ∅ None) + 1
    ∧ getFileIds {["gpx-0"; "gpx-1"]} 1 = [id]
    ∧ (id ∉ ({["gpx-0"; "gpx-1"]} : gset string))
    ∧ files db' !! id
      = Some (crop
                (Z.of_nat (absoluteIndex FILES file3 0 1
                             (closestPoint gridDistance [point 0 1]
                                halfWay).2))
                (Z.of_nat (getNumberOfTrackPoints file3) - 1)
                None None (with_id id file3))
    ∧ (crop 0
         (Z.of_nat (absoluteIndex FILES file3 0 1
                      (closestPoint gridDistance [point 0 1] halfWay).2))
         None None file3 ≠ file3 →
       files db' !! "gpx-0"
       = Some (crop 0
                 (Z.of_nat (absoluteIndex FILES file3 0 1
                              (closestPoint gridDistance [point 0 1]
                                 halfWay).2))
                 None None file3))
    ∧ (files db' !! "gpx-0" ≠ stateAB !! "gpx-0" →
       files db' !! "gpx-0"
       = Some (crop 0
                 (Z.of_nat (absoluteIndex FILES file3 0 1
                              (closestPoint gridDistance [point 0 1]
                                 halfWay).2))
                 None None file3))
    ∧ ∀ k, k ≠ id → k ≠ "gpx-0" → files db' !! k = stateAB !! k.
Proof.
  apply (split_files_ids gridDistance state3 {["gpx-0"; "gpx-1"]} "gpx-0" 0 1
           halfWay (mkDatabase stateAB ∅ None) file3
           (mkTrack (Some "t0")
              [mkTrackSegment [point 0 0]; mkTrackSegment [point 0 1]])
           (mkTrackSegment [point 0 1])).
  - unfold state3. rewrite dom_singleton_L.
    apply singleton_subseteq_l, elem_of_union. left.
    by apply elem_of_singleton.
  - vm_compute. reflexivity.
  - reflexivity.
  - reflexivity.
  - reflexivity.
Defined.

(** * Further properties of the deletions *)

(** The inverse patch names the same ids as the forward patch. *)
Lemma elem_of_patchesFor_inverse id old new k :
  (∃ p, p ∈ (patchesFor id old new).2 ∧ head (path p) = Some k)
  ↔ id = k ∧ old ≠ new.
Proof.
  unfold patchesFor. destruct old as [v|], new as [v'|]; simpl.
  - destruct (decide (v = v')) as [->|Hne]; simpl.
    + split; [by intros (p & ?%elem_of_nil & _)|by intros [_ ?]].
    + split.
      * intros (p & ->%list_elem_of_singleton & [= ->]). split; congruence.
      * intros [-> _]. eexists. split; [by left|done].
  - split.
    + by intros (p & ->%list_elem_of_singleton & [= ->]).
    + intros [-> _]. eexists. split; [by left|done].
  - split.
    + by intros (p & ->%list_elem_of_singleton & [= ->]).
    + intros [-> _]. eexists. split; [by left|done].
  - split; [by intros (p & ?%elem_of_nil & _)|by intros [_ ?]].
Qed.

Lemma elem_of_diffKeys_inverse (before after : DocumentState) ks k :
  (∃ p, p ∈ (diffKeys before after ks).2 ∧ head (path p) = Some k)
  ↔ k ∈ ks ∧ before !! k ≠ after !! k.
Proof.
  induction ks as [|id ks IH]; simpl.
  - split; [by intros (p & ?%elem_of_nil & _)|by intros [?%elem_of_nil _]].
  - split.
    + intros (p & [Hp|Hp]%elem_of_app & Hk).
      * destruct (proj1 (elem_of_patchesFor_inverse id (before !! id)
                           (after !! id) k)) as [-> Hne]; [eauto|].
        split; [left|done].
      * destruct (proj1 IH) as [Hin Hne]; [eauto|]. split; [by right|done].
    + intros [[->|Hin]%elem_of_cons Hne].
      * destruct (proj2 (elem_of_patchesFor_inverse id (before !! id)
                           (after !! id) id)) as (p & Hp & Hk); [done|].
        exists p. split; [|done]. apply elem_of_app. by left.
      * destruct (proj2 IH) as (p & Hp & Hk); [done|].
        exists p. split; [|done]. apply elem_of_app. by right.
Qed.

Lemma elem_of_changed_diff_inverse (before after : DocumentState) k :
  k ∈ getChangedFileIds (diff before after).2 ↔ before !! k ≠ after !! k.
Proof.
  unfold getChangedFileIds. rewrite elem_of_remove_dups, list_elem_of_omap.
  unfold diff. rewrite elem_of_diffKeys_inverse. split; [by intros [_ ?]|].
  intros Hne. split; [|done].
  apply elem_of_elements, elem_of_union. rewrite !elem_of_dom.
  destruct (before !! k), (after !! k); eauto. done.
Qed.

(** The inverse patch of a transaction that has removed files puts them
    back into whatever state it is applied to. *)
Lemma applyPatches_restore (before : DocumentState) ks :
  ∀ m : DocumentState,
  ∃ m' : DocumentState,
    applyPatches m (diffKeys before ∅ ks).2 = Some m'
    ∧ ∀ k, m' !! k = if decide (k ∈ ks ∧ is_Some (before !! k))
                     then before !! k else m !! k.
Proof.
  induction ks as [|id ks IH]; intros m.
  - exists m. split; [done|]. intros k. rewrite decide_False; [done|].
    by intros [?%elem_of_nil _].
  - change (diffKeys before ∅ (id :: ks)).2
      with ((patchesFor id (before !! id) ((∅ : DocumentState) !! id)).2
            ++ (diffKeys before ∅ ks).2).
    rewrite applyPatches_app, lookup_empty. unfold patchesFor.
    destruct (before !! id) as [v|] eqn:Hid; cbn [snd applyPatches].
    + unfold applyOne. cbn [path op value mbind option_bind].
      destruct (IH (<[id := v]> m)) as (m' & -> & Hm').
      exists m'. split; [done|]. intros k. rewrite Hm'.
      destruct (decide (k ∈ ks ∧ is_Some (before !! k))) as [[Hin Hk]|Hout].
      * rewrite decide_True; [done|]. split; [by right|done].
      * destruct (decide (k = id)) as [->|Hne].
        -- rewrite lookup_insert_eq, decide_True; [by rewrite Hid|].
           split; [left|]. rewrite Hid. eauto.
        -- rewrite lookup_insert_ne by done. rewrite decide_False; [done|].
           intros [[->|Hin]%elem_of_cons Hk]; [done|]. by apply Hout.
    + cbn [mbind option_bind].
      destruct (IH m) as (m' & -> & Hm').
      exists m'. split; [done|]. intros k. rewrite Hm'.
      destruct (decide (k ∈ ks ∧ is_Some (before !! k))) as [[Hin Hk]|Hout].
      * rewrite decide_True; [done|]. split; [by right|done].
      * rewrite decide_False; [done|].
        intros [[->|Hin]%elem_of_cons Hk]; [|by apply Hout].
        rewrite Hid in Hk. by destruct Hk.
Qed.

Lemma files_set_patchIndex i db : files (set_patchIndex i db) = files db.
Proof. done. Qed.

(** X26.  [dbUtils.deleteAllFiles] always stores a transaction; it
    removes from the table the files that the cache holds, and these only.
    One undo after it, whatever the cache holds by then, puts the files that
    the cache held back into the table, under their ids, and sets the cursor
    back.  With the cache in step with the table, the table is empty after
    the transaction and as before after the undo. *)
Theorem deleteAllFiles_undo fileState fileState' db :
  keyed fileState →
  ∃ db',
    deleteAllFilesOn fileState db = Some db'
    ∧ (∀ k, files db' !! k
            = if decide (is_Some (fileState !! k)) then None
              else files db !! k)
    ∧ canUndo db' = true
    ∧ (∀ k, files (undoOn fileState' db') !! k
            = if decide (is_Some (fileState !! k)) then fileState !! k
              else files db !! k)
    ∧ patchIndex (undoOn fileState' db') = patchIndex db
    ∧ (fileState = files db →
       files db' = ∅ ∧ files (undoOn fileState' db') = files db).
Proof.
  intros Hkeyed.
  destruct (applyGlobalOn_files fileState (λ _, Some ∅) db ∅ eq_refl)
    as (db' & Hdb' & Hindex & Hfiles); [by intros k f|].
  assert (∀ k, files db' !! k
               = if decide (is_Some (fileState !! k)) then None
                 else files db !! k) as Hfiles'.
  { intros k. rewrite Hfiles, lookup_empty.
    destruct (fileState !! k) as [f|] eqn:Hk.
    - rewrite decide_False by done. by rewrite decide_True by eauto.
    - rewrite decide_True by done. rewrite decide_False; [done|].
      by intros [? [=]]. }
  pose proof Hdb' as Hdb. unfold applyGlobalOn, produceWithPatches in Hdb.
  injection Hdb as Hdb. cbn [fst snd] in Hdb.
  set (p := (diff fileState ∅).1) in *. set (inv := (diff fileState ∅).2) in *.
  assert (canUndo db' = true) as Hcan.
  { rewrite <- Hdb. apply (canUndo_storePatches p inv db). }
  assert (patches db' !! patchIndex db'
          = Some (mkPatchEntry p inv (patchIndex db + 1))) as Hentry.
  { rewrite Hindex, <- Hdb, patches_commitFileStateChange.
    apply storePatches_entry. }
  destruct (applyPatches_restore fileState
              (elements (dom fileState ∪ dom (∅ : DocumentState))) fileState')
    as (m' & Hm' & Hrestored).
  assert (undoOn fileState' db'
          = set_patchIndex (patchIndex db' - 1)
              (commitFileStateChange m' inv db')) as Hundo.
  { unfold undoOn, applyPatchOn. rewrite Hcan, Hentry. cbn [inversePatch].
    unfold inv at 1, diff. by rewrite Hm'. }
  assert (∀ k, files (undoOn fileState' db') !! k
               = if decide (is_Some (fileState !! k)) then fileState !! k
                 else files db !! k) as Hback.
  { intros k. rewrite Hundo, files_set_patchIndex.
    assert (∀ j, j ∈ getChangedFileIds inv ↔ is_Some (fileState !! j))
      as Hchanged.
    { intros j. unfold inv. rewrite elem_of_changed_diff_inverse.
      rewrite lookup_empty. by rewrite is_Some_alt; destruct (fileState !! j). }
    assert (∀ j, is_Some (fileState !! j) → m' !! j = fileState !! j)
      as Hm'j.
    { intros j Hj. rewrite Hrestored, decide_True; [done|]. split; [|done].
      apply elem_of_elements, elem_of_union. left. by apply elem_of_dom. }
    rewrite commitFileStateChange_lookup.
    - destruct (decide (k ∈ getChangedFileIds inv)) as [Hk%Hchanged|Hk].
      + rewrite decide_True by done. by apply Hm'j.
      + rewrite decide_False by (by intros ?%Hchanged).
        rewrite Hfiles', decide_False; [done|]. by intros ?%Hchanged.
    - intros j f Hj%Hchanged Hf. rewrite (Hm'j j Hj) in Hf.
      by apply Hkeyed. }
  exists db'. split_and!; [done..| |].
  - rewrite Hundo. unfold patchIndex at 1. cbn. lia.
  - intros ->. split; apply map_eq; intros k.
    + rewrite Hfiles', lookup_empty. destruct (decide _) as [|Hk]; [done|].
      destruct (files db !! k); [|done]. exfalso. apply Hk. eauto.
    + rewrite Hback. destruct (decide _); done.
Qed.

Lemma deleteAllFiles_undo_witness :
  ∃ db',
    deleteAllFilesOn {["gpx-0" := fileA]} (mkDatabase stateAB ∅ None)
    = Some db'
    ∧ (∀ k, files db' !! k
            = if decide (is_Some (({["gpx-0" := fileA]} : DocumentState) !! k))
              then None else stateAB !! k)
    ∧ canUndo db' = true
    ∧ (∀ k, files (undoOn {["gpx-0" := fileA]} db') !! k
            = if decide (is_Some (({["gpx-0" := fileA]} : DocumentState) !! k))
              then ({["gpx-0" := fileA]} : DocumentState) !! k
              else stateAB !! k)
    ∧ patchIndex (undoOn {["gpx-0" := fileA]} db')
      = patchIndex (mkDatabase stateAB ∅ None)
    ∧ (({["gpx-0" := fileA]} : DocumentState) = stateAB →
       files db' = ∅
       ∧ files (undoOn {["gpx-0" := fileA]} db') = stateAB).
Proof.
  apply (deleteAllFiles_undo {["gpx-0" := fileA]} {["gpx-0" := fileA]}
           (mkDatabase stateAB ∅ None)).
  change ({["gpx-0" := fileA]} : DocumentState)
    with (<[file_id fileA := fileA]> (∅ : DocumentState)).
  apply keyed_insert, keyed_empty.
Defined.

Lemma deleteVisit_files visits :
  Forall (λ v, visit_level v = FILE) visits →
  ∀ draft : DocumentState,
  foldlM deleteVisit draft visits
  = Some (foldl (λ d v, delete (visit_fileId v) d) draft visits).
Proof.
  induction 1 as [|v visits Hv _ IH]; intros draft; [done|].
  cbn [foldlM foldl]. unfold deleteVisit at 1. rewrite Hv. apply IH.
Qed.

(** X27.  With nothing but files selected, [dbUtils.deleteSelection] is
    [dbUtils.deleteSelectedFiles]: the two leave the same database. *)
Theorem deleteSelection_of_files fileOrder selected db :
  Forall (λ item, item_level item = FILE) selected →
  deleteSelection fileOrder selected db
  = deleteSelectedFiles fileOrder selected db.
Proof.
  intros Hlevel. unfold deleteSelection, deleteSelectedFiles.
  destruct (decide (length selected = 0%nat)); [done|].
  apply applyGlobal_ext. apply deleteVisit_files.
  by apply visit_level_applyToOrderedItemsFromFile.
Qed.

Lemma deleteSelection_of_files_witness :
  deleteSelection ["gpx-0"] [ListFileItem "gpx-0"] db1
  = deleteSelectedFiles ["gpx-0"] [ListFileItem "gpx-0"] db1.
Proof. apply deleteSelection_of_files. by repeat constructor. Defined.
